(** * Ticker-mention aggregation and gain ranking (monthly dashboard)

    A shallow embedding of the aggregation/ranking core of the dashboard
    command handler: [startOfMonthUTC], [isInMonth], [getAvailableMonths],
    [buildMonthAgg], [getYahooChart], [pickStartIndex],
    [fetchBasisAndLatest], [mapLimit] and [computeGainers]; of its user
    interface, [buildDashboardComponents], the per-message selection
    ([metricState]), the summary of [showTickersDashboard], the paging
    of replies and [shortDate]; and the Alpha Vantage helpers
    [getLastClose] and [getATR].

    JavaScript numbers are modelled by what the code does with them:
    epoch-millisecond time values are integers or NaN ([option Z]), prices
    are [jsval]s (undefined, null, or a number that is NaN, an infinity or a
    finite rational).  Host builtins whose behaviour is locale-, time-zone-
    or implementation-defined ([Date.parse], [Number], [toUpperCase],
    [localeCompare], [Intl.DateTimeFormat]) are Section variables; concrete
    instances for the inputs used in the examples are given first. *)

From Stdlib Require Import ZArith QArith String Ascii Lia DecimalString.
From Stdlib Require DecimalPos DecimalZ.
From stdpp Require Import gmap strings list sorting.

Open Scope string_scope.
Open Scope Z_scope.

Set Default Proof Using "Type*".

(** ** JavaScript values *)

Module Js.

(** A Number: NaN, the two infinities, or a finite value. *)
Inductive num :=
| NaN
| PInf
| NInf
| Fin (q : Q).

(** What an array slot or an object field of the price data may hold. *)
Inductive jsval :=
| JUndef
| JNull
| JNum (x : num).

(** [ToNumber]: undefined is NaN, null is +0. *)
Definition toNumber (v : jsval) : num :=
  match v with
  | JUndef => NaN
  | JNull => Fin 0
  | JNum x => x
  end.

(** [v == null] *)
Definition eqNull (v : jsval) : bool :=
  match v with
  | JUndef | JNull => true
  | JNum _ => false
  end.

(** global [isFinite(v)] *)
Definition isFinite (v : jsval) : bool :=
  match toNumber v with
  | Fin _ => true
  | _ => false
  end.

(** [v > 0] *)
Definition gt0 (v : jsval) : bool :=
  match toNumber v with
  | Fin q => negb (Qle_bool q 0)
  | PInf => true
  | NaN | NInf => false
  end.

(** [a ?? b] *)
Definition coalesce (a b : jsval) : jsval :=
  if eqNull a then b else a.

(** [v != null && isFinite(v)] *)
Definition usable (v : jsval) : bool :=
  negb (eqNull v) && isFinite v.

(** [x < y] on Numbers; false as soon as one side is NaN. *)
Definition num_ltb (x y : num) : bool :=
  match x, y with
  | NaN, _ | _, NaN => false
  | _, NInf => false
  | NInf, _ => true
  | PInf, _ => false
  | Fin _, PInf => true
  | Fin a, Fin b => negb (Qle_bool b a)
  end.

(** The sign of [y - x] as a sort comparator reads it: a NaN difference
    (NaN operand, or two infinities of the same sign) counts as 0. *)
Definition sub_sign (y x : num) : Z :=
  if num_ltb x y then 1 else if num_ltb y x then -1 else 0.

(** [String(n)] for an integral Number, NaN printed as such. *)
Definition numToString (n : option Z) : string :=
  match n with
  | None => "NaN"
  | Some z => NilZero.string_of_int (Z.to_int z)
  end.

(** [s.padStart(2, "0")] *)
Definition padStart2 (s : string) : string :=
  match s with
  | String _ EmptyString => String "0" s
  | EmptyString => "00"
  | _ => s
  end.

(** [s || ""] for an optional string field. *)
Definition orEmpty (s : option string) : string :=
  match s with
  | Some x => x
  | None => ""
  end.

(** [s.split("-")] *)
Fixpoint split_dash_aux (acc : string) (s : string) : list string :=
  match s with
  | EmptyString => [acc]
  | String c rest =>
      if Ascii.eqb c "-" then acc :: split_dash_aux "" rest
      else split_dash_aux (String.append acc (String c "")) rest
  end.

Definition split_dash (s : string) : list string := split_dash_aux "" s.

(** [a >= b] on strings: code-unit order. *)
Definition str_geb (a b : string) : bool :=
  match String.compare a b with
  | Lt => false
  | _ => true
  end.

End Js.

Import Js.

(** ** UTC calendar arithmetic of [Date] *)

Module UtcDate.

Definition msPerDay : Z := 86400000.

(** Largest magnitude of a time value ([TimeClip]). *)
Definition maxTime : Z := 8640000000000000.

Definition TimeClip (t : Z) : option Z :=
  if Z.abs t <=? maxTime then Some t else None.

(** [Day(t) = floor(t / msPerDay)] *)
Definition Day (t : Z) : Z := t / msPerDay.

(** Proleptic Gregorian date of a day number (days since 1970-01-01):
    year, month (1-based) and day of month. *)
Definition civil_from_days (d : Z) : Z * Z * Z :=
  let z := d + 719468 in
  let era := z / 146097 in
  let doe := z - era * 146097 in
  let yoe := (doe - doe / 1460 + doe / 36524 - doe / 146096) / 365 in
  let y := yoe + era * 400 in
  let doy := doe - (365 * yoe + yoe / 4 - yoe / 100) in
  let mp := (5 * doy + 2) / 153 in
  let dd := doy - (153 * mp + 2) / 5 + 1 in
  let m := if mp <? 10 then mp + 3 else mp - 9 in
  (if m <=? 2 then y + 1 else y, m, dd).

(** Day number of a proleptic Gregorian date, month 1-based in 1..12. *)
Definition days_from_civil (y m d : Z) : Z :=
  let y' := if m <=? 2 then y - 1 else y in
  let era := y' / 400 in
  let yoe := y' - era * 400 in
  let doy := (153 * (if 2 <? m then m - 3 else m + 9) + 2) / 5 + d - 1 in
  let doe := yoe * 365 + yoe / 4 - yoe / 100 + doy in
  era * 146097 + doe - 719468.

Definition YearFromTime (t : Z) : Z := (civil_from_days (Day t)).1.1.
(** 0-based, as [getUTCMonth] reports it. *)
Definition MonthFromTime (t : Z) : Z := (civil_from_days (Day t)).1.2 - 1.

(** [new Date(v)]: the time value of the Date object. *)
Definition newDate (v : option Z) : option Z := v ≫= TimeClip.

Definition getUTCFullYear (d : option Z) : option Z := YearFromTime <$> d.
Definition getUTCMonth (d : option Z) : option Z := MonthFromTime <$> d.

(** [MakeDay(year, month, 1)]: the month is 0-based and carries into the
    year. *)
Definition MakeDay1 (year month : Z) : Z :=
  days_from_civil (year + month / 12) (month mod 12 + 1) 1.

(** [Date.UTC(year, month, 1, 0, 0, 0, 0)]: a year in 0..99 means 19xx. *)
Definition Date_UTC (year month : option Z) : option Z :=
  y ← year; m ← month;
  let yr := if (0 <=? y) && (y <=? 99) then 1900 + y else y in
  TimeClip (MakeDay1 yr m * msPerDay).

(** The round trip of the two conversions for day 1 of month [mp]
    (counted from March) of year [yoe] of a 400-year era, as a test. *)
Definition era_check (yoe mp : Z) : bool :=
  let doy := (153 * mp + 2) / 5 in
  let doe := yoe * 365 + yoe / 4 - yoe / 100 + doy in
  (0 <=? doe) && (doe <? 146097)
  && ((doe - doe / 1460 + doe / 36524 - doe / 146096) / 365 =? yoe)
  && ((5 * doy + 2) / 153 =? mp).

(** [f] holds of the [fuel] integers from [z] on. *)
Fixpoint all_from (fuel : nat) (z : Z) (f : Z → bool) : bool :=
  match fuel with
  | O => true
  | S fuel' => f z && all_from fuel' (z + 1) f
  end.

(** [a === b] on Numbers: NaN equals nothing. *)
Definition strictEq (a b : option Z) : bool :=
  match a, b with
  | Some x, Some y => x =? y
  | _, _ => false
  end.

End UtcDate.

Import UtcDate.

(** ** Concrete host builtins for the examples

    Each function below agrees with the JavaScript builtin it stands for on
    the inputs named in its comment; the properties of the program are
    proved for arbitrary builtins and only instantiated with these. *)

Module Host.

Definition digit (c : ascii) : option Z :=
  let n := Z.of_nat (nat_of_ascii c) in
  if (48 <=? n) && (n <=? 57) then Some (n - 48) else None.

Fixpoint digits_aux (acc : Z) (s : string) : option Z :=
  match s with
  | EmptyString => Some acc
  | String c rest => d ← digit c; digits_aux (10 * acc + d) rest
  end.

(** [Number(s)] on strings of decimal digits (the empty string is 0);
    anything else is NaN here. *)
Definition decimal_Number (s : string) : option Z := digits_aux 0 s.

(** A non-empty run of digits. *)
Definition field (s : string) : option Z :=
  match s with
  | EmptyString => None
  | _ => digits_aux 0 s
  end.

Definition sep_ok (s : string) (i : nat) (c : ascii) : bool :=
  match String.get i s with
  | Some c' => Ascii.eqb c c'
  | None => false
  end.

(** [Date.parse] on the ISO-8601 UTC forms [YYYY-MM-DDTHH:mm:ssZ] and
    [YYYY-MM-DDTHH:mm:ss.sssZ]; every other string is NaN here. *)
Definition iso_parse (s : string) : option Z :=
  let len := String.length s in
  if negb (Nat.eqb len 20 || Nat.eqb len 24) then None else
  if negb (sep_ok s 4 "-" && sep_ok s 7 "-" && sep_ok s 10 "T"
           && sep_ok s 13 ":" && sep_ok s 16 ":"
           && sep_ok s (len - 1) "Z") then None else
  if negb (Nat.eqb len 20 || sep_ok s 19 ".") then None else
  y ← field (String.substring 0 4 s);
  mo ← field (String.substring 5 2 s);
  d ← field (String.substring 8 2 s);
  h ← field (String.substring 11 2 s);
  mi ← field (String.substring 14 2 s);
  sec ← field (String.substring 17 2 s);
  ms ← (if Nat.eqb len 20 then Some 0 else field (String.substring 20 3 s));
  if negb ((1 <=? mo) && (mo <=? 12) && (h <=? 23) && (mi <=? 59)
           && (sec <=? 59)) then None else
  let day := days_from_civil y mo d in
  match civil_from_days day with
  | (y', mo', d') =>
      if (y' =? y) && (mo' =? mo) && (d' =? d)
      then Some (day * msPerDay + h * 3600000 + mi * 60000 + sec * 1000 + ms)
      else None
  end.

Definition upper_char (c : ascii) : ascii :=
  let n := nat_of_ascii c in
  if (Nat.leb 97 n && Nat.leb n 122)%bool then ascii_of_nat (n - 32) else c.

(** [toUpperCase] on ASCII strings. *)
Fixpoint ascii_toUpperCase (s : string) : string :=
  match s with
  | EmptyString => EmptyString
  | String c rest => String (upper_char c) (ascii_toUpperCase rest)
  end.

(** [a.localeCompare(b)] on strings over digits, [-] and the letters of
    [NaN], where collation order is code-unit order. *)
Definition codeunit_compare (a b : string) : Z :=
  match String.compare a b with
  | Lt => -1
  | Eq => 0
  | Gt => 1
  end.

Definition pad4 (s : string) : string :=
  match String.length s with
  | 1%nat => String.append "000" s
  | 2%nat => String.append "00" s
  | 3%nat => String.append "0" s
  | _ => s
  end.

(** The [year] and [month] parts [Intl.DateTimeFormat("en-CA", ...)]
    prints for a time value in the zone [UTC] (years 1..9999). *)
Definition utc_ym_parts (t : Z) (tz : string) : string * string :=
  (pad4 (numToString (Some (YearFromTime t))),
   padStart2 (numToString (Some (MonthFromTime t + 1)))).

(** The [YYYY-MM-DD] string the same formatter prints in the zone [UTC]. *)
Definition utc_localYMD (t : Z) (tz : string) : string :=
  let '(y, m, d) := civil_from_days (Day t) in
  String.append (pad4 (numToString (Some y)))
    (String.append "-"
       (String.append (padStart2 (numToString (Some m)))
          (String.append "-" (padStart2 (numToString (Some d)))))).

(** [((latest - basis) / basis) * 100] computed exactly on finite
    operands (the double up to rounding); a zero basis gives an infinity
    or NaN as the division does. *)
Definition pct_exact (latest basis : jsval) : num :=
  match toNumber latest, toNumber basis with
  | Fin l, Fin b =>
      if Qeq_bool b 0 then
        if Qeq_bool l 0 then NaN
        else if Qle_bool l 0 then NInf else PInf
      else Fin ((l - b) / b * 100)
  | _, _ => NaN
  end.

End Host.

(** ** Data model *)

(** [user] field of a mention record. *)
Record userRef := {
  user_id : option string;
  user_name : option string
}.

(** A mention record of the store; any field may be missing. *)
Record entry := {
  ticker : option string;
  timestamp : option string;
  link : option string;
  user : option userRef
}.

(** [firstTs] starts at [Infinity]. *)
Inductive extZ :=
| Infinity
| Finite (z : Z).

(** Per-ticker aggregate of the selected month. *)
Record agg := {
  countMTD : nat;
  firstTs : extZ;
  firstLink : string;
  firstUserId : string;
  firstUserName : string;
  lastTs : Z;
  lastLink : string
}.

(** Per-user count of first mentions. *)
Record userCount := {
  uc_name : string;
  uc_count : nat
}.

(** A JavaScript [Map] with string keys: the stored bindings and the keys
    in order of first insertion (the iteration order). *)
Module JsMap.

Record t (V : Type) := mk {
  store : gmap string V;
  order : list string
}.
Arguments mk {V} _ _.
Arguments store {V} _.
Arguments order {V} _.

Definition empty {V} : t V := mk ∅ [].

Definition get {V} (k : string) (m : t V) : option V := store m !! k.

Definition set {V} (k : string) (v : V) (m : t V) : t V :=
  mk (<[k := v]> (store m))
     (if decide (k ∈ order m) then order m else order m ++ [k]).

(** The values, in iteration order. *)
Definition values {V} (m : t V) : list V :=
  omap (λ k, store m !! k) (order m).

End JsMap.

(** [new Set()] followed by [add]: first insertion order, no duplicates. *)
Definition Set_add (x : string) (s : list string) : list string :=
  if decide (x ∈ s) then s else s ++ [x].

(** [Array.prototype.sort(cmp)]: a stable sort by the sign of [cmp]. *)
Fixpoint insert_by {A} (cmp : A → A → Z) (x : A) (l : list A) : list A :=
  match l with
  | [] => [x]
  | y :: l' => if cmp x y <=? 0 then x :: l else y :: insert_by cmp x l'
  end.

Definition js_sort {A} (cmp : A → A → Z) (l : list A) : list A :=
  foldr (insert_by cmp) [] l.

(** The parsed price series kept in the cache. *)
Record chart := {
  timestamps : list Z;
  opens : list jsval;
  closes : list jsval;
  lastClose : jsval;
  lastPrice : jsval;
  tz : string
}.

(** [indicators.quote[0]] of a chart response. *)
Record yquote := {
  q_open : option (list jsval);
  q_close : option (list jsval)
}.

(** [meta] of a chart response. *)
Record ymeta := {
  regularMarketPrice : jsval;
  exchangeTimezoneName : option string
}.

(** [data.chart.result[0]] of a chart response; timestamps in seconds. *)
Record yresult := {
  r_timestamp : option (list Z);
  r_quote : option yquote;
  r_adjclose : option (list jsval);
  r_meta : option ymeta
}.

(** What the HTTP GET for one symbol and range comes back with. *)
Inductive fetched :=
| Rejected
| NoResult
| Result (r : yresult).

Inductive error :=
| HttpError
| ChartNA
| BadStartPrices
| BadLatestPrice
| RangeError.

Inductive outcome (A : Type) :=
| Ok (a : A)
| Throw (e : error).
Arguments Ok {A} _.
Arguments Throw {A} _.

(** [{ anchor, mode }]; a missing field takes its default. *)
Record options := {
  anchor : option string;
  mode : option string
}.

Record basisLatest := {
  basis : jsval;
  latest : jsval
}.

(** The options of [computeGainers]; a missing field takes its default. *)
Record gainerOptions := {
  limitTickers : option Z;
  concurrency : option Z;
  g_anchor : option string;
  g_mode : option string;
  selectedMonth : string
}.

(** ** Sample data *)

Module Samples.

Definition mention (t ts uid uname : string) : entry :=
  {| ticker := Some t; timestamp := Some ts; link := None;
     user := Some {| user_id := Some uid; user_name := Some uname |} |}.

(** Two mentions of one ticker in March 2024 and one of another in
    April. *)
Definition xyz1 : entry := mention "XYZ" "2024-03-05T10:00:00Z" "u1" "Ann".
Definition xyz2 : entry := mention "xyz" "2024-03-20T09:00:00Z" "u2" "Bo".
Definition abcApril : entry := mention "abc" "2024-04-02T08:00:00Z" "u2" "Bo".
Definition mentions : list entry := [xyz1; xyz2; abcApril].

(** Tickers with surrounding blanks, and one of blanks only. *)
Definition padded : list entry :=
  [mention " abc" "2024-03-05T10:00:00Z" "u1" "Ann";
   mention "ABC" "2024-03-06T10:00:00Z" "u2" "Bo";
   mention "  " "2024-03-07T10:00:00Z" "u2" "Bo"].

(** A mention whose timestamp is no date. *)
Definition undated : entry := mention "XYZ" "yesterday" "u1" "Ann".

(** 2024-03-01, 2024-03-04 and 2024-03-05 at 14:30 UTC, the open of the
    second day missing. *)
Definition series : chart :=
  {| timestamps := [1709303400000; 1709562600000; 1709649000000];
     opens := [JNum (Fin 10); JNull; JNum (Fin 12)];
     closes := [JNum (Fin 11); JNum (Fin 13); JNum (Fin 14)];
     lastClose := JNum (Fin 14); lastPrice := JNum (Fin 15);
     tz := "UTC" |}.

(** 2024-03-04T10:00:00Z *)
Definition mentionTime : Z := 1709546400000.

(** 2024-03-10T00:00:00Z *)
Definition clock : Z := 1710028800000.

Definition sinceMention (m : string) : options :=
  {| anchor := Some "mention"; mode := Some m |}.

(** A response payload with the same series, timestamps in seconds. *)
Definition payload : yresult :=
  {| r_timestamp := Some [1709303400; 1709562600; 1709649000];
     r_quote := Some {| q_open := Some [JNum (Fin 10); JNull; JNum (Fin 12)];
                        q_close := Some [JNum (Fin 11); JNum (Fin 13);
                                         JNum (Fin 14)] |};
     r_adjclose := None;
     r_meta := Some {| regularMarketPrice := JNum (Fin 15);
                       exchangeTimezoneName := Some "UTC" |} |}.

(** A response payload whose only open is 0. *)
Definition zeroOpenPayload : yresult :=
  {| r_timestamp := Some [1709562600];
     r_quote := Some {| q_open := Some [JNum (Fin 0)];
                        q_close := Some [JNum (Fin 10)] |};
     r_adjclose := None;
     r_meta := Some {| regularMarketPrice := JNum (Fin 12);
                       exchangeTimezoneName := Some "UTC" |} |}.

(** A provider that knows every symbol but [BAD]. *)
Definition provider (symbol range : string) : fetched :=
  if decide (symbol = "BAD") then NoResult else Result payload.

Definition zeroOpenProvider (symbol range : string) : fetched :=
  Result zeroOpenPayload.

Definition offline (symbol range : string) : fetched := Rejected.

Definition batchOptions (limit : option Z) : gainerOptions :=
  {| limitTickers := limit; concurrency := Some 2;
     g_anchor := Some "mention"; g_mode := Some "oc";
     selectedMonth := "2024-03" |}.

End Samples.

(** ** The program *)

Section Dashboard.

(** [Date.parse]: epoch milliseconds, or NaN. *)
Variable Date_parse : string → option Z.
(** [Number] on a string, as an integer (its fraction is dropped by
    [Date.UTC] anyway); NaN and the infinities are [None]. *)
Variable Number : string → option Z.
Variable toUpperCase : string → string.
(** [a.localeCompare(b)] *)
Variable localeCompare : string → string → Z.
(** [Intl.DateTimeFormat("en-CA", {timeZone, year, month, day})] applied
    to a valid time value. *)
Variable localYMD : Z → string → string.
(** The [year] and [month] parts of the same formatter without [day]. *)
Variable formatYM : Z → string → string * string.
(** The double [((latest - basis) / basis) * 100]. *)
Variable pctOf : jsval → jsval → num.

(** *** DB and time helpers *)

Definition startOfMonthUTC (year month : option Z) : option Z :=
  Date_UTC year ((λ m, m - 1) <$> month).

Definition isInMonth (tsMs monthStartMs : option Z) : bool :=
  let d := newDate tsMs in
  let m0 := newDate monthStartMs in
  strictEq (getUTCFullYear d) (getUTCFullYear m0)
  && strictEq (getUTCMonth d) (getUTCMonth m0).

(** [Date.parse(e.timestamp)]; a missing timestamp parses to NaN. *)
Definition parseTimestamp (e : entry) : option Z :=
  timestamp e ≫= Date_parse.

(** The key one entry adds to the set of months. *)
Definition monthKey (e : entry) : string :=
  let d := newDate (parseTimestamp e) in
  let year := getUTCFullYear d in
  let month := padStart2 (numToString ((λ m, m + 1) <$> getUTCMonth d)) in
  String.append (numToString year) (String.append "-" month).

Definition getAvailableMonths (entries : list entry) : list string :=
  let months := foldl (λ months e, Set_add (monthKey e) months) [] entries in
  js_sort (λ a b, localeCompare b a) months.

(** [const [year, month] = selectedMonth.split("-").map(Number)] *)
Definition yearMonth (selectedMonth : string) : option Z * option Z :=
  let parts := Number <$> split_dash selectedMonth in
  (mjoin (parts !! 0%nat), mjoin (parts !! 1%nat)).

(** *** MTD aggregation *)

Definition freshAgg : agg :=
  {| countMTD := 0; firstTs := Infinity; firstLink := ""; firstUserId := "";
     firstUserName := ""; lastTs := -1; lastLink := "" |}.

(** [ts < cur.firstTs] *)
Definition ltFirst (ts : option Z) (f : extZ) : bool :=
  match ts, f with
  | None, _ => false
  | Some _, Infinity => true
  | Some t, Finite z => t <? z
  end.

(** [ts > cur.lastTs] *)
Definition gtLast (ts : option Z) (l : Z) : bool :=
  match ts with
  | None => false
  | Some t => l <? t
  end.

(** [e.ticker?.toUpperCase()] *)
Definition symOf (e : entry) : option string := toUpperCase <$> ticker e.

(** The body of the loop once [sym] is known: [cur] after its three
    updates. *)
Definition recordMention (cur : agg) (e : entry) : agg :=
  let ts := parseTimestamp e in
  let cur1 :=
    {| countMTD := S (countMTD cur); firstTs := firstTs cur;
       firstLink := firstLink cur; firstUserId := firstUserId cur;
       firstUserName := firstUserName cur; lastTs := lastTs cur;
       lastLink := lastLink cur |} in
  let cur2 :=
    if ltFirst ts (firstTs cur1) then
      {| countMTD := countMTD cur1;
         firstTs := from_option Finite Infinity ts;
         firstLink := orEmpty (link e);
         firstUserId := orEmpty (user e ≫= user_id);
         firstUserName := orEmpty (user e ≫= user_name);
         lastTs := lastTs cur1; lastLink := lastLink cur1 |}
    else cur1 in
  if gtLast ts (lastTs cur2) then
    {| countMTD := countMTD cur2; firstTs := firstTs cur2;
       firstLink := firstLink cur2; firstUserId := firstUserId cur2;
       firstUserName := firstUserName cur2;
       lastTs := default (lastTs cur2) ts;
       lastLink := orEmpty (link e) |}
  else cur2.

(** The key an entry is filed under: [sym], unless it is missing or
    empty ([if (!sym) continue]). *)
Definition keyOf (e : entry) : option string :=
  sym ← symOf e; if decide (sym = "") then None else Some sym.

(** One iteration of the loop over the month's entries. *)
Definition addMention (byTicker : JsMap.t agg) (e : entry) : JsMap.t agg :=
  match keyOf e with
  | None => byTicker
  | Some sym =>
      let cur := default freshAgg (JsMap.get sym byTicker) in
      JsMap.set sym (recordMention cur e) byTicker
  end.

(** One iteration of the loop over the aggregates. *)
Definition addFirstUser (counts : JsMap.t userCount) (v : agg)
  : JsMap.t userCount :=
  if decide (firstUserId v = "") then counts else
  let e := default {| uc_name := firstUserName v; uc_count := 0 |}
             (JsMap.get (firstUserId v) counts) in
  let e1 := {| uc_name := uc_name e; uc_count := S (uc_count e) |} in
  let e2 :=
    if decide (uc_name e1 = "") then
      if decide (firstUserName v = "") then e1
      else {| uc_name := firstUserName v; uc_count := uc_count e1 |}
    else e1 in
  JsMap.set (firstUserId v) e2 counts.

Record monthAgg := {
  byTicker : JsMap.t agg;
  firstByUserCounts : JsMap.t userCount
}.

(** [monthStart] of the selected month. *)
Definition monthStartOf (selectedMonth : string) : option Z :=
  let '(year, month) := yearMonth selectedMonth in
  startOfMonthUTC year month.

(** The entries the month filter keeps. *)
Definition monthEntries (entries : list entry) (selectedMonth : string)
  : list entry :=
  let monthStart := monthStartOf selectedMonth in
  filter (λ e, isInMonth (parseTimestamp e) monthStart = true) entries.

Definition buildMonthAgg (entries : list entry) (selectedMonth : string)
  : monthAgg :=
  let mtd := monthEntries entries selectedMonth in
  let byTicker := foldl addMention JsMap.empty mtd in
  let firstByUserCounts :=
    foldl addFirstUser JsMap.empty (JsMap.values byTicker) in
  {| byTicker := byTicker; firstByUserCounts := firstByUserCounts |}.

(** *** Yahoo Finance fetch *)

(** [Math.max(1, Math.floor((Date.now() - (fromTsMs || Date.now())) /
    86400000))]; [now] and [now'] are the two clock reads, the second one
    taken only when [fromTsMs] is falsy (0, NaN or missing). *)
Definition elapsedDays (now now' : Z) (fromTsMs : option Z) : Z :=
  let from :=
    match fromTsMs with
    | Some t => if t =? 0 then now' else t
    | None => now'
    end in
  Z.max 1 ((now - from) / 86400000).

Definition rangeOf (days : Z) : string :=
  if days <=? 30 then "1mo"
  else if days <=? 62 then "3mo"
  else if days <=? 370 then "1y"
  else "5y".

Definition cacheKeyOf (symbol range : string) : string :=
  String.append symbol (String.append "|" range).

(** [[...closes].reverse().find((v) => v != null && isFinite(v))] *)
Definition lastFinite (closes : list jsval) : jsval :=
  default JUndef (List.find usable (reverse closes)).

Definition defaultTz : string := "America/New_York".

(** [name || "America/New_York"] *)
Definition tzOr (name : string) : string :=
  if decide (name = "") then defaultTz else name.

(** The series built from a response payload.  The three arrays are
    arrays by their types here, so the parse-failure throw that follows in
    the source has no input to fire on. *)
Definition parseChart (r : yresult) : chart :=
  let ts := (λ s, s * 1000) <$> default [] (r_timestamp r) in
  let closes0 := default [] (r_quote r ≫= q_close) in
  let opens := default [] (r_quote r ≫= q_open) in
  let closes :=
    match closes0, r_adjclose r with
    | [], Some adj => adj
    | _, _ => closes0
    end in
  let lastClose := lastFinite closes in
  let lastPrice :=
    coalesce (from_option regularMarketPrice JUndef (r_meta r)) lastClose in
  let tz := tzOr (orEmpty (r_meta r ≫= exchangeTimezoneName)) in
  {| timestamps := ts; opens := opens; closes := closes;
     lastClose := lastClose; lastPrice := lastPrice; tz := tz |}.

(** [net symbol range] is what the GET for that URL comes back with at
    the time of the call; the cache is threaded through. *)
Definition getYahooChart (net : string → string → fetched) (now now' : Z)
    (chartCache : gmap string chart) (symbol : string)
    (fromTsMs : option Z) : outcome chart * gmap string chart :=
  let days := elapsedDays now now' fromTsMs in
  let range := rangeOf days in
  let cacheKey := cacheKeyOf symbol range in
  match chartCache !! cacheKey with
  | Some ch => (Ok ch, chartCache)
  | None =>
      match net symbol range with
      | Rejected => (Throw HttpError, chartCache)
      | NoResult => (Throw ChartNA, chartCache)
      | Result r =>
          let out := parseChart r in
          (Ok out, <[cacheKey := out]> chartCache)
      end
  end.

(** [localYMD(ts, tz)]: formatting an invalid Date throws. *)
Definition localYMD_at (ts : option Z) (tz : string) : outcome string :=
  match newDate ts with
  | Some t => Ok (localYMD t tz)
  | None => Throw RangeError
  end.

Definition monthFirstYMD (tz : string) (year month : option Z)
  : outcome string :=
  match newDate (startOfMonthUTC year month) with
  | None => Throw RangeError
  | Some t =>
      let '(py, pm) := formatYM t tz in
      let y := if decide (py = "") then numToString year else py in
      let m := if decide (pm = "") then numToString month else pm in
      Ok (String.append y (String.append "-" (String.append m "-01")))
  end.

(** The scan of [pickStartIndex]: the first index from [i] on whose local
    date is on or after [targetYMD]. *)
Fixpoint scanStart (tz targetYMD : string) (tss : list Z) (i : nat)
  : outcome (option nat) :=
  match tss with
  | [] => Ok None
  | t :: rest =>
      match localYMD_at (Some t) tz with
      | Throw e => Throw e
      | Ok ymd =>
          if str_geb ymd targetYMD then Ok (Some i)
          else scanStart tz targetYMD rest (S i)
      end
  end.

(** The date the scan looks for. *)
Definition targetYMDOf (ch : chart) (anchor : string) (mentionTs : option Z)
    (selectedMonth : string) : outcome string :=
  let tz := tzOr (tz ch) in
  let '(year, month) := yearMonth selectedMonth in
  if decide (anchor = "month") then monthFirstYMD tz year month
  else localYMD_at mentionTs tz.

Definition pickStartIndex (ch : chart) (anchor : string)
    (mentionTs : option Z) (selectedMonth : string) : outcome nat :=
  match targetYMDOf ch anchor mentionTs selectedMonth with
  | Throw e => Throw e
  | Ok targetYMD =>
      match scanStart (tzOr (tz ch)) targetYMD (timestamps ch) 0 with
      | Throw e => Throw e
      | Ok idx => Ok (default 0%nat idx)
      end
  end.

(** The gap-filling loop: [cur] is the value at the start index, [rest]
    the array from that index on. *)
Fixpoint gapFill (cur : jsval) (rest : list jsval) : jsval :=
  match rest with
  | [] => cur
  | x :: rest' =>
      if usable cur then cur
      else if usable x then x
      else gapFill cur rest'
  end.

(** [xs[idx]] followed by its gap-filling loop. *)
Definition startPrice (xs : list jsval) (idx : nat) : jsval :=
  gapFill (default JUndef (xs !! idx)) (drop idx xs).

(** The part of [fetchBasisAndLatest] after the series is there. *)
Definition resolveOn (ch : chart) (mentionTs : option Z) (opts : options)
    (selectedMonth : string) : outcome basisLatest :=
  let anchor := default "mention" (anchor opts) in
  let mode := default "oc" (mode opts) in
  match pickStartIndex ch anchor mentionTs selectedMonth with
  | Throw e => Throw e
  | Ok idx =>
      let startOpen := startPrice (opens ch) idx in
      let startClose := startPrice (closes ch) idx in
      let lastClose := lastClose ch in
      let lastPrice := lastPrice ch in
      if negb (gt0 startOpen) && negb (gt0 startClose)
      then Throw BadStartPrices
      else if negb (gt0 lastPrice) && negb (gt0 lastClose)
      then Throw BadLatestPrice
      else
        let basis :=
          if decide (mode = "cc") then coalesce startClose startOpen
          else coalesce startOpen startClose in
        let latest :=
          if decide (mode = "cc") then coalesce lastClose lastPrice
          else coalesce lastPrice lastClose in
        Ok {| basis := basis; latest := latest |}
  end.

(** The instant the series is asked from: the month's UTC start or the
    mention. *)
Definition fetchFrom (mentionTs : option Z) (opts : options)
    (selectedMonth : string) : option Z :=
  let anchor := default "mention" (anchor opts) in
  let '(year, month) := yearMonth selectedMonth in
  if decide (anchor = "month") then startOfMonthUTC year month
  else mentionTs.

Definition fetchBasisAndLatest (net : string → string → fetched)
    (now now' : Z) (chartCache : gmap string chart) (symbol : string)
    (mentionTs : option Z) (opts : options) (selectedMonth : string)
  : outcome basisLatest * gmap string chart :=
  let from := fetchFrom mentionTs opts selectedMonth in
  match getYahooChart net now now' chartCache symbol from with
  | (Throw e, cache') => (Throw e, cache')
  | (Ok ch, cache') => (resolveOn ch mentionTs opts selectedMonth, cache')
  end.

(** *** Concurrency map

    The scheduler of [mapLimit] as a state machine.  [results] is the
    array (a slot is empty until its task settles, then holds the value
    or [null]), [nextIdx] the counter [i], [inflight] the indices of the
    started and unsettled tasks ([active] is its length), [resolved]
    whether the outer promise has been resolved.  Which in-flight task
    settles next is up to the environment: a schedule is a list of picks
    into [inflight]. *)

Record sched (R : Type) := {
  results : list (option (option R));
  nextIdx : nat;
  inflight : list nat;
  resolved : bool
}.
Arguments results {R} _.
Arguments nextIdx {R} _.
Arguments inflight {R} _.
Arguments resolved {R} _.

Section MapLimit.

Context {A R : Type}.
Variable items : list A.
Variable limit : Z.
(** What the promise of [worker(items[idx], idx)] settles with: a value
    (possibly [null]) or a rejection. *)
Variable worker : A → nat → outcome (option R).

(** The [while] loop of [next]; [fuel] bounds its iterations. *)
Fixpoint startTasks (fuel : nat) (i : nat) (act : list nat)
  : nat * list nat :=
  match fuel with
  | O => (i, act)
  | S fuel' =>
      if (Z.of_nat (length act) <? limit) && (i <? length items)%nat
      then startTasks fuel' (S i) (act ++ [i])
      else (i, act)
  end.

Definition next (st : sched R) : sched R :=
  let '(i, act) := startTasks (length items) (nextIdx st) (inflight st) in
  {| results := results st; nextIdx := i; inflight := act;
     resolved := resolved st |}.

Definition initSched : sched R :=
  next {| results := replicate (length items) None; nextIdx := 0;
          inflight := []; resolved := false |}.

(** The value stored for a settled task: [then] stores the result,
    [catch] stores [null]. *)
Definition settled (idx : nat) : option (option R) :=
  match items !! idx with
  | None => None
  | Some x =>
      match worker x idx with
      | Ok res => Some res
      | Throw _ => Some None
      end
  end.

(** The task at position [p] of [inflight] settles: [then]/[catch]
    followed by [finally]. *)
Definition settle (st : sched R) (p : nat) : sched R :=
  match inflight st !! p with
  | None => st
  | Some idx =>
      let results' := <[idx := settled idx]> (results st) in
      let act := delete p (inflight st) in
      if (length items <=? nextIdx st)%nat && bool_decide (act = [])
      then {| results := results'; nextIdx := nextIdx st;
              inflight := act; resolved := true |}
      else next {| results := results'; nextIdx := nextIdx st;
                   inflight := act; resolved := resolved st |}
  end.

Fixpoint run (picks : list nat) (st : sched R) : sched R :=
  match picks with
  | [] => st
  | p :: picks' =>
      if resolved st then st
      else run picks' (settle st (p mod length (inflight st))%nat)
  end.

(** The array the promise resolves with under the schedule [picks];
    [None] when the promise is still pending at its end. *)
Definition mapLimit (picks : list nat)
  : option (list (option (option R))) :=
  let st := run picks initSched in
  if resolved st then Some (results st) else None.

End MapLimit.

(** *** Rank by gain *)

(** The items handed to [computeGainers]: objects with at least a
    [symbol] and a [firstTs]. *)
Variable Info : Type.
Variable symbol : Info → string.
Variable infoFirstTs : Info → option Z.

(** [{ ...info, basis, latest, pct }] *)
Record gain := {
  g_info : Info;
  g_basis : jsval;
  g_latest : jsval;
  pct : num
}.

(** [(a, b) => b.pct - a.pct] *)
Definition byPctDesc (a b : gain) : Z := sub_sign (pct b) (pct a).

(** [out.filter(Boolean)]: empty slots and [null]s go. *)
Definition filterBoolean {R} (out : list (option (option R))) : list R :=
  omap (λ slot, mjoin slot) out.

(** [limitTickers] with its default and clamp. *)
Definition clampLimitTickers (l : option Z) : Z :=
  let l0 := default 50 l in
  if l0 <=? 0 then 50 else l0.

(** [concurrency] with its default and clamps. *)
Definition clampConcurrency (c : option Z) : Z :=
  let c0 := default 3 c in
  let c1 := if c0 <=? 0 then 3 else c0 in
  if 10 <? c1 then 10 else c1.

(** The call the worker makes for one item; [fetch] is what
    [fetchBasisAndLatest] settles with for the given arguments during
    this batch. *)
Definition fetchFor
    (fetch : string → option Z → options → string → outcome basisLatest)
    (o : gainerOptions) (info : Info) : outcome basisLatest :=
  fetch (symbol info) (infoFirstTs info)
    {| anchor := Some (default "month" (g_anchor o));
       mode := Some (default "oc" (g_mode o)) |}
    (selectedMonth o).

(** The worker of the batch: the gain of one item, [null] when its
    resolution throws. *)
Definition gainWorker
    (fetch : string → option Z → options → string → outcome basisLatest)
    (o : gainerOptions) (info : Info) : option gain :=
  match fetchFor fetch o info with
  | Ok bl =>
      Some {| g_info := info; g_basis := basis bl; g_latest := latest bl;
              pct := pctOf (latest bl) (basis bl) |}
  | Throw _ => None
  end.

(** [items.slice(0, limitTickers)] *)
Definition subsetOf (items : list Info) (o : gainerOptions) : list Info :=
  take (Z.to_nat (clampLimitTickers (limitTickers o))) items.

(** [None] would be a promise that never settles. *)
Definition computeGainers
    (fetch : string → option Z → options → string → outcome basisLatest)
    (picks : list nat) (items : list Info) (o : gainerOptions)
  : option (list gain) :=
  match items with
  | [] => Some []
  | _ =>
      let subset := subsetOf items o in
      out ← mapLimit subset (clampConcurrency (concurrency o))
              (λ info _, Ok (gainWorker fetch o info)) picks;
      Some (js_sort byPctDesc (filterBoolean out))
  end.

(** Descending by [pct]: no later element has a greater [pct]. *)
Definition pctDescending (out : list gain) : Prop :=
  StronglySorted (λ a b, num_ltb (pct a) (pct b) = false) out.

(** *** Notions used to state the properties *)

(** The two parts of a month key: the year, and the dash with the
    padded month ([m] 0-based). *)
Definition yearPart (y : Z) : string := numToString (Some y).

Definition monthPart (m : Z) : string :=
  String.append "-" (padStart2 (numToString (Some (m + 1)))).

(** The month key of the UTC year [y] and 0-based month [m]. *)
Definition keyYM (y m : Z) : string :=
  String.append (yearPart y) (monthPart m).

(** [f] is strictly increasing, in code-unit order, from each of the
    [fuel] integers from [z] on to the next. *)
Definition stepsUp (f : Z → string) (fuel : nat) (z : Z) : bool :=
  all_from fuel z (λ i, bool_decide (String.compare (f i) (f (i + 1)) = Lt)).

(** [countMTD] of the aggregate under [k], 0 when there is none. *)
Definition countOf (m : JsMap.t agg) (k : string) : nat :=
  from_option countMTD 0%nat (JsMap.get k m).

(** The iteration order lists every stored key once. *)
Definition orderOk {V} (m : JsMap.t V) : Prop :=
  NoDup (JsMap.order m) ∧ ∀ k, k ∈ JsMap.order m ↔ is_Some (JsMap.get k m).

(** A record's first mention is not after its last one. *)
Definition firstLeLast (a : agg) : Prop :=
  ∃ f, firstTs a = Finite f ∧ f <= lastTs a.




(** Tasks of a [mapLimit] run settled so far. *)
Definition settledCount {R} (st : sched R) : nat :=
  (nextIdx st - length (inflight st))%nat.

(** What holds of every state of a [mapLimit] run: the in-flight tasks
    are distinct started tasks, at most [limit] of them; a slot holds the
    settled value of its task once the task was started and is no longer
    in flight, and is empty before; the promise is resolved only when all
    tasks were started and none is in flight, and until then some task is
    in flight. *)
Definition schedInv {A R} (items : list A) (limit : Z)
    (worker : A → nat → outcome (option R)) (st : sched R) : Prop :=
  length (results st) = length items
  ∧ (nextIdx st <= length items)%nat
  ∧ NoDup (inflight st)
  ∧ (∀ idx, idx ∈ inflight st → (idx < nextIdx st)%nat)
  ∧ Z.of_nat (length (inflight st)) <= limit
  ∧ (length (inflight st) <= nextIdx st)%nat
  ∧ (∀ idx, (idx < length items)%nat →
       results st !! idx =
       Some (if decide ((idx < nextIdx st)%nat ∧ idx ∉ inflight st)
             then settled items worker idx else None))
  ∧ (if resolved st then nextIdx st = length items ∧ inflight st = []
     else inflight st ≠ []).

(** [a] records, as the first mention of [k], the earliest of the entries
    of [l] filed under [k] - among equally early ones the first
    encountered: its timestamp, link and user. *)
Definition firstMentionOf (k : string) (l : list entry) (a : agg) : Prop :=
  ∃ l1 e l2 t,
    l = (l1 ++ e :: l2)%list ∧ keyOf e = Some k ∧ parseTimestamp e = Some t
    ∧ firstTs a = Finite t
    ∧ firstLink a = orEmpty (link e)
    ∧ firstUserId a = orEmpty (user e ≫= user_id)
    ∧ firstUserName a = orEmpty (user e ≫= user_name)
    ∧ (∀ e' t', e' ∈ l1 → keyOf e' = Some k → parseTimestamp e' = Some t' →
                t < t')
    ∧ (∀ e' t', e' ∈ l2 → keyOf e' = Some k → parseTimestamp e' = Some t' →
                t <= t').

(** [a] records, as the last mention of [k], the latest of the entries of
    [l] filed under [k] - among equally late ones the first encountered -
    unless none of them is dated after -1, in which case [lastTs] and
    [lastLink] keep their initial values. *)
Definition lastMentionOf (k : string) (l : list entry) (a : agg) : Prop :=
  (∀ e' t', e' ∈ l → keyOf e' = Some k → parseTimestamp e' = Some t' →
            t' <= lastTs a)
  ∧ ((lastTs a = -1 ∧ lastLink a = "")
     ∨ ∃ l1 e l2,
         l = (l1 ++ e :: l2)%list ∧ keyOf e = Some k
         ∧ parseTimestamp e = Some (lastTs a)
         ∧ lastLink a = orEmpty (link e)
         ∧ 0 <= lastTs a
         ∧ ∀ e' t', e' ∈ l1 → keyOf e' = Some k →
                    parseTimestamp e' = Some t' → t' < lastTs a).

(** [count] of the user [u], 0 when the user has no entry. *)
Definition userCountOf (counts : JsMap.t userCount) (u : string) : nat :=
  from_option uc_count 0%nat (JsMap.get u counts).

(** [name] of the user [u], empty when the user has no entry. *)
Definition userNameOf (counts : JsMap.t userCount) (u : string) : string :=
  from_option uc_name "" (JsMap.get u counts).

(** The first non-empty [firstUserName] among the aggregates [vs], empty
    when there is none. *)
Definition firstName (vs : list agg) : string :=
  default "" (head (filter (λ n, n ≠ "") (firstUserName <$> vs))).

(** [s.split(sep)] for a one-character separator. *)
Fixpoint split_aux (sep : ascii) (acc : string) (s : string) : list string :=
  match s with
  | EmptyString => [acc]
  | String c rest =>
      if Ascii.eqb c sep then acc :: split_aux sep "" rest
      else split_aux sep (String.append acc (String c "")) rest
  end.

Definition split_on (sep : ascii) (s : string) : list string :=
  split_aux sep "" s.

(** No character of [s] is [sep]. *)
Fixpoint freeOf (sep : ascii) (s : string) : bool :=
  match s with
  | EmptyString => true
  | String c rest => negb (Ascii.eqb c sep) && freeOf sep rest
  end.

(** Every character of [s] is a decimal digit. *)
Fixpoint allDigits (s : string) : bool :=
  match s with
  | EmptyString => true
  | String c rest => bool_decide (is_Some (Host.digit c)) && allDigits rest
  end.

(** The entries of [entries] dated, in UTC, in month [m] (0-based) of
    year [y]. *)
Definition datedIn (y m : Z) (e : entry) : Prop :=
  ∃ t, parseTimestamp e = Some t ∧ Z.abs t <= maxTime
       ∧ YearFromTime t = y ∧ MonthFromTime t = m.

(** *** UI builders and the per-message selection

    The discord.js builders are modelled by the data they are given:
    a row is the list of its components. *)

(** [x || d] for a string that may be missing: missing and empty are
    falsy. *)
Definition orStr (x : option string) (d : string) : string :=
  match x with
  | Some s => if decide (s = "") then d else s
  | None => d
  end.

(** Label and value of each metric. *)
Definition METRIC_CHOICES : list (string * string) :=
  [("Open→Close (Month)", "month_oc");
   ("Close→Close (Month)", "month_cc");
   ("Open→Close (Since Mention)", "mention_oc");
   ("Close→Close (Since Mention)", "mention_cc")].

Inductive buttonStyle :=
| Primary
| Secondary.

(** An option of a select menu; [default] may be left out. *)
Record menuOption := {
  opt_label : string;
  opt_value : string;
  opt_default : option bool
}.

Inductive component :=
| Button (customId : string) (style : buttonStyle) (label : string)
| SelectMenu (customId placeholder : string) (opts : list menuOption).

(** [m.split("-").reverse().join(".")] *)
Definition monthLabel (m : string) : string :=
  String.concat "." (reverse (split_dash m)).

(** [currentMetric] is [None] when the argument is left out. *)
Definition buildDashboardComponents (userOptions : list menuOption)
    (currentUserId : string) (currentMetric : option string)
    (availableMonths : list string) (selectedMonth : string)
  : list (list component) :=
  let currentMetric := default "month_oc" currentMetric in
  let row1 :=
    [Button "dash:hot5" Primary "Hot5";
     Button "dash:hot10" Primary "Hot10";
     Button "dash:hot20" Primary "Hot20";
     Button (String.append "dash:mine:" currentUserId) Secondary "Mine";
     Button "dash:all" Secondary "All"] in
  let components := [row1] in
  let components :=
    match userOptions with
    | [] => components
    | _ =>
        let menuUsers := SelectMenu "dash:user" "Users" (take 25 userOptions) in
        (components ++ [[menuUsers]])%list
    end in
  let menuMetric :=
    SelectMenu "dash:metric" "Metric"
      ((λ m, {| opt_label := m.1; opt_value := m.2;
                opt_default := Some (bool_decide (m.2 = currentMetric)) |})
         <$> METRIC_CHOICES) in
  let components := (components ++ [[menuMetric]])%list in
  let menuMonth :=
    SelectMenu "dash:month" "Select Month"
      ((λ m, {| opt_label := monthLabel m; opt_value := m;
                opt_default := Some (bool_decide (m = selectedMonth)) |})
         <$> availableMonths) in
  (components ++ [[menuMonth]])%list.

(** A value of [metricState]: either field may be absent. *)
Record selection := {
  sel_metric : option string;
  sel_month : option string
}.

(** The key [`${messageId}:${userId}`] *)
Definition stateKey (messageId userId : string) : string :=
  String.append messageId (String.append ":" userId).

Definition getSelectedMetricForMessage (metricState : gmap string selection)
    (messageId userId : string) : string :=
  orStr (metricState !! stateKey messageId userId ≫= sel_metric) "month_oc".

(** The key of the current month; [now1] and [now2] are the two clock
    reads, for the year and for the month. *)
Definition currentMonthKey (now1 now2 : Z) : string :=
  String.append (numToString (Some (YearFromTime now1)))
    (String.append "-"
       (padStart2 (numToString (Some (MonthFromTime now2 + 1))))).

(** The clock is read only when no month is stored. *)
Definition getSelectedMonthForMessage (metricState : gmap string selection)
    (messageId userId : string) (now1 now2 : Z) : string :=
  orStr (metricState !! stateKey messageId userId ≫= sel_month)
    (currentMonthKey now1 now2).

Definition metricToComputeOpts (metric : string) : options :=
  if decide (metric = "month_cc")
  then {| anchor := Some "month"; mode := Some "cc" |}
  else if decide (metric = "mention_oc")
  then {| anchor := Some "mention"; mode := Some "oc" |}
  else if decide (metric = "mention_cc")
  then {| anchor := Some "mention"; mode := Some "cc" |}
  else {| anchor := Some "month"; mode := Some "oc" |}.

(** The [dash:metric] branch of [handleDashboardInteraction]: the state
    after it.  [values] is [interaction.values], empty when missing. *)
Definition selectMetric (metricState : gmap string selection)
    (messageId userId : string) (values : list string)
  : gmap string selection :=
  let selected := orStr (head values) "month_oc" in
  let key := stateKey messageId userId in
  let old := metricState !! key in
  <[key := {| sel_metric := Some selected; sel_month := old ≫= sel_month |}]>
    metricState.

(** The [dash:month] branch. *)
Definition selectMonth (metricState : gmap string selection)
    (messageId userId : string) (values : list string) (now1 now2 : Z)
  : gmap string selection :=
  let selected :=
    orStr (head values)
      (getSelectedMonthForMessage metricState messageId userId now1 now2) in
  let key := stateKey messageId userId in
  let old := metricState !! key in
  <[key := {| sel_metric := old ≫= sel_metric; sel_month := Some selected |}]>
    metricState.

(** The state [showTickersDashboard] records for the message it sent. *)
Definition recordDashboard (metricState : gmap string selection)
    (sentId authorId currentMonth : string) : gmap string selection :=
  <[stateKey sentId authorId :=
      {| sel_metric := Some "month_oc"; sel_month := Some currentMonth |}]>
    metricState.

(** The [dash:mine:] branch: [cid.split(":")[2] || interaction.user.id] *)
Definition mineTarget (cid clickerId : string) : string :=
  orStr (split_on ":" cid !! 2%nat) clickerId.

(** *** The dashboard summary *)

(** [[...m.entries()]] *)
Definition entriesOf {V} (m : JsMap.t V) : list (string * V) :=
  omap (λ k, (λ v, (k, v)) <$> JsMap.get k m) (JsMap.order m).

(** [(a, b) => b[1].countMTD - a[1].countMTD || a[0].localeCompare(b[0])] *)
Definition byCountThenSymbol (a b : string * agg) : Z :=
  let d := Z.of_nat (countMTD b.2) - Z.of_nat (countMTD a.2) in
  if d =? 0 then localeCompare a.1 b.1 else d.

(** [mtdItems] once it has been sorted in place. *)
Definition mtdItems (r : monthAgg) : list (string * agg) :=
  js_sort byCountThenSymbol (entriesOf (byTicker r)).

Definition mtdUnique (r : monthAgg) : nat := length (entriesOf (byTicker r)).

Definition top10 (r : monthAgg) : list string := (take 10 (mtdItems r)).*1.

(** [new Set(entries.map((e) => (e.ticker || "").toUpperCase())
    .filter(Boolean)).size] *)
Definition allUnique (entries : list entry) : nat :=
  length
    (foldl (λ s x, Set_add x s) []
       (filter (λ s, s ≠ "")
          ((λ e, toUpperCase (orEmpty (ticker e))) <$> entries))).

Record quickInfo := {
  qi_symbol : string;
  qi_firstTs : extZ;
  qi_firstUserName : string;
  qi_firstLink : string
}.

Definition quickInfos (r : monthAgg) : list quickInfo :=
  (λ it, {| qi_symbol := it.1; qi_firstTs := firstTs it.2;
            qi_firstUserName := firstUserName it.2;
            qi_firstLink := firstLink it.2 |}) <$> mtdItems r.

(** [firstTs] as a time value; every aggregate of [byTicker] has a finite
    one. *)
Definition timeOf (f : extZ) : option Z :=
  match f with
  | Finite z => Some z
  | Infinity => None
  end.

(** The options of the preview of top gainers. *)
Definition previewOptions (currentMonth : string) : gainerOptions :=
  {| limitTickers := Some 25; concurrency := Some 3;
     g_anchor := Some "month"; g_mode := Some "oc";
     selectedMonth := currentMonth |}.

(** [(a, b) => b[1].count - a[1].count ||
    (a[1].name || "").localeCompare(b[1].name || "")] *)
Definition byCountThenName (a b : string * userCount) : Z :=
  let d := Z.of_nat (uc_count b.2) - Z.of_nat (uc_count a.2) in
  if d =? 0 then localeCompare (uc_name a.2) (uc_name b.2) else d.

(** The options of the users menu. *)
Definition userOptions (r : monthAgg) : list menuOption :=
  (λ it, {| opt_label :=
              String.append (orStr (Some (uc_name it.2)) "Unknown")
                (String.append " ("
                   (String.append
                      (numToString (Some (Z.of_nat (uc_count it.2)))) ")"));
            opt_value := it.1; opt_default := None |})
    <$> take 25 (js_sort byCountThenName (entriesOf (firstByUserCounts r))).

(** *** Paged replies *)

(** The line feed. *)
Definition nl : string := String (ascii_of_nat 10) EmptyString.

(** One iteration of the chunking loop on [(cur, chunks)]. *)
Definition pageStep (st : string * list string) (ln : string)
  : string * list string :=
  let '(cur, chunks) := st in
  let '(cur, chunks) :=
    if (1800 <? String.length cur + String.length ln + 1)%nat
    then ("", (chunks ++ [cur])%list) else (cur, chunks) in
  (String.append cur (String.append ln nl), chunks).

Definition pageChunks (lines : list string) : list string :=
  let '(cur, chunks) := foldl pageStep ("", []) lines in
  if decide (cur = "") then chunks else (chunks ++ [cur])%list.

Inductive reply :=
| DeferReply
| EditReply (content : string)
| FollowUp (content : string).

(** The calls [sendPaged] makes on the interaction; [acknowledged] is
    [interaction.deferred || interaction.replied].  A missing first chunk
    would print as [undefined]. *)
Definition sendPaged (acknowledged : bool) (title : string)
    (lines : list string) : list reply :=
  ((if acknowledged then [] else [DeferReply]) ++
   match lines with
   | [] => [EditReply "—"]
   | _ =>
       let chunks := pageChunks lines in
       EditReply
         (String.append "**"
            (String.append title
               (String.append "**"
                  (String.append nl (default "undefined" (head chunks))))))
       :: (FollowUp <$> drop 1 chunks)
   end)%list.

(** The text of a group of lines, each followed by a line feed. *)
Definition renderLines (g : list string) : string :=
  foldr (λ ln acc, String.append ln (String.append nl acc)) "" g.

(** What the chunking loop keeps: [cur] and [chunks] are the texts of
    groups of whole lines that together are the lines read so far; once a
    line was read the current group is not empty; only the first pushed
    group can be empty, and it is when the first line alone is over the
    limit. *)
Definition pagedInv (seen : list string) (st : string * list string)
    (gcur : list string) (gs : list (list string)) : Prop :=
  st.1 = renderLines gcur ∧ st.2 = renderLines <$> gs
  ∧ (concat gs ++ gcur)%list = seen
  ∧ (seen ≠ [] → gcur ≠ [])
  ∧ (gs ≠ [] → seen ≠ [])
  ∧ Forall (λ g, g ≠ []) (drop 1 gs)
  ∧ (head gs = Some [] →
     ∃ ln, head seen = Some ln ∧ (1800 <= String.length ln)%nat).



(** *** Alpha Vantage: last close

    The second module of the file.  [env] is
    [process.env.ALPHAVANTAGE_API_KEY]. *)

(** [Number] on the string of a price. *)
Variable Number_price : string → num.

(** [const KEY = process.env.ALPHAVANTAGE_API_KEY || "YOUR_API_KEY"] *)
Definition KEY (env : option string) : string := orStr env "YOUR_API_KEY".

(** The body of a response.  [d_series] maps the name of a series to the
    object under it, if there is one: its dates with the [4. close] of
    each, which may be missing. *)
Record avData := {
  d_note : option string;
  d_error : option string;
  d_series : string → option (gmap string (option string))
}.

(** What [fetch] and [res.json()] come back with. *)
Inductive avFetched :=
| AvRejected
| AvStatus
| AvBadBody
| AvData (d : avData).

Inductive avError :=
| MissingKey
| NetworkError
| HttpStatus
| BodyError
| RateLimit
| ApiError
| MissingSeries
| EmptySeries
| InvalidClose
| MissingATRSeries
| EmptyATRSeries
| InvalidATR.

Definition endpointOf (interval : string) : string :=
  if decide (interval = "weekly") then "TIME_SERIES_WEEKLY"
  else if decide (interval = "monthly") then "TIME_SERIES_MONTHLY"
  else "TIME_SERIES_DAILY".

Definition seriesKeyOf (endpoint : string) : string :=
  if decide (endpoint = "TIME_SERIES_WEEKLY") then "Weekly Time Series"
  else if decide (endpoint = "TIME_SERIES_MONTHLY") then "Monthly Time Series"
  else "Time Series (Daily)".

(** The comparison of [sort()] without a comparator, on strings: code-unit
    order. *)
Definition defaultCompare (a b : string) : Z :=
  match String.compare a b with
  | Lt => -1
  | Eq => 0
  | Gt => 1
  end.

(** A truthy string field. *)
Definition truthy (x : option string) : bool :=
  match x with
  | Some s => bool_decide (s ≠ "")
  | None => false
  end.

(** [Number.isFinite] *)
Definition Number_isFinite (x : num) : bool :=
  match x with
  | Fin _ => true
  | _ => false
  end.

(** [net endpoint symbol key] is what the request for that URL comes back
    with.  [interval] is [None] when the argument is left out. *)
Definition getLastClose (env : option string)
    (net : string → string → string → avFetched) (symbol : string)
    (interval : option string) : avError + num * string :=
  let interval := default "daily" interval in
  if decide (KEY env = "") then inl MissingKey else
  let endpoint := endpointOf interval in
  match net endpoint symbol (KEY env) with
  | AvRejected => inl NetworkError
  | AvStatus => inl HttpStatus
  | AvBadBody => inl BodyError
  | AvData data =>
      if truthy (d_note data) then inl RateLimit else
      if truthy (d_error data) then inl ApiError else
      match d_series data (seriesKeyOf endpoint) with
      | None => inl MissingSeries
      | Some series =>
          let keys := js_sort defaultCompare (map_to_list series).*1 in
          match last keys with
          | None => inl EmptySeries
          | Some lastTs =>
              let close :=
                match series !! lastTs with
                | Some (Some c) => Number_price c
                | _ => NaN
                end in
              if Number_isFinite close then inr (close, lastTs)
              else inl InvalidClose
          end
      end
  end.

(** *** Alpha Vantage: average true range *)

(** [Number(((atr / close) * 100).toFixed(2))] *)
Variable atrPctOf : num → num → num.

(** The body of an ATR response: the object under
    [Technical Analysis: ATR], if there is one, with the [ATR] of each
    date, and [Meta Data]. *)
Record atrData := {
  a_note : option string;
  a_error : option string;
  a_series : option (gmap string (option string));
  a_meta : option string
}.

Inductive atrFetched :=
| AtrRejected
| AtrStatus
| AtrBadBody
| AtrData (d : atrData).

Record atrResult := {
  atr_symbol : string;
  atr_interval : string;
  atr_timePeriod : Z;
  atr_timestamp : string;
  atr_value : num;
  atr_close : num;
  atr_pct : num;
  atr_meta : option string
}.

(** [netATR symbol interval timePeriod key] is what the ATR request comes
    back with; [timePeriod] and [interval] are [None] when left out. *)
Definition getATR (env : option string)
    (netATR : string → string → Z → string → atrFetched)
    (net : string → string → string → avFetched) (symbol : string)
    (timePeriod : option Z) (interval : option string)
  : avError + atrResult :=
  let timePeriod := default 14 timePeriod in
  let interval := default "daily" interval in
  if decide (KEY env = "") then inl MissingKey else
  match netATR symbol interval timePeriod (KEY env) with
  | AtrRejected => inl NetworkError
  | AtrStatus => inl HttpStatus
  | AtrBadBody => inl BodyError
  | AtrData data =>
      if truthy (a_note data) then inl RateLimit else
      if truthy (a_error data) then inl ApiError else
      match a_series data with
      | None => inl MissingATRSeries
      | Some series =>
          let keys := js_sort defaultCompare (map_to_list series).*1 in
          match last keys with
          | None => inl EmptyATRSeries
          | Some lastTs =>
              let atr :=
                match series !! lastTs with
                | Some (Some raw) => Number_price raw
                | _ => NaN
                end in
              if negb (Number_isFinite atr) then inl InvalidATR else
              match getLastClose env net symbol (Some interval) with
              | inl e => inl e
              | inr (close, _) =>
                  inr {| atr_symbol := symbol; atr_interval := interval;
                         atr_timePeriod := timePeriod; atr_timestamp := lastTs;
                         atr_value := atr; atr_close := close;
                         atr_pct := atrPctOf atr close;
                         atr_meta := a_meta data |}
              end
          end
      end
  end.

(** *** Sample responses *)

(** [Number] on a price written as an integer. *)
Definition integer_price (s : string) : num :=
  from_option (λ z, Fin (inject_Z z)) NaN (Host.decimal_Number s).

(** A daily series of two days. *)
Definition dailyData : avData :=
  {| d_note := None; d_error := None;
     d_series := λ name,
       if decide (name = "Time Series (Daily)")
       then Some {[ "2024-03-04" := Some "13"; "2024-03-05" := Some "14" ]}
       else None |}.

Definition priceProvider (endpoint sym key : string) : avFetched :=
  AvData dailyData.

(** A response over the rate limit. *)
Definition limitedProvider (endpoint sym key : string) : avFetched :=
  AvData {| d_note := Some "Thank you for using Alpha Vantage!";
            d_error := None; d_series := d_series dailyData |}.

Definition atrProvider (sym interval : string) (timePeriod : Z)
    (key : string) : atrFetched :=
  AtrData {| a_note := None; a_error := None;
             a_series := Some {[ "2024-03-05" := Some "2" ]};
             a_meta := None |}.

(** *** Short dates *)

(** [s.slice(-2)] *)
Definition slice_last2 (s : string) : string :=
  String.substring (String.length s - 2) 2 s.

(** [d.getUTCDate()] *)
Definition getUTCDate (d : option Z) : option Z :=
  (λ t, (civil_from_days (Day t)).2) <$> d.

(** [shortDate] of a time value. *)
Definition shortDate (ms : option Z) : string :=
  let d := newDate ms in
  let dd := padStart2 (numToString (getUTCDate d)) in
  let mm := padStart2 (numToString ((λ m, m + 1) <$> getUTCMonth d)) in
  let yy := slice_last2 (numToString (getUTCFullYear d)) in
  String.append dd
    (String.append "/" (String.append mm (String.append "/" yy))).

(** Two decimal digits for a number below 100. *)
Definition twoDigits (z : Z) : string := padStart2 (numToString (Some z)).

(** ** Properties *)

(** *** The UTC calendar *)

Lemma era_check_all :
  forallb (λ yoe, forallb (λ mp, era_check (Z.of_nat yoe) (Z.of_nat mp))
                    (seq 0 12)) (seq 0 400) = true.
Proof. vm_compute. reflexivity. Qed.

Lemma era_check_ok yoe mp :
  0 <= yoe < 400 → 0 <= mp < 12 → era_check yoe mp = true.
Proof.
  intros Hy Hm. pose proof era_check_all as Hall.
  rewrite forallb_forall in Hall.
  specialize (Hall (Z.to_nat yoe)). rewrite forallb_forall in Hall.
  rewrite <- (Z2Nat.id yoe), <- (Z2Nat.id mp) by lia.
  apply Hall; apply in_seq; lia.
Qed.

(** The first day of a month converts to a day number and back. *)
Lemma civil_from_days_from_civil Y M :
  1 <= M <= 12 → civil_from_days (days_from_civil Y M 1) = (Y, M, 1).
Proof.
  intros HM. unfold days_from_civil, civil_from_days. cbv zeta.
  set (y' := if M <=? 2 then Y - 1 else Y).
  set (mp := if 2 <? M then M - 3 else M + 9).
  set (era := y' / 400).
  set (yoe := y' - era * 400).
  set (doy := (153 * mp + 2) / 5).
  assert (0 <= yoe < 400) as Hyoe.
  { unfold yoe, era. pose proof (Z.mod_pos_bound y' 400 ltac:(lia)) as Hmod.
    rewrite Z.mod_eq in Hmod by lia. lia. }
  assert (0 <= mp < 12) as Hmp.
  { unfold mp. destruct (Z.ltb_spec 2 M); lia. }
  pose proof (era_check_ok yoe mp Hyoe Hmp) as Hchk. unfold era_check in Hchk.
  cbv zeta in Hchk. fold doy in Hchk.
  set (doe := yoe * 365 + yoe / 4 - yoe / 100 + doy) in *.
  apply andb_prop in Hchk as [Hchk Hmp'%Z.eqb_eq].
  apply andb_prop in Hchk as [Hchk Hyoe'%Z.eqb_eq].
  apply andb_prop in Hchk as [Hlo%Z.leb_le Hhi%Z.ltb_lt].
  replace (doy + 1 - 1) with doy by lia. fold doe.
  replace (era * 146097 + doe - 719468 + 719468) with (doe + era * 146097)
    by lia.
  rewrite Z.div_add by lia. rewrite (Z.div_small doe) by lia.
  replace (doe + era * 146097 - (0 + era) * 146097) with doe by lia.
  rewrite Hyoe'.
  replace (doe - (365 * yoe + yoe / 4 - yoe / 100)) with doy by (unfold doe; lia).
  rewrite Hmp'. fold doy.
  replace (doy - doy + 1) with 1 by lia.
  unfold mp, yoe, era, y'.
  destruct (Z.leb_spec M 2); destruct (Z.ltb_spec 2 M); try lia.
  - destruct (Z.ltb_spec (M + 9) 10); [lia|].
    replace (M + 9 - 9) with M by lia.
    destruct (Z.leb_spec M 2); [|lia]. f_equal. f_equal. lia.
  - destruct (Z.ltb_spec (M - 3) 10); [|lia].
    replace (M - 3 + 3) with M by lia.
    destruct (Z.leb_spec M 2); [lia|]. f_equal. f_equal. lia.
Qed.

(** For a year that [Date.UTC] does not read as 19xx and a month of the
    year, the month start is midnight of day 1 of that month. *)
Lemma startOfMonthUTC_calendar y m ms :
  y < 0 ∨ 99 < y → 1 <= m <= 12 →
  startOfMonthUTC (Some y) (Some m) = Some ms →
  ms = days_from_civil y m 1 * msPerDay
  ∧ Z.abs ms <= maxTime
  ∧ YearFromTime ms = y ∧ MonthFromTime ms = m - 1.
Proof.
  intros Hy Hm. unfold startOfMonthUTC, Date_UTC. simpl.
  replace ((0 <=? y) && (y <=? 99)) with false
    by (symmetry; apply andb_false_iff; lia).
  unfold MakeDay1.
  replace ((m - 1) / 12) with 0 by (symmetry; apply Z.div_small; lia).
  rewrite Z.mod_small by lia.
  replace (y + 0) with y by lia. replace (m - 1 + 1) with m by lia.
  unfold TimeClip.
  destruct (Z.leb_spec (Z.abs (days_from_civil y m 1 * msPerDay)) maxTime)
    as [Hclip|]; [|done].
  intros [= <-]. split_and!; [done..| |];
    unfold YearFromTime, MonthFromTime, Day;
    rewrite Z.div_mul by done; by rewrite civil_from_days_from_civil.
Qed.

(** [isInMonth] against such a month start is the comparison of the UTC
    year and month of the timestamp with the selected ones. *)
Lemma isInMonth_calendar y m ms t :
  y < 0 ∨ 99 < y → 1 <= m <= 12 →
  startOfMonthUTC (Some y) (Some m) = Some ms →
  Z.abs t <= maxTime →
  isInMonth (Some t) (Some ms) = true ↔
  YearFromTime t = y ∧ MonthFromTime t = m - 1.
Proof.
  intros Hy Hm Hms Ht.
  destruct (startOfMonthUTC_calendar y m ms Hy Hm Hms)
    as (_ & Hclip & Hyear & Hmonth).
  unfold isInMonth, newDate. simpl. unfold TimeClip.
  rewrite (proj2 (Z.leb_le _ _) Ht), (proj2 (Z.leb_le _ _) Hclip). simpl.
  rewrite Hyear, Hmonth, andb_true_iff, !Z.eqb_eq. done.
Qed.

Lemma all_from_spec fuel z f x :
  all_from fuel z f = true → z <= x < z + Z.of_nat fuel → f x = true.
Proof.
  revert z. induction fuel as [|fuel IH]; intros z Hall Hx; [lia|].
  simpl in Hall. apply andb_prop in Hall as [Hz Hrest].
  destruct (decide (x = z)) as [->|Hne]; [done|].
  apply (IH (z + 1)); [done|lia].
Qed.

Lemma day_of_year_range doe :
  0 <= doe < 146097 →
  let yoe := (doe - doe / 1460 + doe / 36524 - doe / 146096) / 365 in
  0 <= doe - (365 * yoe + yoe / 4 - yoe / 100) <= 365.
Proof. intros H. cbv zeta. clear -H. Z.div_mod_to_equations. lia. Qed.

Lemma civil_month_range d :
  1 <= (civil_from_days d).1.2 <= 12.
Proof.
  unfold civil_from_days. cbv zeta. simpl.
  set (z := d + 719468).
  set (doe := z - z / 146097 * 146097).
  assert (0 <= doe < 146097) as Hdoe.
  { unfold doe. pose proof (Z.mod_pos_bound z 146097 ltac:(lia)) as Hmod.
    rewrite Z.mod_eq in Hmod by lia. lia. }
  pose proof (day_of_year_range doe Hdoe) as Hdoy. cbv zeta in Hdoy.
  set (yoe := (doe - doe / 1460 + doe / 36524 - doe / 146096) / 365) in *.
  set (doy := doe - (365 * yoe + yoe / 4 - yoe / 100)) in *.
  assert (0 <= (5 * doy + 2) / 153 <= 11) as Hmp.
  { split; [apply Z.div_pos; lia|].
    apply Z.lt_succ_r, Z.div_lt_upper_bound; lia. }
  destruct (Z.ltb_spec ((5 * doy + 2) / 153) 10); lia.
Qed.

(** [getUTCMonth] is a month of the year. *)
Lemma MonthFromTime_range t : 0 <= MonthFromTime t <= 11.
Proof.
  unfold MonthFromTime. pose proof (civil_month_range (Day t)). lia.
Qed.

(** *** Code-unit order of strings *)

Lemma string_compare_trans a b c :
  String.compare a b ≠ Gt → String.compare b c ≠ Gt → String.compare a c ≠ Gt.
Proof.
  revert b c. induction a as [|x a IH]; intros [|y b] [|z c]; simpl; try done.
  unfold Ascii.compare.
  destruct (N.compare_spec (N_of_ascii x) (N_of_ascii y)) as [Hxy|Hxy|Hxy];
    [| |done];
    destruct (N.compare_spec (N_of_ascii y) (N_of_ascii z)) as [Hyz|Hyz|Hyz];
    try done.
  - rewrite (proj2 (N.compare_eq_iff _ _)) by congruence. apply IH.
  - rewrite (proj2 (N.compare_lt_iff _ _)) by lia. done.
  - rewrite (proj2 (N.compare_lt_iff _ _)) by lia. done.
  - rewrite (proj2 (N.compare_lt_iff _ _)) by lia. done.
Qed.

Lemma codeunit_compare_le a b :
  Host.codeunit_compare a b <= 0 ↔ String.compare a b ≠ Gt.
Proof. unfold Host.codeunit_compare. destruct (String.compare a b); split; (done || lia). Qed.

Lemma codeunit_compare_total a b :
  Host.codeunit_compare a b <= 0 ∨ Host.codeunit_compare b a <= 0.
Proof.
  rewrite !codeunit_compare_le, (String.compare_antisym b a).
  destruct (String.compare a b); simpl; [by left|by left|by right].
Qed.

Lemma codeunit_compare_trans a b c :
  Host.codeunit_compare a b <= 0 → Host.codeunit_compare b c <= 0 →
  Host.codeunit_compare a c <= 0.
Proof. rewrite !codeunit_compare_le. apply string_compare_trans. Qed.


Lemma string_compare_lt_trans a b c :
  String.compare a b = Lt → String.compare b c = Lt → String.compare a c = Lt.
Proof.
  intros Hab Hbc.
  assert (String.compare a c ≠ Gt) as Hle.
  { apply (string_compare_trans a b c); congruence. }
  destruct (String.compare a c) eqn:Hac; [|done|done].
  apply String.compare_eq_iff in Hac as ->.
  rewrite String.compare_antisym, Hbc in Hab. done.
Qed.

Lemma string_compare_refl s : String.compare s s = Eq.
Proof.
  induction s as [|c s IH]; simpl; [done|].
  unfold Ascii.compare. by rewrite N.compare_refl.
Qed.

Lemma string_compare_app_same a s t :
  String.compare (String.append a s) (String.append a t) = String.compare s t.
Proof.
  induction a as [|c a IH]; simpl; [done|].
  unfold Ascii.compare. by rewrite N.compare_refl.
Qed.

Lemma string_compare_app_differ a b s t :
  String.length a = String.length b → String.compare a b ≠ Eq →
  String.compare (String.append a s) (String.append b t) = String.compare a b.
Proof.
  revert b. induction a as [|x a IH]; intros [|y b]; simpl; try done.
  intros [= Hlen] Hne. destruct (Ascii.compare x y); [|done..].
  by apply IH.
Qed.

(** *** Month keys of four-digit years: key order is calendar order *)

Lemma stepsUp_increasing f fuel z i j :
  stepsUp f fuel z = true → z <= i → i < j → j <= z + Z.of_nat fuel →
  String.compare (f i) (f j) = Lt.
Proof.
  intros Hsteps Hi Hij Hj.
  assert (∀ n : nat, i + 1 + Z.of_nat n <= z + Z.of_nat fuel →
            String.compare (f i) (f (i + 1 + Z.of_nat n)) = Lt) as Hn.
  { induction n as [|n IH]; intros Hb.
    - replace (i + 1 + Z.of_nat 0) with (i + 1) by lia.
      eapply bool_decide_eq_true_1.
      apply (all_from_spec _ _ _ i Hsteps). lia.
    - apply (string_compare_lt_trans _ (f (i + 1 + Z.of_nat n))).
      + apply IH. lia.
      + replace (i + 1 + Z.of_nat (S n)) with (i + 1 + Z.of_nat n + 1) by lia.
        eapply bool_decide_eq_true_1.
        apply (all_from_spec _ _ _ (i + 1 + Z.of_nat n) Hsteps). lia. }
  replace j with (i + 1 + Z.of_nat (Z.to_nat (j - i - 1))) by lia.
  apply Hn. lia.
Qed.

Lemma yearPart_stepsUp : stepsUp yearPart (Z.to_nat 8999) 1000 = true.
Proof. vm_compute. reflexivity. Qed.

Lemma yearPart_length_all :
  all_from (Z.to_nat 9000) 1000
    (λ y, bool_decide (String.length (yearPart y) = 4%nat)) = true.
Proof. vm_compute. reflexivity. Qed.

Lemma monthPart_stepsUp : stepsUp monthPart (Z.to_nat 11) 0 = true.
Proof. vm_compute. reflexivity. Qed.

Lemma yearPart_length y : 1000 <= y <= 9999 → String.length (yearPart y) = 4%nat.
Proof.
  intros Hy. eapply bool_decide_eq_true_1.
  apply (all_from_spec _ _ _ y yearPart_length_all). lia.
Qed.

Lemma keyYM_order y1 m1 y2 m2 :
  1000 <= y1 <= 9999 → 1000 <= y2 <= 9999 → 0 <= m1 <= 11 → 0 <= m2 <= 11 →
  0 < Host.codeunit_compare (keyYM y1 m1) (keyYM y2 m2) ↔
  y2 < y1 ∨ (y1 = y2 ∧ m2 < m1).
Proof.
  intros Hy1 Hy2 Hm1 Hm2. unfold Host.codeunit_compare, keyYM.
  assert (∀ a b, 1000 <= a → a < b → b <= 9999 →
                 String.compare (yearPart a) (yearPart b) = Lt) as Hyear.
  { intros a b ? ? ?. apply (stepsUp_increasing _ _ _ a b yearPart_stepsUp); lia. }
  assert (∀ a b, 0 <= a → a < b → b <= 11 →
                 String.compare (monthPart a) (monthPart b) = Lt) as Hmonth.
  { intros a b ? ? ?. apply (stepsUp_increasing _ _ _ a b monthPart_stepsUp); lia. }
  destruct (Z.lt_total y1 y2) as [Hlt|[->|Hgt]].
  - rewrite string_compare_app_differ.
    + rewrite Hyear by lia. split; lia.
    + by rewrite !yearPart_length.
    + by rewrite Hyear by lia.
  - rewrite string_compare_app_same.
    destruct (Z.lt_total m1 m2) as [Hlt|[->|Hgt]].
    + rewrite Hmonth by lia. split; lia.
    + rewrite string_compare_refl. split; lia.
    + rewrite String.compare_antisym, Hmonth by lia. simpl. split; lia.
  - rewrite string_compare_app_differ.
    + rewrite String.compare_antisym, Hyear by lia. simpl. split; lia.
    + by rewrite !yearPart_length.
    + by rewrite String.compare_antisym, Hyear by lia.
Qed.

(** Under code-unit collation the keys of two entries dated in years 1000
    to 9999 compare as their UTC year and month do: the greater key is the
    later month, so a descending sequence of keys has the newest first. *)
Lemma monthKey_order_chronological (e1 e2 : entry) (t1 t2 : Z) :
  parseTimestamp e1 = Some t1 → parseTimestamp e2 = Some t2 →
  Z.abs t1 <= maxTime → Z.abs t2 <= maxTime →
  1000 <= YearFromTime t1 <= 9999 → 1000 <= YearFromTime t2 <= 9999 →
  0 < Host.codeunit_compare (monthKey e1) (monthKey e2) ↔
  YearFromTime t2 < YearFromTime t1
  ∨ (YearFromTime t1 = YearFromTime t2 ∧ MonthFromTime t2 < MonthFromTime t1).
Proof.
  intros Hp1 Hp2 Hc1 Hc2 Hy1 Hy2.
  assert (∀ e t, parseTimestamp e = Some t → Z.abs t <= maxTime →
                 monthKey e = keyYM (YearFromTime t) (MonthFromTime t)) as Hkey.
  { intros e t Hp Hc. unfold monthKey, newDate. rewrite Hp. simpl.
    unfold TimeClip. by rewrite (proj2 (Z.leb_le _ _) Hc). }
  rewrite (Hkey e1 t1), (Hkey e2 t2) by done.
  apply keyYM_order; auto using MonthFromTime_range.
Qed.

(** *** The stable sort *)

Lemma insert_by_Permutation {A} (cmp : A → A → Z) x l :
  insert_by cmp x l ≡ₚ x :: l.
Proof.
  induction l as [|y l IH]; simpl; [done|].
  destruct (cmp x y <=? 0); [done|].
  rewrite IH. apply Permutation_swap.
Qed.

Lemma js_sort_Permutation {A} (cmp : A → A → Z) l : js_sort cmp l ≡ₚ l.
Proof.
  induction l as [|x l IH]; simpl; [done|].
  rewrite insert_by_Permutation. by rewrite IH.
Qed.

Lemma js_sort_length {A} (cmp : A → A → Z) l :
  length (js_sort cmp l) = length l.
Proof. by rewrite js_sort_Permutation. Qed.

Section SortSorted.

Context {A : Type} (cmp : A → A → Z) (P : A → Prop).
(** The comparator is consistent on the elements satisfying [P]: a
    total preorder. *)
Hypothesis cmp_total : ∀ a b, P a → P b → cmp a b <= 0 ∨ cmp b a <= 0.
Hypothesis cmp_trans :
  ∀ a b c, P a → P b → P c → cmp a b <= 0 → cmp b c <= 0 → cmp a c <= 0.

Lemma insert_by_sorted x l :
  P x → Forall P l →
  StronglySorted (λ a b, cmp a b <= 0) l →
  StronglySorted (λ a b, cmp a b <= 0) (insert_by cmp x l).
Proof.
  intros Hx HP. induction 1 as [|y l Hl IH Hy]; simpl.
  - repeat constructor.
  - apply Forall_cons in HP as [HPy HPl].
    destruct (Z.leb_spec (cmp x y) 0) as [Hxy|Hxy].
    + constructor; [by constructor|].
      constructor; [done|].
      apply Forall_forall. intros z Hz.
      apply (cmp_trans x y z); try done.
      * by eapply Forall_forall in HPl.
      * by eapply Forall_forall in Hy.
    + constructor; [by apply IH|].
      rewrite insert_by_Permutation. constructor; [|done].
      destruct (cmp_total x y); [done..|lia|done].
Qed.

Lemma js_sort_sorted l :
  Forall P l → StronglySorted (λ a b, cmp a b <= 0) (js_sort cmp l).
Proof.
  induction l as [|x l IH]; simpl; [constructor|].
  intros [Hx Hl]%Forall_cons. apply insert_by_sorted; [done| |by apply IH].
  by rewrite js_sort_Permutation.
Qed.

End SortSorted.

(** *** Available months *)

Lemma Set_add_elem_of x s k : k ∈ Set_add x s ↔ k = x ∨ k ∈ s.
Proof.
  unfold Set_add. destruct (decide (x ∈ s)) as [Hx|Hx].
  - split; [by right|]. by intros [->|?].
  - rewrite elem_of_app, list_elem_of_singleton.
    split; intros [?|?]; auto.
Qed.

Lemma Set_add_NoDup x s : NoDup s → NoDup (Set_add x s).
Proof.
  unfold Set_add. intros Hs. destruct (decide (x ∈ s)); [done|].
  apply NoDup_app. split_and!; [done| |apply NoDup_singleton].
  intros y Hy ->%list_elem_of_singleton. done.
Qed.

Lemma months_elem_of (entries : list entry) (acc : list string) k :
  k ∈ foldl (λ months e, Set_add (monthKey e) months) acc entries ↔
  k ∈ acc ∨ ∃ e, e ∈ entries ∧ monthKey e = k.
Proof.
  revert acc. induction entries as [|e entries IH]; intros acc; simpl.
  - split; [by left|]. intros [?|(e & He & _)]; [done|]. by apply elem_of_nil in He.
  - rewrite IH, Set_add_elem_of. split.
    + intros [[->|?]|(e' & ? & ?)]; [right|by left|right].
      * exists e. split; [left|done].
      * exists e'. split; [by right|done].
    + intros [?|(e' & He' & Hk)]; [by left; right|].
      apply elem_of_cons in He' as [->|He'].
      * left; left. done.
      * right. eauto.
Qed.


Lemma getAvailableMonths_elem_of entries k :
  k ∈ getAvailableMonths entries ↔ ∃ e, e ∈ entries ∧ monthKey e = k.
Proof.
  unfold getAvailableMonths. rewrite js_sort_Permutation, months_elem_of.
  split; [|by right]. intros [H|H]; [|done]. by apply elem_of_nil in H.
Qed.



Section AvailableMonthsOrder.

(** [localeCompare] orders strings: total, transitive and
    antisymmetric. *)
Hypothesis localeCompare_total :
  ∀ a b, localeCompare a b <= 0 ∨ localeCompare b a <= 0.
Hypothesis localeCompare_trans :
  ∀ a b c, localeCompare a b <= 0 → localeCompare b c <= 0 →
           localeCompare a c <= 0.
Hypothesis localeCompare_antisym :
  ∀ a b, localeCompare a b <= 0 → localeCompare b a <= 0 → a = b.


End AvailableMonthsOrder.

(** *** Month aggregation *)

Lemma JsMap_get_set {V} k k' (v : V) m :
  JsMap.get k' (JsMap.set k v m) =
  if decide (k = k') then Some v else JsMap.get k' m.
Proof. unfold JsMap.get, JsMap.set. simpl. apply lookup_insert. Qed.

Lemma addMention_get m e k :
  JsMap.get k (addMention m e) =
  if decide (keyOf e = Some k)
  then Some (recordMention (default freshAgg (JsMap.get k m)) e)
  else JsMap.get k m.
Proof.
  unfold addMention. destruct (keyOf e) as [sym|].
  - rewrite JsMap_get_set. destruct (decide (sym = k)) as [->|Hne].
    + by rewrite decide_True.
    + rewrite decide_False; [done|congruence].
  - by rewrite decide_False.
Qed.

Lemma recordMention_count cur e :
  countMTD (recordMention cur e) = S (countMTD cur).
Proof.
  unfold recordMention. simpl.
  destruct (ltFirst _ _); simpl; destruct (gtLast _ _); reflexivity.
Qed.

Lemma foldl_addMention_count l m k :
  countOf (foldl addMention m l) k =
  (countOf m k + length (filter (λ e, keyOf e = Some k) l))%nat.
Proof.
  revert m. induction l as [|e l IH]; intros m.
  - simpl. lia.
  - rewrite filter_cons. cbn [foldl]. rewrite IH. unfold countOf.
    rewrite addMention_get.
    destruct (decide (keyOf e = Some k)); simpl; [|done].
    rewrite recordMention_count. destruct (JsMap.get k m); simpl; lia.
Qed.

Lemma foldl_addMention_is_Some l m k :
  is_Some (JsMap.get k (foldl addMention m l)) ↔
  is_Some (JsMap.get k m) ∨ ∃ e, e ∈ l ∧ keyOf e = Some k.
Proof.
  revert m. induction l as [|e l IH]; intros m; simpl.
  - split; [by left|]. intros [?|(e & He & _)]; [done|].
    by apply elem_of_nil in He.
  - rewrite IH, addMention_get. split.
    + intros [Hs|(e' & He' & Hk)].
      * destruct (decide (keyOf e = Some k)); [|by left].
        right. exists e. split; [left|done].
      * right. exists e'. split; [by right|done].
    + intros [Hs|(e' & He' & Hk)].
      * left. destruct (decide (keyOf e = Some k)); [by eexists|done].
      * apply elem_of_cons in He' as [->|He'].
        -- left. rewrite decide_True; [by eexists|done].
        -- right. eauto.
Qed.

Lemma orderOk_empty {V} : orderOk (@JsMap.empty V).
Proof.
  split; [apply NoDup_nil_2|]. intros k. unfold JsMap.get. simpl.
  rewrite lookup_empty. split; [by intros ?%elem_of_nil|by intros [? ?]].
Qed.

Lemma orderOk_set {V} k (v : V) m : orderOk m → orderOk (JsMap.set k v m).
Proof.
  intros [Hnd Hdom]. split.
  - unfold JsMap.set. simpl. destruct (decide (k ∈ JsMap.order m)); [done|].
    apply NoDup_app. split_and!; [done| |apply NoDup_singleton].
    by intros y Hy ->%list_elem_of_singleton.
  - intros k'. rewrite JsMap_get_set.
    assert (k' ∈ JsMap.order (JsMap.set k v m) ↔ k' = k ∨ k' ∈ JsMap.order m)
      as ->.
    { unfold JsMap.set. simpl. destruct (decide (k ∈ JsMap.order m)).
      - split; [by right|]. by intros [->|?].
      - rewrite elem_of_app, list_elem_of_singleton.
        split; intros [?|?]; auto. }
    rewrite Hdom. destruct (decide (k = k')) as [->|Hne].
    + split; [by eexists|by left].
    + split; [|by right]. by intros [->|?].
Qed.

Lemma foldl_addMention_orderOk l m :
  orderOk m → orderOk (foldl addMention m l).
Proof.
  revert m. induction l as [|e l IH]; intros m Hm; simpl; [done|].
  apply IH. unfold addMention. destruct (keyOf e); [|done].
  by apply orderOk_set.
Qed.

Lemma recordMention_firstLeLast cur e t :
  parseTimestamp e = Some t →
  cur = freshAgg ∨ firstLeLast cur →
  firstLeLast (recordMention cur e).
Proof.
  intros Hts Hcur. unfold recordMention, firstLeLast. rewrite Hts.
  destruct Hcur as [->|(f & Hf & Hle)]; simpl.
  - destruct (Z.ltb_spec (-1) t); simpl; eexists; split; try done; lia.
  - rewrite Hf. simpl.
    destruct (Z.ltb_spec t f); simpl;
      destruct (Z.ltb_spec (lastTs cur) t); simpl;
      eexists; (split; [done || exact Hf|]); lia.
Qed.

Lemma foldl_addMention_firstLeLast l m :
  (∀ e, e ∈ l → is_Some (parseTimestamp e)) →
  (∀ k a, JsMap.get k m = Some a → firstLeLast a) →
  ∀ k a, JsMap.get k (foldl addMention m l) = Some a → firstLeLast a.
Proof.
  revert m. induction l as [|e l IH]; intros m Hl Hm; simpl; [done|].
  apply IH.
  - intros e' He'. apply Hl. by right.
  - intros k a. rewrite addMention_get.
    destruct (decide (keyOf e = Some k)); [|by apply Hm].
    intros [= <-]. destruct (Hl e) as [t Ht]; [left|].
    eapply recordMention_firstLeLast; [done|].
    destruct (JsMap.get k m) as [a'|] eqn:Hk; simpl; [right|by left].
    by eapply Hm.
Qed.

Lemma isInMonth_valid ts monthStartMs :
  isInMonth ts monthStartMs = true → is_Some ts.
Proof. destruct ts; [by eexists|done]. Qed.

Lemma monthEntries_elem_of entries selectedMonth e :
  e ∈ monthEntries entries selectedMonth ↔
  isInMonth (parseTimestamp e) (monthStartOf selectedMonth) = true
  ∧ e ∈ entries.
Proof. unfold monthEntries. by rewrite list_elem_of_filter. Qed.

Lemma keyOf_Some e k :
  keyOf e = Some k ↔ k ≠ "" ∧ ∃ t, ticker e = Some t ∧ k = toUpperCase t.
Proof.
  unfold keyOf, symOf. destruct (ticker e) as [t|]; simpl.
  - destruct (decide (toUpperCase t = "")) as [He|He].
    + split; [done|]. intros (Hk & t' & [= <-] & ->). done.
    + split.
      * intros [= <-]. eauto.
      * intros (_ & t' & [= <-] & ->). done.
  - split; [done|]. by intros (_ & t & ? & _).
Qed.

Lemma omap_length_all {A B} (f : A → option B) (l : list A) :
  (∀ x, x ∈ l → is_Some (f x)) → length (omap f l) = length l.
Proof.
  induction l as [|x l IH]; intros Hl; simpl; [done|].
  destruct (Hl x) as [y Hy]; [left|]. rewrite Hy. simpl. f_equal.
  apply IH. intros x' Hx'. apply Hl. by right.
Qed.

Lemma byTicker_count entries selectedMonth k :
  k ≠ "" →
  countOf (byTicker (buildMonthAgg entries selectedMonth)) k =
  length (filter (λ r, symOf r = Some k) (monthEntries entries selectedMonth)).
Proof.
  intros Hk. unfold buildMonthAgg. simpl.
  rewrite foldl_addMention_count. unfold countOf, JsMap.get. simpl.
  rewrite lookup_empty. simpl. f_equal. apply list_filter_iff.
  intros r. unfold keyOf. destruct (symOf r) as [sym|]; simpl; [|done].
  destruct (decide (sym = "")) as [->|?]; [|done].
  split; [done|]. by intros [= <-].
Qed.

Lemma byTicker_is_Some entries selectedMonth k :
  is_Some (JsMap.get k (byTicker (buildMonthAgg entries selectedMonth))) ↔
  ∃ e, e ∈ monthEntries entries selectedMonth ∧ keyOf e = Some k.
Proof.
  unfold buildMonthAgg. simpl. rewrite foldl_addMention_is_Some.
  unfold JsMap.get at 1. simpl. rewrite lookup_empty.
  split; [|by right]. intros [[? ?]|?]; done.
Qed.


(** C3, as the code has it: the key of a record is its ticker uppercased
    (nothing is trimmed), records whose ticker is missing or empty leave
    no key, and the records of a month whose tickers have the same
    uppercase form share the one aggregate under that form, which counts
    them all. *)
Theorem buildMonthAgg_keys_uppercased (entries : list entry)
    (selectedMonth : string) :
  let mtd := monthEntries entries selectedMonth in
  let bt := byTicker (buildMonthAgg entries selectedMonth) in
  (∀ k, is_Some (JsMap.get k bt) ↔
        k ≠ "" ∧ ∃ e t, e ∈ mtd ∧ ticker e = Some t ∧ k = toUpperCase t)
  ∧ (∀ e1 e2 t1 t2,
       e1 ∈ mtd → e2 ∈ mtd → ticker e1 = Some t1 → ticker e2 = Some t2 →
       toUpperCase t1 ≠ "" → toUpperCase t1 = toUpperCase t2 →
       ∃ a, JsMap.get (toUpperCase t1) bt = Some a
            ∧ JsMap.get (toUpperCase t2) bt = Some a
            ∧ countMTD a =
              length (filter (λ r, symOf r = Some (toUpperCase t1)) mtd)).
Proof.
  intros mtd bt. split.
  - intros k. unfold bt. rewrite byTicker_is_Some. split.
    + intros (e & He & Hk). apply keyOf_Some in Hk as (Hne & t & Ht & ->).
      split; [done|]. by exists e, t.
    + intros (Hne & e & t & He & Ht & ->). exists e. split; [done|].
      apply keyOf_Some. eauto.
  - intros e1 e2 t1 t2 He1 _ Ht1 _ Hne Heq.
    destruct (proj2 (byTicker_is_Some entries selectedMonth (toUpperCase t1)))
      as [a Ha].
    { exists e1. split; [done|]. apply keyOf_Some. eauto. }
    exists a. rewrite <- Heq. split_and!; [done..|].
    pose proof (byTicker_count entries selectedMonth _ Hne) as Hc.
    unfold countOf in Hc. by rewrite Ha in Hc.
Qed.

(** C7: every aggregate of the month has [firstTs <= lastTs], and there
    is exactly one aggregate per distinct uppercased ticker of the month:
    the map's keys are listed without repetition, each listed key holds
    an aggregate, and the keys are exactly the non-empty uppercased
    tickers of the month's entries. *)
Theorem buildMonthAgg_invariant (entries : list entry) (selectedMonth : string) :
  let bt := byTicker (buildMonthAgg entries selectedMonth) in
  (∀ k a, JsMap.get k bt = Some a → ∃ f, firstTs a = Finite f ∧ f <= lastTs a)
  ∧ NoDup (JsMap.order bt)
  ∧ (∀ k, k ∈ JsMap.order bt ↔ is_Some (JsMap.get k bt))
  ∧ (∀ k, is_Some (JsMap.get k bt) ↔
          ∃ e, e ∈ monthEntries entries selectedMonth ∧ keyOf e = Some k)
  ∧ length (JsMap.values bt) = length (JsMap.order bt).
Proof.
  intros bt.
  assert (orderOk bt) as [Hnd Hdom].
  { apply foldl_addMention_orderOk, orderOk_empty. }
  split_and!; [|done|done|apply byTicker_is_Some|].
  - apply foldl_addMention_firstLeLast.
    + intros e [Hin _]%monthEntries_elem_of. by eapply isInMonth_valid.
    + intros k a. unfold JsMap.get. simpl. by rewrite lookup_empty.
  - unfold JsMap.values. apply omap_length_all.
    intros k Hk. by apply Hdom.
Qed.

Lemma isInMonth_NaN monthStartMs : isInMonth None monthStartMs = false.
Proof. reflexivity. Qed.

(** C10: an entry whose timestamp does not parse is not skipped by
    [getAvailableMonths]: its key is the literal [NaN-NaN], which is in
    the returned sequence; the month filter of the aggregation rejects
    that entry for every month. *)
Theorem getAvailableMonths_keeps_unparsable (entries : list entry) (e : entry) :
  e ∈ entries → parseTimestamp e = None →
  "NaN-NaN" ∈ getAvailableMonths entries
  ∧ ∀ selectedMonth, e ∉ monthEntries entries selectedMonth.
Proof.
  intros He Hts. split.
  - apply getAvailableMonths_elem_of. exists e. split; [done|].
    unfold monthKey. by rewrite Hts.
  - intros selectedMonth. unfold monthEntries.
    rewrite list_elem_of_filter, Hts, isInMonth_NaN. by intros [? _].
Qed.

(** *** Price series cache *)

(** C6, as the code has it: for a [fromTsMs] that is a non-zero number
    the elapsed days are [max(1, floor((now - fromTsMs) / 1 day))]; a
    [fromTsMs] of 0, NaN or nothing is replaced by a second clock read, so
    the elapsed days are 1; the range is [1mo] up to 30 days, [3mo] up to
    62, [1y] up to 370 and [5y] beyond. *)
Theorem elapsedDays_range (now now' : Z) (fromTsMs : option Z) :
  let days := elapsedDays now now' fromTsMs in
  (∀ t, fromTsMs = Some t → t ≠ 0 → days = Z.max 1 ((now - t) / 86400000))
  ∧ (fromTsMs = None ∨ fromTsMs = Some 0 → now <= now' → days = 1)
  ∧ (days <= 30 → rangeOf days = "1mo")
  ∧ (30 < days <= 62 → rangeOf days = "3mo")
  ∧ (62 < days <= 370 → rangeOf days = "1y")
  ∧ (370 < days → rangeOf days = "5y").
Proof.
  intros days. split_and!.
  - intros t -> Ht. unfold days, elapsedDays.
    destruct (Z.eqb_spec t 0); [done|reflexivity].
  - intros Hfrom Hle. unfold days, elapsedDays.
    assert ((now - now') / 86400000 <= 0).
    { apply Z.div_le_upper_bound; lia. }
    destruct Hfrom as [-> | ->]; simpl; lia.
  - intros H. unfold rangeOf. by rewrite (proj2 (Z.leb_le _ _) H).
  - intros [H1 H2]. unfold rangeOf.
    rewrite (proj2 (Z.leb_gt _ _) H1). by rewrite (proj2 (Z.leb_le _ _) H2).
  - intros [H1 H2]. unfold rangeOf.
    rewrite (proj2 (Z.leb_gt _ _)) by lia.
    rewrite (proj2 (Z.leb_gt _ _) H1). by rewrite (proj2 (Z.leb_le _ _) H2).
  - intros H. unfold rangeOf.
    rewrite !(proj2 (Z.leb_gt _ _)) by lia. done.
Qed.

Lemma getYahooChart_hit net now now' cache sym from ch :
  cache !! cacheKeyOf sym (rangeOf (elapsedDays now now' from)) = Some ch →
  getYahooChart net now now' cache sym from = (Ok ch, cache).
Proof. intros H. unfold getYahooChart. by rewrite H. Qed.

(** The key a call looks up in the cache. *)
Lemma fetchBasisAndLatest_hit net now now' cache sym mentionTs opts month ch :
  cache !! cacheKeyOf sym
    (rangeOf (elapsedDays now now' (fetchFrom mentionTs opts month)))
    = Some ch →
  fetchBasisAndLatest net now now' cache sym mentionTs opts month
  = (resolveOn ch mentionTs opts month, cache).
Proof.
  intros H. unfold fetchBasisAndLatest.
  by rewrite (getYahooChart_hit _ _ _ _ _ _ _ H).
Qed.

(** C8: once a call of [fetchBasisAndLatest] has left a series in the
    cache under its key, a second call with the same arguments whose clock
    reads select the same range returns the same outcome (the same
    [{basis, latest}], or the same failure) and leaves the cache as it
    is, whatever the network would answer. *)
Theorem fetchBasisAndLatest_idempotent
    (net1 net2 : string → string → fetched) (now1 now1' now2 now2' : Z)
    (cache cache1 : gmap string chart) (sym : string) (mentionTs : option Z)
    (opts : options) (month : string) (r : outcome basisLatest) :
  let from := fetchFrom mentionTs opts month in
  let range := rangeOf (elapsedDays now1 now1' from) in
  fetchBasisAndLatest net1 now1 now1' cache sym mentionTs opts month
    = (r, cache1) →
  is_Some (cache1 !! cacheKeyOf sym range) →
  rangeOf (elapsedDays now2 now2' from) = range →
  fetchBasisAndLatest net2 now2 now2' cache1 sym mentionTs opts month
    = (r, cache1).
Proof.
  intros from range Hfirst Hcached Hrange.
  assert (∃ ch, cache1 !! cacheKeyOf sym range = Some ch
                ∧ r = resolveOn ch mentionTs opts month) as (ch & Hch & ->).
  { revert Hfirst. unfold fetchBasisAndLatest, getYahooChart.
    fold from. fold range.
    destruct (cache !! cacheKeyOf sym range) as [ch|] eqn:Hc.
    - intros [= <- <-]. eauto.
    - destruct (net1 sym range) as [| |res].
      + intros [= <- <-]. rewrite Hc in Hcached. by destruct Hcached.
      + intros [= <- <-]. rewrite Hc in Hcached. by destruct Hcached.
      + intros [= <- <-]. eexists. split; [apply lookup_insert_eq|done]. }
  apply fetchBasisAndLatest_hit. fold from. by rewrite Hrange.
Qed.

(** *** Basis and latest *)








(** What a successful resolution went through. *)
Lemma resolveOn_Ok ch mentionTs opts month bl :
  resolveOn ch mentionTs opts month = Ok bl →
  ∃ idx,
    pickStartIndex ch (default "mention" (anchor opts)) mentionTs month
      = Ok idx
    ∧ (gt0 (startPrice (opens ch) idx) = true
       ∨ gt0 (startPrice (closes ch) idx) = true)
    ∧ (gt0 (lastPrice ch) = true ∨ gt0 (lastClose ch) = true)
    ∧ basis bl =
        (if decide (default "oc" (mode opts) = "cc")
         then coalesce (startPrice (closes ch) idx) (startPrice (opens ch) idx)
         else coalesce (startPrice (opens ch) idx) (startPrice (closes ch) idx))
    ∧ latest bl =
        (if decide (default "oc" (mode opts) = "cc")
         then coalesce (lastClose ch) (lastPrice ch)
         else coalesce (lastPrice ch) (lastClose ch)).
Proof.
  unfold resolveOn.
  destruct (pickStartIndex _ _ _ _) as [idx|]; [|done].
  destruct (gt0 (startPrice (opens ch) idx)) eqn:Ho;
    destruct (gt0 (startPrice (closes ch) idx)) eqn:Hc; simpl; try done;
    destruct (gt0 (lastPrice ch)) eqn:Hp;
    destruct (gt0 (lastClose ch)) eqn:Hl; simpl; try done;
    intros [= <-]; exists idx; simpl; auto 10.
Qed.




(** The failure condition of the resolver, once the start index is
    there: it throws exactly when neither start price or neither latest
    price is positive. *)
Lemma resolveOn_Throw_iff ch mentionTs opts month idx :
  pickStartIndex ch (default "mention" (anchor opts)) mentionTs month
    = Ok idx →
  (∃ e, resolveOn ch mentionTs opts month = Throw e) ↔
  (gt0 (startPrice (opens ch) idx) = false
   ∧ gt0 (startPrice (closes ch) idx) = false)
  ∨ (gt0 (lastPrice ch) = false ∧ gt0 (lastClose ch) = false).
Proof.
  intros Hidx. unfold resolveOn. rewrite Hidx.
  destruct (gt0 (startPrice (opens ch) idx));
    destruct (gt0 (startPrice (closes ch) idx)); simpl;
    destruct (gt0 (lastPrice ch)); destruct (gt0 (lastClose ch)); simpl;
    split; try (intros [e He]; discriminate); try (intros [[? ?]|[? ?]]; discriminate);
    eauto.
Qed.

(** *** The scheduler of [mapLimit] *)

Section MapLimitFacts.

Context {A R : Type} (items : list A) (limit : Z).
Context (worker : A → nat → outcome (option R)).
Hypothesis limit_pos : 0 < limit.

Local Open Scope list_scope.

Lemma startTasks_spec fuel i act :
  (i <= length items)%nat →
  ∃ k, startTasks items limit fuel i act = ((i + k)%nat, (act ++ seq i k)%list)
       ∧ (i + k <= length items)%nat
       ∧ (Z.of_nat (length act) <= limit →
          Z.of_nat (length act + k) <= limit)
       ∧ ((length items - i <= fuel)%nat →
          (i + k)%nat = length items ∨ limit <= Z.of_nat (length act + k)).
Proof.
  revert i act. induction fuel as [|fuel IH]; intros i act Hi; simpl.
  - exists 0%nat. rewrite Nat.add_0_r, app_nil_r.
    split_and!; [done|lia|by rewrite Nat.add_0_r|lia].
  - destruct (Z.ltb_spec (Z.of_nat (length act)) limit) as [Hlt|Hge]; simpl.
    + destruct (Nat.ltb_spec i (length items)) as [Hin|Hout].
      * destruct (IH (S i) (act ++ [i])) as (k & Hk & Hle & Hlim & Hprog);
          [lia|].
        exists (S k). rewrite Hk. simpl. rewrite <- app_assoc. simpl.
        rewrite length_app in Hlim, Hprog. simpl in Hlim, Hprog.
        split_and!; [f_equal; lia|lia|lia|lia].
      * exists 0%nat. rewrite Nat.add_0_r, app_nil_r.
        split_and!; [done|lia|by rewrite Nat.add_0_r|lia].
    + exists 0%nat. rewrite Nat.add_0_r, app_nil_r.
      split_and!; [done|lia|by rewrite Nat.add_0_r|lia].
Qed.

(** [next] keeps the invariant, provided something is left to do. *)
Lemma next_inv res i act :
  length res = length items →
  (i <= length items)%nat →
  NoDup act →
  (∀ idx, idx ∈ act → (idx < i)%nat) →
  Z.of_nat (length act) <= limit →
  (length act <= i)%nat →
  (∀ idx, (idx < length items)%nat →
     res !! idx =
     Some (if decide ((idx < i)%nat ∧ idx ∉ act)
           then settled items worker idx else None)) →
  (i < length items)%nat ∨ act ≠ [] →
  let st' := next items limit
               {| results := res; nextIdx := i; inflight := act;
                  resolved := false |} in
  schedInv items limit worker st'
  ∧ resolved st' = false
  ∧ settledCount st' = (i - length act)%nat.
Proof.
  intros Hlen Hi Hnd Hlt Hlim Hcnt Hres Htodo. unfold next. simpl.
  destruct (startTasks_spec (length items) i act Hi)
    as (k & -> & Hle & Hlim' & Hprog).
  assert (∀ idx, idx ∈ (act ++ seq i k)%list ↔
                 idx ∈ act ∨ (i <= idx < i + k)%nat) as Hmem.
  { intros idx. rewrite elem_of_app, elem_of_seq. done. }
  split_and!; [split_and!|done|]; simpl.
  - done.
  - done.
  - apply NoDup_app. split_and!; [done| |apply NoDup_seq].
    intros idx Hidx [? ?]%elem_of_seq. apply Hlt in Hidx. lia.
  - intros idx [Hidx|?]%Hmem; [apply Hlt in Hidx|]; lia.
  - rewrite length_app, length_seq. auto.
  - rewrite length_app, length_seq. lia.
  - intros idx Hidx. rewrite (Hres idx Hidx). f_equal.
    destruct (decide ((idx < i)%nat ∧ idx ∉ act)) as [[H1 H2]|Hn].
    + rewrite decide_True; [done|]. split; [lia|].
      intros [?|?]%Hmem; [done|lia].
    + rewrite decide_False; [done|]. intros [H1 H2]. apply Hn.
      assert (idx ∉ act) by (intros ?; apply H2, Hmem; by left).
      split; [|done].
      destruct (decide (idx < i)%nat); [done|].
      exfalso. apply H2, Hmem. right. lia.
  - intros Hnil. apply app_eq_nil in Hnil as [-> Hseq].
    assert (k = 0%nat) as -> by (by destruct k).
    destruct Htodo as [?|?]; [|done]. simpl in Hprog. lia.
  - unfold settledCount. simpl. rewrite length_app, length_seq. lia.
Qed.

Lemma initSched_inv :
  items ≠ [] →
  schedInv items limit worker (@initSched A R items limit)
  ∧ resolved (@initSched A R items limit) = false
  ∧ settledCount (@initSched A R items limit) = 0%nat.
Proof.
  intros Hne. unfold initSched.
  apply (next_inv (replicate (length items) None) 0 []).
  - apply length_replicate.
  - lia.
  - apply NoDup_nil_2.
  - by intros idx ?%elem_of_nil.
  - simpl. lia.
  - simpl. lia.
  - intros idx Hidx. rewrite lookup_replicate_2 by done.
    rewrite decide_False; [done|]. lia.
  - left. destruct items; [done|simpl; lia].
Qed.

(** One task settles: the invariant is kept and one more task is
    settled. *)
Lemma settle_inv st p :
  schedInv items limit worker st → resolved st = false →
  (p < length (inflight st))%nat →
  schedInv items limit worker (settle items limit worker st p)
  ∧ settledCount (settle items limit worker st p) = S (settledCount st).
Proof.
  intros (Hlen & Hi & Hnd & Hlt & Hlim & Hcnt & Hres & Hact) Hunres Hp.
  unfold settle.
  destruct (lookup_lt_is_Some_2 _ _ Hp) as [idx0 Hidx0]. rewrite Hidx0.
  pose proof (delete_Permutation _ _ _ Hidx0) as Hperm.
  assert (NoDup (idx0 :: delete p (inflight st))) as [Hnot Hnd']%NoDup_cons
    by (by rewrite <- Hperm).
  assert (∀ idx, idx ∈ inflight st ↔
                 idx = idx0 ∨ idx ∈ delete p (inflight st)) as Hmem.
  { intros idx. rewrite Hperm at 1. apply elem_of_cons. }
  assert (length (inflight st) = S (length (delete p (inflight st))))
    as Hlen'.
  { by rewrite Hperm at 1. }
  assert (idx0 < nextIdx st)%nat as Hidx0lt.
  { apply Hlt, Hmem. by left. }
  assert (∀ idx, (idx < length items)%nat →
    <[idx0 := settled items worker idx0]> (results st) !! idx =
    Some (if decide ((idx < nextIdx st)%nat
                     ∧ idx ∉ delete p (inflight st))
          then settled items worker idx else None)) as Hres'.
  { intros idx Hidx. destruct (decide (idx = idx0)) as [->|Hne].
    - rewrite list_lookup_insert_eq by lia. by rewrite decide_True.
    - rewrite list_lookup_insert_ne by done. rewrite (Hres idx Hidx).
      f_equal. apply decide_ext. rewrite Hmem. split.
      + intros [? Hn]. split; [done|]. intros ?. apply Hn. by right.
      + intros [? Hn]. split; [done|]. by intros [?|?]. }
  destruct ((length items <=? nextIdx st)%nat
            && bool_decide (delete p (inflight st) = [])) eqn:Hfin.
  - apply andb_true_iff in Hfin as [Hn%Nat.leb_le Hnil%bool_decide_eq_true].
    split.
    + split_and!; simpl; try done.
      * rewrite length_insert. done.
      * intros idx ?. apply Hlt, Hmem. by right.
      * rewrite Hnil. simpl. lia.
      * lia.
      * split; [lia|done].
    + unfold settledCount. simpl. rewrite Hlen'. lia.
  - assert ((nextIdx st < length items)%nat
            ∨ delete p (inflight st) ≠ []) as Htodo.
    { apply andb_false_iff in Hfin as [Hn%Nat.leb_gt|Hnn%bool_decide_eq_false];
        [by left|by right]. }
    rewrite Hunres.
    destruct (next_inv (<[idx0 := settled items worker idx0]> (results st))
                (nextIdx st) (delete p (inflight st)))
      as (Hinv & _ & Hcount); try done.
    * by rewrite length_insert.
    * intros idx ?. apply Hlt, Hmem. by right.
    * lia.
    * lia.
    * split; [done|]. rewrite Hcount. unfold settledCount.
      rewrite Hlen'. lia.
Qed.

Lemma settledCount_bound st :
  schedInv items limit worker st → resolved st = false →
  (settledCount st < length items)%nat.
Proof.
  intros (_ & Hi & _ & _ & _ & Hcnt & _ & Hact) Hunres. rewrite Hunres in Hact.
  unfold settledCount. destruct (inflight st); [done|]. simpl in *. lia.
Qed.

(** Every schedule long enough to settle the remaining tasks ends in a
    resolved state. *)
Lemma run_resolves picks st :
  schedInv items limit worker st →
  (length items - settledCount st <= length picks)%nat →
  schedInv items limit worker (run items limit worker picks st)
  ∧ resolved (run items limit worker picks st) = true.
Proof.
  revert st. induction picks as [|p picks IH]; intros st Hinv Hlen; simpl.
  - split; [done|]. destruct (resolved st) eqn:Hr; [done|].
    pose proof (settledCount_bound st Hinv Hr). simpl in Hlen. lia.
  - destruct (resolved st) eqn:Hr; [done|].
    assert (inflight st ≠ []) as Hne.
    { destruct Hinv as (_ & _ & _ & _ & _ & _ & _ & Hact).
      by rewrite Hr in Hact. }
    destruct (settle_inv st (p mod length (inflight st))%nat Hinv Hr)
      as [Hinv' Hcount].
    { apply Nat.mod_upper_bound. by destruct (inflight st). }
    apply IH; [done|]. rewrite Hcount. simpl in Hlen. lia.
Qed.

Lemma resolved_results st :
  schedInv items limit worker st → resolved st = true →
  results st = imap (λ idx _, settled items worker idx) items.
Proof.
  intros (Hlen & _ & _ & _ & _ & _ & Hres & Hact) Hr. rewrite Hr in Hact.
  destruct Hact as [Hi Hnil].
  apply list_eq. intros idx. rewrite list_lookup_imap.
  destruct (decide (idx < length items)%nat) as [Hlt|Hge].
  - rewrite (Hres idx Hlt), Hi, Hnil.
    rewrite decide_True by (split; [done|by intros ?%elem_of_nil]).
    destruct (lookup_lt_is_Some_2 items idx Hlt) as [x ->]. done.
  - rewrite !lookup_ge_None_2; [done|lia|lia].
Qed.

(** Whatever the order in which the tasks settle, once every task has
    settled the promise is resolved with the array of the settled
    values, in the order of the items. *)
Lemma mapLimit_resolves picks :
  items ≠ [] → (length items <= length picks)%nat →
  mapLimit items limit worker picks =
  Some (imap (λ idx _, settled items worker idx) items).
Proof.
  intros Hne Hlen. unfold mapLimit.
  destruct (initSched_inv Hne) as (Hinv & _ & Hcount).
  destruct (run_resolves picks _ Hinv) as [Hinv' Hr]; [lia|].
  rewrite Hr. f_equal. by apply resolved_results.
Qed.

(** No more than [limit] tasks are ever in flight. *)
Lemma run_inflight_bound picks :
  items ≠ [] →
  Z.of_nat (length (inflight (run items limit worker picks
                                (@initSched A R items limit)))) <= limit.
Proof.
  intros Hne. destruct (initSched_inv Hne) as (Hinv & _ & _).
  assert (∀ st, schedInv items limit worker st →
                schedInv items limit worker (run items limit worker picks st))
    as Hrun.
  { induction picks as [|p picks IH]; intros st Hst; simpl; [done|].
    destruct (resolved st) eqn:Hr; [done|]. apply IH.
    apply settle_inv; [done..|]. apply Nat.mod_upper_bound.
    destruct Hst as (_ & _ & _ & _ & _ & _ & _ & Hact). rewrite Hr in Hact.
    by destruct (inflight st). }
  by destruct (Hrun _ Hinv) as (_ & _ & _ & _ & Hlim & _).
Qed.

End MapLimitFacts.

(** *** Rank by gain *)

Lemma num_ltb_asym x y : num_ltb x y = true → num_ltb y x = false.
Proof.
  destruct x as [| | |a], y as [| | |b]; simpl; try done.
  intros Hab%negb_true_iff. apply negb_false_iff, Qle_bool_iff.
  apply Qlt_le_weak, Qnot_le_lt. intros Hle%Qle_bool_iff. congruence.
Qed.

Lemma num_ltb_negtrans x y z :
  y ≠ NaN →
  num_ltb x y = false → num_ltb y z = false → num_ltb x z = false.
Proof.
  destruct x as [| | |a], y as [| | |b], z as [| | |c]; simpl; try done.
  intros _ Hab%negb_false_iff%Qle_bool_iff Hbc%negb_false_iff%Qle_bool_iff.
  apply negb_false_iff, Qle_bool_iff. by eapply Qle_trans.
Qed.

Lemma sub_sign_le0 x y : sub_sign y x <= 0 ↔ num_ltb x y = false.
Proof.
  unfold sub_sign. destruct (num_ltb x y) eqn:Hxy.
  - split; [lia|done].
  - split; [done|]. intros _. destruct (num_ltb y x); lia.
Qed.

Lemma filterBoolean_settled {A R} (w : A → option R) (l : list A) :
  filterBoolean (imap (λ idx _, settled l (λ x _, Ok (w x)) idx) l)
  = omap w l.
Proof.
  assert (imap (λ idx (_ : A), settled l (λ x _, Ok (w x)) idx) l
          = (λ x, Some (w x)) <$> l) as ->.
  { apply list_eq. intros idx. rewrite list_lookup_imap, list_lookup_fmap.
    unfold settled. by destruct (l !! idx). }
  unfold filterBoolean. induction l as [|x l IH]; [done|].
  rewrite fmap_cons. cbn [omap list_omap mjoin option_join].
  destruct (w x); simpl; [f_equal|]; exact IH.
Qed.

Lemma StronglySorted_impl {A} (R S : A → A → Prop) l :
  (∀ a b, R a b → S a b) → StronglySorted R l → StronglySorted S l.
Proof.
  intros HRS. induction 1 as [|x l Hl IH Hx]; constructor; [done|].
  eapply Forall_impl; [exact Hx|]. auto.
Qed.

Lemma omap_length_one_None {A B} (f : A → option B) (l : list A) i x :
  l !! i = Some x → f x = None →
  (∀ j y, l !! j = Some y → j ≠ i → is_Some (f y)) →
  length (omap f l) = (length l - 1)%nat.
Proof.
  revert i. induction l as [|a l IH]; intros i Hi Hx Hothers; [done|].
  destruct i as [|i]; simpl in Hi.
  - injection Hi as ->. cbn [omap list_omap]. rewrite Hx.
    change (length (omap f l) = (length (x :: l) - 1)%nat).
    rewrite omap_length_all; [simpl; lia|].
    intros y Hy. apply list_elem_of_lookup in Hy as [j Hj].
    by apply (Hothers (S j)).
  - destruct (Hothers 0%nat a) as [b Hb]; [done..|].
    cbn [omap list_omap]. rewrite Hb.
    change (length (b :: omap f l) = (length (a :: l) - 1)%nat).
    simpl. rewrite (IH i); [|done..|].
    + apply lookup_lt_Some in Hi. lia.
    + intros j y Hj Hne. apply (Hothers (S j)); [done|lia].
Qed.

Lemma gainWorker_Some fetch o info g :
  gainWorker fetch o info = Some g ↔
  ∃ bl, fetchFor fetch o info = Ok bl
        ∧ g = {| g_info := info; g_basis := basis bl; g_latest := latest bl;
                 pct := pctOf (latest bl) (basis bl) |}.
Proof.
  unfold gainWorker. destruct (fetchFor fetch o info) as [bl|e].
  - split; [intros [= <-]; eauto|]. by intros (bl' & [= <-] & ->).
  - split; [done|]. by intros (bl' & ? & _).
Qed.

Lemma clampConcurrency_pos c : 0 < clampConcurrency c <= 10.
Proof.
  unfold clampConcurrency. destruct (default 3 c <=? 0) eqn:H0; simpl.
  - lia.
  - apply Z.leb_gt in H0.
    destruct (Z.ltb_spec 10 (default 3 c)); lia.
Qed.

Lemma clampLimitTickers_pos l : 0 < clampLimitTickers l.
Proof.
  unfold clampLimitTickers. destruct (Z.leb_spec (default 50 l) 0); lia.
Qed.

(** The batch never hangs and never throws: once every started task has
    settled, the result is the sorted list of the gains of the items of
    the subset whose resolution succeeded. *)
Lemma computeGainers_resolves fetch picks items o :
  (length (subsetOf items o) <= length picks)%nat →
  computeGainers fetch picks items o =
  Some (js_sort byPctDesc (omap (gainWorker fetch o) (subsetOf items o))).
Proof.
  intros Hpicks. unfold computeGainers. destruct items as [|x items]; [|].
  - unfold subsetOf. by rewrite take_nil.
  - rewrite mapLimit_resolves; [| apply clampConcurrency_pos | |done].
    + simpl. by rewrite filterBoolean_settled.
    + unfold subsetOf.
      pose proof (clampLimitTickers_pos (limitTickers o)).
      destruct (Z.to_nat (clampLimitTickers (limitTickers o))) eqn:Hn;
        [lia|done].
Qed.

(** C4, as the code has it: the batch works on the first [limitTickers]
    items only.  When exactly one item of that subset fails to resolve
    and the others succeed, the result has one element less than the
    subset - one less than the input when the input has at most
    [limitTickers] items - and, the [pct] values being numbers, is sorted
    descending by [pct]; the empty input gives the empty result. *)
Theorem computeGainers_one_failure
    (fetch : string → option Z → options → string → outcome basisLatest)
    (picks : list nat) (items : list Info) (o : gainerOptions)
    (i : nat) (bad : Info) :
  let subset := subsetOf items o in
  (length subset <= length picks)%nat →
  subset !! i = Some bad →
  (∃ e, fetchFor fetch o bad = Throw e) →
  (∀ j x, subset !! j = Some x → j ≠ i → ∃ bl, fetchFor fetch o x = Ok bl) →
  (∀ x bl, x ∈ subset → fetchFor fetch o x = Ok bl →
           pctOf (latest bl) (basis bl) ≠ NaN) →
  (∃ out, computeGainers fetch picks items o = Some out
          ∧ length out = (length subset - 1)%nat
          ∧ (Z.of_nat (length items) <= clampLimitTickers (limitTickers o) →
             length out = (length items - 1)%nat)
          ∧ pctDescending out)
  ∧ computeGainers fetch picks [] o = Some [].
Proof.
  intros subset Hpicks Hbad [e He] Hothers Hnum. split; [|done].
  eexists. split; [by apply computeGainers_resolves|].
  fold subset.
  assert (length (js_sort byPctDesc (omap (gainWorker fetch o) subset))
          = (length subset - 1)%nat) as Hlen.
  { rewrite js_sort_length. apply (omap_length_one_None _ _ i bad).
    - done.
    - unfold gainWorker. by rewrite He.
    - intros j x Hx Hne. destruct (Hothers j x Hx Hne) as [bl Hbl].
      unfold gainWorker. rewrite Hbl. by eexists. }
  split_and!; [done| |].
  - intros Hall. rewrite Hlen. unfold subset, subsetOf.
    rewrite take_ge; [done|lia].
  - unfold pctDescending.
    apply (StronglySorted_impl (λ a b, byPctDesc a b <= 0)).
    { intros a b. apply sub_sign_le0. }
    apply (js_sort_sorted byPctDesc (λ g, pct g ≠ NaN)).
    + intros a b _ _. unfold byPctDesc. rewrite !sub_sign_le0.
      destruct (num_ltb (pct a) (pct b)) eqn:Hab; [right|by left].
      by apply num_ltb_asym.
    + intros a b c _ Hb _. unfold byPctDesc. rewrite !sub_sign_le0.
      by apply num_ltb_negtrans.
    + apply Forall_forall. intros g Hg.
      apply list_elem_of_omap in Hg as (x & Hx & Hg).
      apply gainWorker_Some in Hg as (bl & Hbl & ->). simpl.
      by eapply Hnum.
Qed.

(** *** More on the scheduler of [mapLimit] *)

Lemma run_stuck {A R} (items : list A) (limit : Z)
    (worker : A → nat → outcome (option R)) (picks : list nat) (st : sched R) :
  inflight st = [] → run items limit worker picks st = st.
Proof.
  intros Hnil. induction picks as [|p picks IH]; simpl; [done|].
  destruct (resolved st); [done|].
  unfold settle. rewrite Hnil. simpl. exact IH.
Qed.

Lemma initSched_stuck {A R} (items : list A) (limit : Z) :
  items = [] ∨ limit <= 0 →
  inflight (@initSched A R items limit) = []
  ∧ resolved (@initSched A R items limit) = false.
Proof.
  intros Hstuck. unfold initSched, next. simpl.
  destruct Hstuck as [->|Hlimit]; simpl; [done|].
  destruct (length items) as [|n]; [done|]. cbn [startTasks].
  match goal with
  | |- context [(?a <? ?b) && _] => destruct (Z.ltb_spec a b) as [Hlt|_]
  end; [simpl in Hlt; lia|done].
Qed.

(** X1: whatever the order in which the tasks settle, [mapLimit] never has
    more than [limit] tasks in flight; with the limit [computeGainers]
    passes, never more than 10, whatever [concurrency] was asked for. *)
Theorem mapLimit_inflight_ceiling {A R : Type} (items : list A)
    (worker : A → nat → outcome (option R)) (picks : list nat) :
  (∀ limit, 0 < limit →
     Z.of_nat (length (inflight (run items limit worker picks
                                   (initSched items limit)))) <= limit)
  ∧ (∀ c, (length (inflight (run items (clampConcurrency c) worker picks
                               (initSched items (clampConcurrency c))))
           <= 10)%nat).
Proof.
  assert (∀ limit, 0 < limit →
     Z.of_nat (length (inflight (run items limit worker picks
                                   (initSched items limit)))) <= limit)
    as Hceil.
  { intros limit Hpos. destruct (decide (items = [])) as [Hnil|Hne].
    - destruct (@initSched_stuck A R items limit (or_introl Hnil)) as [Hin _].
      rewrite run_stuck by done. rewrite Hin. simpl. lia.
    - by apply run_inflight_bound. }
  split; [exact Hceil|].
  intros c. pose proof (clampConcurrency_pos c) as [Hpos Hten].
  specialize (Hceil _ Hpos). lia.
Qed.

(** X2: with a positive limit and at least one item, once every task has
    settled the promise of [mapLimit] is resolved, whatever the order of
    settling, with an array that holds at each index the value the worker
    gave for the item at that index, or [null] where the worker rejected. *)
Theorem mapLimit_positional {A R : Type} (items : list A) (limit : Z)
    (worker : A → nat → outcome (option R)) (picks : list nat) :
  0 < limit → items ≠ [] → (length items <= length picks)%nat →
  ∃ out,
    mapLimit items limit worker picks = Some out
    ∧ length out = length items
    ∧ ∀ idx x, items !! idx = Some x →
        out !! idx = Some (Some match worker x idx with
                                | Ok res => res
                                | Throw _ => None
                                end).
Proof.
  intros Hpos Hne Hlen. eexists. split; [by apply mapLimit_resolves|].
  split; [by rewrite length_imap|].
  intros idx x Hx. rewrite list_lookup_imap, Hx. simpl.
  unfold settled. rewrite Hx. by destruct (worker x idx).
Qed.

(** X3: on an empty array, or with a limit that is not positive, the
    promise of [mapLimit] is never resolved: no task is ever started, so
    nothing ever calls [resolve]. *)
Theorem mapLimit_never_resolves {A R : Type} (items : list A) (limit : Z)
    (worker : A → nat → outcome (option R)) (picks : list nat) :
  items = [] ∨ limit <= 0 →
  mapLimit items limit worker picks = None.
Proof.
  intros Hstuck. unfold mapLimit.
  destruct (@initSched_stuck A R items limit Hstuck) as [Hin Hres].
  rewrite run_stuck by done. by rewrite Hres.
Qed.

Lemma omap_length_le {A B} (f : A → option B) (l : list A) :
  (length (omap f l) <= length l)%nat.
Proof.
  induction l as [|x l IH]; [done|].
  assert (omap f (x :: l)
          = match f x with Some y => y :: omap f l | None => omap f l end)
    as -> by done.
  destruct (f x); simpl; lia.
Qed.

(** X4: [computeGainers] settles for every batch, whichever resolutions
    fail: its result is a rearrangement of the gains of the items of the
    truncated subset whose resolution succeeded, so it is no longer than
    [limitTickers] nor than the input, and every result belongs to an item
    of the subset and carries the basis, latest and [pct] of that item's
    resolution. *)
Theorem computeGainers_output
    (fetch : string → option Z → options → string → outcome basisLatest)
    (picks : list nat) (items : list Info) (o : gainerOptions) :
  (length (subsetOf items o) <= length picks)%nat →
  ∃ out,
    computeGainers fetch picks items o = Some out
    ∧ out ≡ₚ omap (gainWorker fetch o) (subsetOf items o)
    ∧ Z.of_nat (length out) <= clampLimitTickers (limitTickers o)
    ∧ (length out <= length items)%nat
    ∧ ∀ g, g ∈ out →
        g_info g ∈ subsetOf items o
        ∧ ∃ bl, fetchFor fetch o (g_info g) = Ok bl
                ∧ g_basis g = basis bl ∧ g_latest g = latest bl
                ∧ pct g = pctOf (latest bl) (basis bl).
Proof.
  intros Hpicks. eexists. split; [by apply computeGainers_resolves|].
  assert (length (omap (gainWorker fetch o) (subsetOf items o))
          <= length (subsetOf items o))%nat as Hle.
  { apply omap_length_le. }
  pose proof (clampLimitTickers_pos (limitTickers o)) as Hpos.
  assert (length (subsetOf items o)
          <= Z.to_nat (clampLimitTickers (limitTickers o)))%nat as Hsub1.
  { unfold subsetOf. rewrite length_take. lia. }
  assert (length (subsetOf items o) <= length items)%nat as Hsub2.
  { unfold subsetOf. rewrite length_take. lia. }
  split_and!.
  - apply js_sort_Permutation.
  - rewrite js_sort_length. lia.
  - rewrite js_sort_length. lia.
  - intros g Hg. rewrite js_sort_Permutation in Hg.
    apply list_elem_of_omap in Hg as (x & Hx & Hg).
    apply gainWorker_Some in Hg as (bl & Hbl & ->). simpl. eauto 10.
Qed.


(** *** First and last mention, and the users' counts *)

Section Mentions.

Local Open Scope list_scope.

Lemma recordMention_first cur e t :
  parseTimestamp e = Some t →
  let a := recordMention cur e in
  (ltFirst (Some t) (firstTs cur) = true →
     firstTs a = Finite t ∧ firstLink a = orEmpty (link e)
     ∧ firstUserId a = orEmpty (user e ≫= user_id)
     ∧ firstUserName a = orEmpty (user e ≫= user_name))
  ∧ (ltFirst (Some t) (firstTs cur) = false →
     firstTs a = firstTs cur ∧ firstLink a = firstLink cur
     ∧ firstUserId a = firstUserId cur
     ∧ firstUserName a = firstUserName cur).
Proof.
  intros Hts. cbv zeta. unfold recordMention. rewrite Hts.
  cbn -[ltFirst gtLast].
  destruct (ltFirst (Some t) (firstTs cur)); cbn -[ltFirst gtLast];
    destruct (gtLast _ _); cbn; split; intros; done.
Qed.

Lemma recordMention_last cur e t :
  parseTimestamp e = Some t →
  let a := recordMention cur e in
  (lastTs cur < t → lastTs a = t ∧ lastLink a = orEmpty (link e))
  ∧ (t <= lastTs cur → lastTs a = lastTs cur ∧ lastLink a = lastLink cur).
Proof.
  intros Hts. cbv zeta. unfold recordMention. rewrite Hts.
  cbn -[ltFirst Z.ltb].
  destruct (ltFirst (Some t) (firstTs cur)); cbn -[ltFirst Z.ltb];
    destruct (Z.ltb_spec (lastTs cur) t); cbn; split; intros; (done || lia).
Qed.

Lemma firstMentionOf_snoc k p a e :
  firstMentionOf k p a →
  (∀ t tf, keyOf e = Some k → parseTimestamp e = Some t →
           firstTs a = Finite tf → tf <= t) →
  firstMentionOf k (p ++ [e]) a.
Proof.
  intros (l1 & e0 & l2 & t0 & -> & Hk & Ht0 & Hf & Hl & Hu & Hn & Hb & Ha) He.
  exists l1, e0, (l2 ++ [e]), t0. rewrite <- app_assoc. simpl.
  split_and!; try done.
  intros e' t' [Hin| ->%list_elem_of_singleton]%elem_of_app Hk' Ht'.
  - by eapply Ha.
  - by eapply He.
Qed.

Lemma lastMentionOf_snoc k p a e :
  lastMentionOf k p a →
  (∀ t, keyOf e = Some k → parseTimestamp e = Some t → t <= lastTs a) →
  lastMentionOf k (p ++ [e]) a.
Proof.
  intros [Hall Hlast] He. split.
  - intros e' t' [Hin| ->%list_elem_of_singleton]%elem_of_app Hk' Ht'.
    + by eapply Hall.
    + by eapply He.
  - destruct Hlast as [?|(l1 & e0 & l2 & -> & Hk & Ht0 & Hl & Hpos & Hb)];
      [by left|right].
    exists l1, e0, (l2 ++ [e]). rewrite <- app_assoc. simpl. done.
Qed.

Lemma lastMentionOf_lower k p a : lastMentionOf k p a → -1 <= lastTs a.
Proof. intros [_ [[-> _]|(_ & _ & _ & _ & _ & _ & _ & ? & _)]]; lia. Qed.

(** One more entry: the aggregates describe the longer list. *)
Lemma addMention_mentions p m e t :
  parseTimestamp e = Some t →
  (∀ k a, JsMap.get k m = Some a → firstMentionOf k p a ∧ lastMentionOf k p a) →
  (∀ k, JsMap.get k m = None → ∀ e', e' ∈ p → keyOf e' ≠ Some k) →
  (∀ k a, JsMap.get k (addMention m e) = Some a →
          firstMentionOf k (p ++ [e]) a ∧ lastMentionOf k (p ++ [e]) a)
  ∧ (∀ k, JsMap.get k (addMention m e) = None →
          ∀ e', e' ∈ p ++ [e] → keyOf e' ≠ Some k).
Proof.
  intros Hts Hsome Hnone. split.
  - intros k a. rewrite addMention_get.
    destruct (decide (keyOf e = Some k)) as [Hk|Hk].
    + intros [= <-].
      destruct (recordMention_first (default freshAgg (JsMap.get k m)) e t Hts)
        as [Hlt Hge].
      destruct (recordMention_last (default freshAgg (JsMap.get k m)) e t Hts)
        as [Hgt Hle].
      destruct (JsMap.get k m) as [a0|] eqn:Hget; simpl in *.
      * destruct (Hsome k a0 Hget) as [Hfirst Hlast].
        pose proof (lastMentionOf_lower _ _ _ Hlast) as Hlow.
        split.
        -- pose proof Hfirst
             as (l1 & e0 & l2 & t0 & Hp & Hk0 & Ht0 & Hf & Hl & Hu & Hn & Hb & Ha).
           rewrite Hf in Hlt, Hge. simpl in Hlt, Hge.
           destruct (Z.ltb_spec t t0) as [Hlt0|Hge0].
           ++ destruct (Hlt eq_refl) as (Hf' & Hl' & Hu' & Hn').
              exists p, e, [], t. split_and!; try done.
              ** intros e' t' Hin Hk' Ht'. rewrite Hp in Hin.
                 apply elem_of_app in Hin as [Hin|Hin].
                 { specialize (Hb e' t' Hin Hk' Ht'). lia. }
                 apply elem_of_cons in Hin as [->|Hin].
                 { rewrite Ht0 in Ht'. injection Ht' as <-. lia. }
                 specialize (Ha e' t' Hin Hk' Ht'). lia.
              ** by intros e' t' ?%elem_of_nil.
           ++ destruct (Hge eq_refl) as (Hf' & Hl' & Hu' & Hn').
              apply firstMentionOf_snoc.
              ** exists l1, e0, l2, t0. rewrite Hf', Hl', Hu', Hn'. done.
              ** intros t' tf _ Ht'. rewrite Hts in Ht'. injection Ht' as <-.
                 rewrite Hf'. intros [= <-]. done.
        -- destruct Hlast as [Hall Hlast'].
           destruct (Z.lt_ge_cases (lastTs a0) t) as [Hnew|Hold].
           ++ destruct (Hgt Hnew) as [Hts' Hl'].
              split.
              ** intros e' t' [Hin| ->%list_elem_of_singleton]%elem_of_app Hk' Ht'.
                 { specialize (Hall e' t' Hin Hk' Ht'). lia. }
                 { rewrite Hts in Ht'. injection Ht' as <-. lia. }
              ** right. exists p, e, []. rewrite Hts'.
                 split_and!; try done; [lia|].
                 intros e' t' Hin Hk' Ht'. specialize (Hall e' t' Hin Hk' Ht').
                 lia.
           ++ destruct (Hle Hold) as [Hts' Hl'].
              apply lastMentionOf_snoc.
              ** split.
                 { intros e' t' Hin Hk' Ht'. rewrite Hts'. by eapply Hall. }
                 { rewrite Hts', Hl'. done. }
              ** intros t' _ Ht'. rewrite Hts in Ht'. injection Ht' as <-.
                 by rewrite Hts'.
      * specialize (Hnone k Hget).
        destruct (Hlt eq_refl) as (Hf' & Hl' & Hu' & Hn').
        split.
        -- exists p, e, [], t. split_and!; try done.
           ++ intros e' t' Hin Hk' _. by destruct (Hnone e' Hin).
           ++ by intros e' t' ?%elem_of_nil.
        -- destruct (Z.lt_ge_cases (-1) t) as [Hnew|Hold].
           ++ destruct (Hgt Hnew) as [Hts' Hll].
              split.
              ** intros e' t' [Hin| ->%list_elem_of_singleton]%elem_of_app Hk' Ht'.
                 { by destruct (Hnone e' Hin). }
                 { rewrite Hts in Ht'. injection Ht' as <-. lia. }
              ** right. exists p, e, []. rewrite Hts'.
                 split_and!; try done; [lia|].
                 intros e' t' Hin Hk' _. by destruct (Hnone e' Hin).
           ++ destruct (Hle Hold) as [Hts' Hll].
              split.
              ** intros e' t' [Hin| ->%list_elem_of_singleton]%elem_of_app Hk' Ht'.
                 { by destruct (Hnone e' Hin). }
                 { rewrite Hts in Ht'. injection Ht' as <-. lia. }
              ** left. done.
    + intros Hget. destruct (Hsome k a Hget) as [Hfirst Hlast]. split.
      * apply firstMentionOf_snoc; [done|]. by intros t' tf Hk'.
      * apply lastMentionOf_snoc; [done|]. by intros t' Hk'.
  - intros k. rewrite addMention_get.
    destruct (decide (keyOf e = Some k)) as [Hk|Hk]; [done|].
    intros Hget e' [Hin| ->%list_elem_of_singleton]%elem_of_app; [|done].
    by apply (Hnone k Hget).
Qed.

Lemma foldl_addMention_mentions l p m :
  (∀ e, e ∈ l → is_Some (parseTimestamp e)) →
  (∀ k a, JsMap.get k m = Some a → firstMentionOf k p a ∧ lastMentionOf k p a) →
  (∀ k, JsMap.get k m = None → ∀ e', e' ∈ p → keyOf e' ≠ Some k) →
  ∀ k a, JsMap.get k (foldl addMention m l) = Some a →
         firstMentionOf k (p ++ l) a ∧ lastMentionOf k (p ++ l) a.
Proof.
  revert p m. induction l as [|e l IH]; intros p m Hl Hsome Hnone; simpl.
  - rewrite app_nil_r. exact Hsome.
  - destruct (Hl e) as [t Ht]; [left|].
    destruct (addMention_mentions p m e t Ht Hsome Hnone) as [Hsome' Hnone'].
    replace (p ++ e :: l) with ((p ++ [e]) ++ l) by (by rewrite <- app_assoc).
    apply IH; [|done..]. intros e' He'. apply Hl. by right.
Qed.

Lemma byTicker_mentions entries selectedMonth k a :
  JsMap.get k (byTicker (buildMonthAgg entries selectedMonth)) = Some a →
  firstMentionOf k (monthEntries entries selectedMonth) a
  ∧ lastMentionOf k (monthEntries entries selectedMonth) a.
Proof.
  unfold buildMonthAgg. simpl.
  apply (foldl_addMention_mentions _ [] JsMap.empty).
  - intros e [Hin _]%monthEntries_elem_of. by eapply isInMonth_valid.
  - intros k' a'. unfold JsMap.get. simpl. by rewrite lookup_empty.
  - by intros k' _ e' ?%elem_of_nil.
Qed.

End Mentions.

(** X5: the first-mention fields of every aggregate of [buildMonthAgg] are
    those of the earliest entry of the month filed under its ticker - of
    the first such entry in the order of the input when several are equally
    early: [firstTs] is its timestamp, [firstLink] its link and
    [firstUserId], [firstUserName] its user (each the empty string when
    missing). *)
Theorem buildMonthAgg_first_mention (entries : list entry)
    (selectedMonth : string) (k : string) (a : agg) :
  JsMap.get k (byTicker (buildMonthAgg entries selectedMonth)) = Some a →
  firstMentionOf k (monthEntries entries selectedMonth) a.
Proof. intros Hget. by destruct (byTicker_mentions _ _ _ _ Hget). Qed.

(** X6: [lastTs] of every aggregate of [buildMonthAgg] bounds the
    timestamps of the month's entries filed under its ticker; it and
    [lastLink] are the timestamp and link of the latest such entry - the
    first in input order among equally late ones - except when none of
    them is dated after -1 (before 1970): then [lastTs] stays -1 and
    [lastLink] empty. *)
Theorem buildMonthAgg_last_mention (entries : list entry)
    (selectedMonth : string) (k : string) (a : agg) :
  JsMap.get k (byTicker (buildMonthAgg entries selectedMonth)) = Some a →
  lastMentionOf k (monthEntries entries selectedMonth) a.
Proof. intros Hget. by destruct (byTicker_mentions _ _ _ _ Hget). Qed.


Lemma addFirstUser_get counts v u :
  JsMap.get u (addFirstUser counts v) =
  if decide (firstUserId v = u ∧ u ≠ "") then
    Some {| uc_name :=
              (if decide (userNameOf counts u = "") then firstUserName v
               else userNameOf counts u);
            uc_count := S (userCountOf counts u) |}
  else JsMap.get u counts.
Proof.
  unfold userNameOf, userCountOf.
  destruct (decide (firstUserId v = u ∧ u ≠ "")) as [[<- Hu]|Hn];
    unfold addFirstUser;
    (destruct (decide (firstUserId v = "")) as [Hempty|Hne]; [done|]);
    rewrite JsMap_get_set.
  - destruct (decide (firstUserId v = firstUserId v)); [|done]. f_equal.
    destruct (JsMap.get (firstUserId v) counts) as [c|]; simpl.
    + destruct (decide (uc_name c = "")) as [->|?]; simpl; [|done].
      by destruct (decide (firstUserName v = "")) as [->|?].
    + destruct (decide (firstUserName v = "")) as [Hn|?]; simpl; [|done].
      by rewrite Hn.
  - destruct (decide (firstUserId v = u)) as [Hvu|?]; [|done].
    destruct Hn. split; congruence.
Qed.

Lemma foldl_addFirstUser_get vs counts u :
  u ≠ "" →
  let mine := filter (λ v, firstUserId v = u) vs in
  userCountOf (foldl addFirstUser counts vs) u
    = (userCountOf counts u + length mine)%nat
  ∧ userNameOf (foldl addFirstUser counts vs) u
    = (if decide (userNameOf counts u = "") then firstName mine
       else userNameOf counts u)
  ∧ (is_Some (JsMap.get u (foldl addFirstUser counts vs)) ↔
     is_Some (JsMap.get u counts) ∨ mine ≠ []).
Proof.
  intros Hu. revert counts. induction vs as [|v vs IH]; intros counts.
  - simpl. split_and!; [lia| |].
    + destruct (decide (userNameOf counts u = "")) as [He|He]; [|done].
      by rewrite He.
    + split; [by left|]. by intros [?|?].
  - cbn [foldl]. cbv zeta in IH. rewrite filter_cons.
    destruct (IH (addFirstUser counts v)) as (Hc & Hn & Hs).
    rewrite Hc, Hn, Hs. clear Hc Hn Hs IH.
    pose proof (addFirstUser_get counts v u) as Hget.
    destruct (decide (firstUserId v = u ∧ u ≠ "")) as [[Hv _]|Hnot].
    + assert (userCountOf (addFirstUser counts v) u = S (userCountOf counts u))
        as -> by (unfold userCountOf at 1; by rewrite Hget).
      assert (userNameOf (addFirstUser counts v) u
              = if decide (userNameOf counts u = "") then firstUserName v
                else userNameOf counts u)
        as -> by (unfold userNameOf at 1; by rewrite Hget).
      rewrite Hget.
      destruct (decide (firstUserId v = u)) as [_|?]; [|done]. simpl.
      split_and!.
      * lia.
      * unfold firstName. rewrite fmap_cons, filter_cons.
        destruct (decide (userNameOf counts u = "")) as [He|He].
        -- destruct (decide (firstUserName v = "")) as [Hf|Hf]; simpl;
             by destruct (decide (firstUserName v ≠ "")).
        -- by destruct (decide (userNameOf counts u = "")).
      * split; [by intros _; right|]. intros _. left. by eexists.
    + assert (firstUserId v ≠ u) as Hv by (intros ?; by apply Hnot).
      assert (userCountOf (addFirstUser counts v) u = userCountOf counts u)
        as -> by (unfold userCountOf; by rewrite Hget).
      assert (userNameOf (addFirstUser counts v) u = userNameOf counts u)
        as -> by (unfold userNameOf; by rewrite Hget).
      rewrite Hget.
      by destruct (decide (firstUserId v = u)) as [?|_].
Qed.

(** X7: in [firstByUserCounts] of [buildMonthAgg] a user id has an entry
    exactly when it is the non-empty [firstUserId] of some aggregate of the
    month; its [count] is the number of those aggregates, and its [name]
    is the first non-empty [firstUserName] among them, in the map's order
    (empty when none has one).  The empty id never has an entry. *)
Theorem buildMonthAgg_user_counts (entries : list entry)
    (selectedMonth : string) (u : string) :
  let r := buildMonthAgg entries selectedMonth in
  let mine := filter (λ v, firstUserId v = u) (JsMap.values (byTicker r)) in
  JsMap.get "" (firstByUserCounts r) = None
  ∧ (u ≠ "" →
     (is_Some (JsMap.get u (firstByUserCounts r)) ↔ mine ≠ [])
     ∧ userCountOf (firstByUserCounts r) u = length mine
     ∧ userNameOf (firstByUserCounts r) u = firstName mine).
Proof.
  intros r mine. split.
  - unfold r, buildMonthAgg. simpl.
    generalize (JsMap.values (foldl addMention JsMap.empty
                                (monthEntries entries selectedMonth))).
    intros vs.
    assert (∀ counts, JsMap.get "" counts = None →
                      JsMap.get "" (foldl addFirstUser counts vs) = None)
      as Hempty.
    { induction vs as [|v vs IH]; intros counts Hc; simpl; [done|].
      apply IH. rewrite addFirstUser_get.
      rewrite decide_False; [done|]. by intros [_ ?]. }
    apply Hempty. unfold JsMap.get. simpl. apply lookup_empty.
  - intros Hu.
    destruct (foldl_addFirstUser_get (JsMap.values (byTicker r)) JsMap.empty
                u Hu) as (Hc & Hn & Hs).
    fold mine in Hc, Hn, Hs.
    assert (JsMap.get u (@JsMap.empty userCount) = None) as Hnone.
    { unfold JsMap.get. simpl. apply lookup_empty. }
    assert (userCountOf JsMap.empty u = 0%nat) as Hc0
      by (unfold userCountOf; by rewrite Hnone).
    assert (userNameOf JsMap.empty u = "") as Hn0
      by (unfold userNameOf; by rewrite Hnone).
    rewrite Hc0 in Hc. rewrite Hn0 in Hn. rewrite Hnone in Hs.
    simpl in Hc, Hn.
    split_and!.
    + etransitivity; [exact Hs|]. split; [|by right].
      intros [[? ?]|?]; done.
    + exact Hc.
    + exact Hn.
Qed.


(** *** Month keys read back by [buildMonthAgg] *)

Lemma string_append_assoc (a b c : string) :
  String.append (String.append a b) c = String.append a (String.append b c).
Proof.
  induction a as [|x a IH]; [done|].
  change (String x (String.append (String.append a b) c)
          = String x (String.append a (String.append b c))).
  by rewrite IH.
Qed.

Lemma string_append_empty (a : string) : String.append a "" = a.
Proof.
  induction a as [|x a IH]; [done|].
  change (String x (String.append a "") = String x a). by rewrite IH.
Qed.

Lemma split_dash_split s : split_dash s = split_on "-" s.
Proof.
  unfold split_dash, split_on. generalize "" as acc.
  induction s as [|c s IH]; intros acc; simpl; [done|].
  destruct (Ascii.eqb c "-"); by rewrite IH.
Qed.

Lemma split_aux_app sep acc s r :
  freeOf sep s = true →
  split_aux sep acc (String.append s (String sep r))
  = String.append acc s :: split_aux sep "" r.
Proof.
  revert acc. induction s as [|c s IH]; intros acc Hs; simpl.
  - by rewrite Ascii.eqb_refl, string_append_empty.
  - simpl in Hs. apply andb_prop in Hs as [Hc Hs].
    apply negb_true_iff in Hc. rewrite Hc, IH by done.
    by rewrite string_append_assoc.
Qed.

Lemma split_aux_free sep acc s :
  freeOf sep s = true → split_aux sep acc s = [String.append acc s].
Proof.
  revert acc. induction s as [|c s IH]; intros acc Hs; simpl.
  - by rewrite string_append_empty.
  - simpl in Hs. apply andb_prop in Hs as [Hc Hs].
    apply negb_true_iff in Hc. rewrite Hc, IH by done.
    by rewrite string_append_assoc.
Qed.

Lemma digit_not_dash c : is_Some (Host.digit c) → Ascii.eqb c "-" = false.
Proof.
  intros [z Hz]. destruct (Ascii.eqb_spec c "-") as [->|]; [|done].
  vm_compute in Hz. done.
Qed.

Lemma allDigits_freeOf s : allDigits s = true → freeOf "-" s = true.
Proof.
  induction s as [|c s IH]; simpl; [done|].
  intros [Hc Hs]%andb_prop. apply bool_decide_eq_true_1 in Hc.
  by rewrite digit_not_dash, IH.
Qed.

Lemma string_of_uint_digits d : allDigits (NilEmpty.string_of_uint d) = true.
Proof. induction d; simpl; by rewrite ?IHd. Qed.

Lemma string_of_uint_nonnil d :
  d ≠ Decimal.Nil →
  NilZero.string_of_uint d = NilEmpty.string_of_uint d
  ∧ NilEmpty.string_of_uint d ≠ "".
Proof. by destruct d. Qed.

Lemma numToString_pos p :
  numToString (Some (Z.pos p)) = NilEmpty.string_of_uint (Pos.to_uint p).
Proof.
  change (numToString (Some (Z.pos p)))
    with (NilZero.string_of_uint (Pos.to_uint p)).
  apply string_of_uint_nonnil, DecimalPos.Unsigned.to_uint_nonnil.
Qed.

Lemma numToString_digits z :
  0 <= z →
  allDigits (numToString (Some z)) = true ∧ numToString (Some z) ≠ "".
Proof.
  intros Hz. destruct z as [|p|p]; [done| |lia].
  rewrite numToString_pos. split; [apply string_of_uint_digits|].
  apply string_of_uint_nonnil, DecimalPos.Unsigned.to_uint_nonnil.
Qed.

Lemma numToString_inj z1 z2 :
  numToString (Some z1) = numToString (Some z2) → z1 = z2.
Proof.
  unfold numToString. intros H.
  assert (∀ z, Z.to_int z ≠ Decimal.Pos Decimal.Nil
               ∧ Z.to_int z ≠ Decimal.Neg Decimal.Nil) as Hnil.
  { intros [|p|p]; simpl; split; try done;
      intros [= Hp]; by apply DecimalPos.Unsigned.to_uint_nonnil in Hp. }
  apply (f_equal NilZero.int_of_string) in H.
  rewrite !NilZero.isi in H by apply Hnil.
  rewrite <- (DecimalZ.of_to z1), <- (DecimalZ.of_to z2). congruence.
Qed.

Lemma padStart2_digits s : allDigits s = true → allDigits (padStart2 s) = true.
Proof. destruct s as [|c [|c' s]]; simpl; try done. Qed.

Lemma split_dash_keyYM y m :
  0 <= y → 0 <= m + 1 →
  split_dash (keyYM y m) = [yearPart y; padStart2 (numToString (Some (m + 1)))].
Proof.
  intros Hy Hm. rewrite split_dash_split. unfold split_on, keyYM, monthPart.
  change (String.append "-" ?s) with (String "-" s).
  rewrite split_aux_app
    by (apply allDigits_freeOf, (numToString_digits y Hy)).
  rewrite split_aux_free; [done|].
  apply allDigits_freeOf, padStart2_digits, (numToString_digits _ Hm).
Qed.

Lemma monthKey_valid e t :
  parseTimestamp e = Some t → Z.abs t <= maxTime →
  monthKey e = keyYM (YearFromTime t) (MonthFromTime t).
Proof.
  intros Hp Hc. unfold monthKey, newDate. rewrite Hp. simpl.
  unfold TimeClip. by rewrite (proj2 (Z.leb_le _ _) Hc).
Qed.

Lemma monthKey_invalid e :
  newDate (parseTimestamp e) = None → monthKey e = "NaN-NaN".
Proof. intros Hd. unfold monthKey. by rewrite Hd. Qed.

Lemma newDate_Some ts t :
  newDate ts = Some t ↔ ts = Some t ∧ Z.abs t <= maxTime.
Proof.
  unfold newDate, TimeClip. destruct ts as [t'|]; simpl.
  - destruct (Z.leb_spec (Z.abs t') maxTime); split.
    + intros [= ->]. done.
    + by intros [[= ->] _].
    + done.
    + intros [[= ->] ?]. lia.
  - split; [done|]. by intros [? _].
Qed.

Lemma isInMonth_iff ts mso :
  isInMonth ts mso = true ↔
  ∃ t ms, ts = Some t ∧ mso = Some ms ∧ Z.abs t <= maxTime
          ∧ Z.abs ms <= maxTime ∧ YearFromTime t = YearFromTime ms
          ∧ MonthFromTime t = MonthFromTime ms.
Proof.
  unfold isInMonth. cbv zeta.
  destruct (newDate ts) as [t|] eqn:Ht; simpl.
  - destruct (newDate mso) as [ms|] eqn:Hms; simpl.
    + apply newDate_Some in Ht as [-> Ht]. apply newDate_Some in Hms as [-> Hms].
      rewrite andb_true_iff, !Z.eqb_eq. split.
      * intros [? ?]. by exists t, ms.
      * by intros (? & ? & [= <-] & [= <-] & _ & _ & ? & ?).
    + split; [done|]. intros (t' & ms & -> & -> & _ & Hms' & _).
      assert (newDate (Some ms) = Some ms) as Hn
        by (by apply newDate_Some). congruence.
  - split; [done|]. intros (t' & ms & -> & -> & Ht' & _).
    assert (newDate (Some t') = Some t') as Hn by (by apply newDate_Some).
    congruence.
Qed.

(** The month start [Date.UTC] computes for the full year [yr] and the
    0-based month [m], when it is a valid time value. *)
Lemma MakeDay1_month yr m :
  0 <= m <= 11 →
  let ms := MakeDay1 yr m * msPerDay in
  ms = days_from_civil yr (m + 1) 1 * msPerDay
  ∧ YearFromTime ms = yr ∧ MonthFromTime ms = m.
Proof.
  intros Hm. cbv zeta. unfold MakeDay1.
  replace (m / 12) with 0 by (symmetry; apply Z.div_small; lia).
  rewrite Z.mod_small by lia. replace (yr + 0) with yr by lia.
  split; [done|].
  unfold YearFromTime, MonthFromTime, Day.
  rewrite Z.div_mul by done. rewrite civil_from_days_from_civil by lia.
  simpl. split; [done|lia].
Qed.

(** The year [Date.UTC] takes a year argument for. *)
Lemma monthEntries_calendar entries sm y m1 e' :
  yearMonth sm = (Some y, Some m1) → 1 <= m1 <= 12 →
  let yr := if (0 <=? y) && (y <=? 99) then 1900 + y else y in
  Z.abs (days_from_civil yr m1 1 * msPerDay) <= maxTime →
  e' ∈ monthEntries entries sm ↔ e' ∈ entries ∧ datedIn yr (m1 - 1) e'.
Proof.
  intros Hym Hm yr Hclip. rewrite monthEntries_elem_of.
  unfold monthStartOf. rewrite Hym. unfold startOfMonthUTC, Date_UTC. simpl.
  fold yr.
  destruct (MakeDay1_month yr (m1 - 1) ltac:(lia)) as (Hms & Hyear & Hmonth).
  replace (m1 - 1 + 1) with m1 in Hms by lia.
  unfold TimeClip. rewrite Hms at 1.
  rewrite (proj2 (Z.leb_le _ _) Hclip).
  rewrite isInMonth_iff. unfold datedIn. split.
  - intros [(t & ms & Ht & [= <-] & Hct & _ & Hy' & Hm') He]. split; [done|].
    exists t. rewrite Hy', Hm', Hyear, Hmonth. done.
  - intros [He (t & Ht & Hct & Hy' & Hm')]. split; [|done].
    exists t, (MakeDay1 yr (m1 - 1) * msPerDay).
    rewrite Hyear, Hmonth. split_and!; try done. by rewrite Hms.
Qed.

Lemma year_of_era_range doe :
  0 <= doe < 146097 →
  0 <= (doe - doe / 1460 + doe / 36524 - doe / 146096) / 365 <= 399.
Proof. intros H. clear -H. Z.div_mod_to_equations. lia. Qed.

(** Day 1 of the month of day number [d] is [d] minus the day of the
    month, less one; a year from 100 on starts after day -719468. *)
Lemma civil_month_start d :
  days_from_civil (civil_from_days d).1.1 (civil_from_days d).1.2 1
    = d - ((civil_from_days d).2 - 1)
  ∧ 1 <= (civil_from_days d).2 <= 31
  ∧ (100 <= (civil_from_days d).1.1 → -719468 <= d).
Proof.
  unfold civil_from_days. cbv zeta. simpl.
  set (z := d + 719468).
  set (era := z / 146097).
  set (doe := z - era * 146097).
  assert (0 <= doe < 146097) as Hdoe.
  { unfold doe, era. pose proof (Z.mod_pos_bound z 146097 ltac:(lia)) as Hmod.
    rewrite Z.mod_eq in Hmod by lia. lia. }
  pose proof (day_of_year_range doe Hdoe) as Hdoy. cbv zeta in Hdoy.
  pose proof (year_of_era_range doe Hdoe) as Hyoe.
  set (yoe := (doe - doe / 1460 + doe / 36524 - doe / 146096) / 365) in *.
  set (doy := doe - (365 * yoe + yoe / 4 - yoe / 100)) in *.
  set (mp := (5 * doy + 2) / 153).
  assert (0 <= mp <= 11) as Hmp.
  { unfold mp. split; [apply Z.div_pos; lia|].
    apply Z.lt_succ_r, Z.div_lt_upper_bound; lia. }
  assert (doe = z - era * 146097) as Hz by reflexivity.
  assert (mp = (5 * doy + 2) / 153) as Hmpe by reflexivity.
  assert (doy = doe - (365 * yoe + yoe / 4 - yoe / 100)) as Hdoye
    by reflexivity.
  assert (z = d + 719468) as Hzd by reflexivity.
  clearbody mp doy yoe doe era z.
  unfold days_from_civil. cbv zeta.
  destruct (Z.ltb_spec mp 10) as [Hlt|Hge].
  - destruct (Z.leb_spec (mp + 3) 2); [lia|].
    destruct (Z.ltb_spec 2 (mp + 3)); [|lia].
    replace (mp + 3 - 3) with mp by lia.
    replace ((yoe + era * 400) / 400) with era
      by (clear -Hyoe; Z.div_mod_to_equations; lia).
    replace (yoe + era * 400 - era * 400) with yoe by lia.
    clear -Hmp Hmpe Hdoy Hz Hdoye Hzd Hyoe Hdoe. Z.div_mod_to_equations. lia.
  - destruct (Z.leb_spec (mp - 9) 2); [|lia].
    destruct (Z.ltb_spec 2 (mp - 9)); [lia|].
    replace (mp - 9 + 9) with mp by lia.
    replace (yoe + era * 400 + 1 - 1) with (yoe + era * 400) by lia.
    replace ((yoe + era * 400) / 400) with era
      by (clear -Hyoe; Z.div_mod_to_equations; lia).
    replace (yoe + era * 400 - era * 400) with yoe by lia.
    clear -Hmp Hmpe Hdoy Hz Hdoye Hzd Hyoe Hdoe. Z.div_mod_to_equations. lia.
Qed.

(** The start of the month of a valid time value of a year from 100 on is
    a valid time value. *)
Lemma month_start_valid t :
  Z.abs t <= maxTime → 100 <= YearFromTime t →
  Z.abs (days_from_civil (YearFromTime t) (MonthFromTime t + 1) 1 * msPerDay)
    <= maxTime.
Proof.
  intros Ht Hy. unfold YearFromTime, MonthFromTime in *.
  destruct (civil_month_start (Day t)) as (Hstart & Hdd & Hlow).
  replace ((civil_from_days (Day t)).1.2 - 1 + 1)
    with ((civil_from_days (Day t)).1.2) by lia.
  rewrite Hstart. specialize (Hlow Hy).
  unfold Day, msPerDay, maxTime in *.
  clear -Ht Hdd Hlow. Z.div_mod_to_equations. lia.
Qed.

Lemma century_month_start_valid y m1 :
  0 <= y <= 99 → 1 <= m1 <= 12 →
  Z.abs (days_from_civil (1900 + y) m1 1 * msPerDay) <= maxTime.
Proof.
  intros Hy Hm. unfold days_from_civil, msPerDay, maxTime. cbv zeta.
  destruct (Z.leb_spec m1 2); destruct (Z.ltb_spec 2 m1); try lia;
    clear -Hy Hm; Z.div_mod_to_equations; lia.
Qed.

Lemma monthPart_inj m m' :
  0 <= m <= 11 → 0 <= m' <= 11 → monthPart m = monthPart m' → m = m'.
Proof.
  intros Hm Hm' Heq.
  assert (∀ a b, 0 <= a → a < b → b <= 11 →
                 String.compare (monthPart a) (monthPart b) = Lt) as Hmonth.
  { intros a b ? ? ?.
    apply (stepsUp_increasing _ _ _ a b monthPart_stepsUp); lia. }
  destruct (Z.lt_total m m') as [Hlt|[->|Hgt]]; [|done|].
  - specialize (Hmonth m m' ltac:(lia) Hlt ltac:(lia)).
    by rewrite Heq, string_compare_refl in Hmonth.
  - specialize (Hmonth m' m ltac:(lia) Hgt ltac:(lia)).
    by rewrite Heq, string_compare_refl in Hmonth.
Qed.

(** An entry whose key is the key of year [y >= 0] and month [m] is dated
    in that month. *)
Lemma monthKey_keyYM_inv e y m :
  0 <= y → 0 <= m <= 11 → monthKey e = keyYM y m → datedIn y m e.
Proof.
  intros Hy Hm Hkey.
  pose proof (split_dash_keyYM y m Hy ltac:(lia)) as Hsplit.
  destruct (newDate (parseTimestamp e)) as [t|] eqn:Hd.
  - apply newDate_Some in Hd as [Hp Hc].
    rewrite (monthKey_valid e t Hp Hc) in Hkey.
    pose proof (MonthFromTime_range t) as Hm'.
    destruct (Z.lt_ge_cases (YearFromTime t) 0) as [Hneg|Hpos].
    + exfalso. rewrite <- Hkey in Hsplit.
      destruct (YearFromTime t) as [|p|p]; [lia..|].
      unfold keyYM, yearPart in Hsplit.
      change (numToString (Some (Z.neg p)))
        with (String "-" (NilZero.string_of_uint (Pos.to_uint p))) in Hsplit.
      rewrite split_dash_split in Hsplit. unfold split_on in Hsplit.
      simpl in Hsplit. injection Hsplit as Hempty _.
      by destruct (numToString_digits y Hy) as [_ []].
    + rewrite <- Hkey, split_dash_keyYM in Hsplit by lia.
      injection Hsplit as Hy' Hm''.
      apply numToString_inj in Hy'.
      assert (MonthFromTime t = m) as Hmeq.
      { apply monthPart_inj; [done..|]. unfold monthPart.
        apply (f_equal (String.append "-")). exact Hm''. }
      by exists t.
  - exfalso. rewrite (monthKey_invalid e Hd) in Hkey.
    rewrite <- Hkey in Hsplit.
    change (split_dash "NaN-NaN") with ["NaN"; "NaN"] in Hsplit.
    injection Hsplit as Hnan _.
    destruct (numToString_digits y Hy) as [Hdig _].
    unfold yearPart in Hnan. by rewrite <- Hnan in Hdig.
Qed.

(** X8: a selected month whose year or month does not read as a number -
    or that has no dash, so that the month is missing - selects no entry:
    [buildMonthAgg] returns two empty maps and throws nothing. *)
Theorem buildMonthAgg_malformed_month (entries : list entry)
    (selectedMonth : string) :
  freeOf "-" selectedMonth = true
  ∨ (yearMonth selectedMonth).1 = None
  ∨ (yearMonth selectedMonth).2 = None →
  buildMonthAgg entries selectedMonth
  = {| byTicker := JsMap.empty; firstByUserCounts := JsMap.empty |}.
Proof.
  intros H.
  assert ((yearMonth selectedMonth).1 = None
          ∨ (yearMonth selectedMonth).2 = None) as Hnan.
  { destruct H as [Hfree|H]; [|done]. right.
    unfold yearMonth. rewrite split_dash_split. unfold split_on.
    by rewrite split_aux_free. }
  assert (monthStartOf selectedMonth = None) as Hstart.
  { unfold monthStartOf. destruct (yearMonth selectedMonth) as [y m].
    simpl in Hnan. unfold startOfMonthUTC, Date_UTC.
    destruct Hnan as [->| ->]; [done|]. by destruct y. }
  assert (monthEntries entries selectedMonth = []) as Hnone.
  { unfold monthEntries. rewrite Hstart. cbv zeta.
    induction entries as [|e l IH]; [done|].
    rewrite filter_cons, IH. rewrite decide_False; [done|].
    intros Hin. apply isInMonth_iff in Hin as (? & ? & _ & ? & _). done. }
  unfold buildMonthAgg. by rewrite Hnone.
Qed.

(** X9: for an entry dated in a year from 100 on, whose key's two parts
    [Number] reads back, [buildMonthAgg] called with that key selects
    exactly the entries that have the same key - the entry itself among
    them.  So each such month [getAvailableMonths] offers shows the
    entries it was offered for. *)
Theorem monthKey_round_trip (entries : list entry) (e : entry) (t : Z) :
  parseTimestamp e = Some t → Z.abs t <= maxTime →
  100 <= YearFromTime t →
  Number (yearPart (YearFromTime t)) = Some (YearFromTime t) →
  Number (padStart2 (numToString (Some (MonthFromTime t + 1))))
    = Some (MonthFromTime t + 1) →
  (∀ e', e' ∈ monthEntries entries (monthKey e) ↔
         e' ∈ entries ∧ monthKey e' = monthKey e)
  ∧ (e ∈ entries →
     monthKey e ∈ getAvailableMonths entries
     ∧ e ∈ monthEntries entries (monthKey e)).
Proof.
  intros Hp Hc Hy HNy HNm.
  pose proof (MonthFromTime_range t) as Hm.
  pose proof (monthKey_valid e t Hp Hc) as Hkey.
  assert (yearMonth (monthKey e)
          = (Some (YearFromTime t), Some (MonthFromTime t + 1))) as Hym.
  { unfold yearMonth. rewrite Hkey, split_dash_keyYM by lia.
    transitivity
      (Number (yearPart (YearFromTime t)),
       Number (padStart2 (numToString (Some (MonthFromTime t + 1)))));
      [reflexivity|]. by rewrite HNy, HNm. }
  pose proof (λ e', monthEntries_calendar entries (monthKey e)
                      (YearFromTime t) (MonthFromTime t + 1) e' Hym
                      ltac:(lia)) as Hcal.
  cbv zeta in Hcal.
  replace ((0 <=? YearFromTime t) && (YearFromTime t <=? 99)) with false
    in Hcal by (symmetry; apply andb_false_iff; lia).
  specialize (λ e', Hcal e' (month_start_valid t Hc Hy)).
  replace (MonthFromTime t + 1 - 1) with (MonthFromTime t) in Hcal by lia.
  assert (∀ e', e' ∈ monthEntries entries (monthKey e) ↔
                e' ∈ entries ∧ monthKey e' = monthKey e) as Hiff.
  { intros e'. rewrite Hcal. split.
    - intros [He' (t' & Hp' & Hc' & Hy' & Hm')]. split; [done|].
      rewrite (monthKey_valid e' t' Hp' Hc'), Hkey. by rewrite Hy', Hm'.
    - intros [He' Hk]. split; [done|].
      apply monthKey_keyYM_inv; [lia|done|]. by rewrite Hk. }
  split; [done|]. intros He. split.
  - apply getAvailableMonths_elem_of. by exists e.
  - by apply Hiff.
Qed.

(** X10: for an entry dated in a year from 0 to 99, the key reads back as
    a year of the twentieth century ([Date.UTC] takes a year below 100 as
    19xx): [buildMonthAgg] called with the entry's key selects the
    entries of the same month 1900 years later, and not the entry. *)
Theorem monthKey_two_digit_year (entries : list entry) (e : entry) (t : Z) :
  parseTimestamp e = Some t → Z.abs t <= maxTime →
  0 <= YearFromTime t <= 99 →
  Number (yearPart (YearFromTime t)) = Some (YearFromTime t) →
  Number (padStart2 (numToString (Some (MonthFromTime t + 1))))
    = Some (MonthFromTime t + 1) →
  (∀ e', e' ∈ monthEntries entries (monthKey e) ↔
         e' ∈ entries
         ∧ datedIn (1900 + YearFromTime t) (MonthFromTime t) e')
  ∧ e ∉ monthEntries entries (monthKey e).
Proof.
  intros Hp Hc Hy HNy HNm.
  pose proof (MonthFromTime_range t) as Hm.
  pose proof (monthKey_valid e t Hp Hc) as Hkey.
  assert (yearMonth (monthKey e)
          = (Some (YearFromTime t), Some (MonthFromTime t + 1))) as Hym.
  { unfold yearMonth. rewrite Hkey, split_dash_keyYM by lia.
    transitivity
      (Number (yearPart (YearFromTime t)),
       Number (padStart2 (numToString (Some (MonthFromTime t + 1)))));
      [reflexivity|]. by rewrite HNy, HNm. }
  pose proof (λ e', monthEntries_calendar entries (monthKey e)
                      (YearFromTime t) (MonthFromTime t + 1) e' Hym
                      ltac:(lia)) as Hcal.
  cbv zeta in Hcal.
  replace ((0 <=? YearFromTime t) && (YearFromTime t <=? 99)) with true
    in Hcal by (symmetry; apply andb_true_iff; lia).
  specialize (λ e', Hcal e'
    (century_month_start_valid (YearFromTime t) (MonthFromTime t + 1)
       Hy ltac:(lia))).
  replace (MonthFromTime t + 1 - 1) with (MonthFromTime t) in Hcal by lia.
  split; [done|].
  rewrite Hcal. intros [_ (t' & Hp' & _ & Hy' & _)].
  assert (t' = t) as -> by congruence. lia.
Qed.

(** *** The series cache and the resolved prices *)

Section Series.

Local Open Scope list_scope.

(** X11: [fetchBasisAndLatest] only ever adds to the series cache.  No
    binding is removed or overwritten, only the key [symbol|range] of the
    call can change, and after the call that key is bound exactly when it
    was bound before or the provider returned a series - whether or not
    the resolution on that series then throws.  A failed fetch is not
    cached. *)
Theorem fetchBasisAndLatest_cache (net : string → string → fetched)
    (now now' : Z) (chartCache : gmap string chart) (sym : string)
    (mentionTs : option Z) (opts : options) (month : string) :
  let range :=
    rangeOf (elapsedDays now now' (fetchFrom mentionTs opts month)) in
  let key := cacheKeyOf sym range in
  let cache' :=
    (fetchBasisAndLatest net now now' chartCache sym mentionTs opts month).2 in
  chartCache ⊆ cache'
  ∧ (∀ k, k ≠ key → cache' !! k = chartCache !! k)
  ∧ (is_Some (cache' !! key) ↔
     is_Some (chartCache !! key) ∨ ∃ r, net sym range = Result r)
  ∧ (cache' = chartCache ∨ ∃ r, cache' = <[key := parseChart r]> chartCache).
Proof.
  intros range key cache'. unfold cache', fetchBasisAndLatest, getYahooChart.
  fold range. fold key.
  destruct (chartCache !! key) as [ch|] eqn:Hkey; simpl.
  - split_and!; [done|done| |by left].
    split; [by left|]. intros _. by rewrite Hkey.
  - destruct (net sym range) as [| |r] eqn:Hnet; simpl.
    + split_and!; [done|done| |by left].
      rewrite Hkey. split; [by left|]. intros [?|[r ?]]; done.
    + split_and!; [done|done| |by left].
      rewrite Hkey. split; [by left|]. intros [?|[r ?]]; done.
    + split_and!.
      * by apply insert_subseteq.
      * intros k Hk. by rewrite lookup_insert_ne.
      * rewrite lookup_insert_eq. split; [|done]. intros _. right. by exists r.
      * right. by exists r.
Qed.

Lemma find_reverse_spec {A} (P : A → bool) (l : list A) :
  match List.find P (reverse l) with
  | None => Forall (λ v, P v = false) l
  | Some v => ∃ l1 l2, l = l1 ++ v :: l2 ∧ P v = true
                       ∧ Forall (λ v, P v = false) l2
  end.
Proof.
  induction l as [|x l IH] using rev_ind; [by constructor|].
  rewrite reverse_snoc. simpl. destruct (P x) eqn:Hx.
  - exists l, []. by repeat split.
  - destruct (List.find P (reverse l)) as [v|].
    + destruct IH as (l1 & l2 & -> & Hv & Hl2).
      exists l1, (l2 ++ [x]). rewrite <- app_assoc. split_and!; [done..|].
      apply Forall_app. split; [done|]. by repeat constructor.
    + apply Forall_app. split; [done|]. by repeat constructor.
Qed.

(** X12: the [lastClose] of a parsed response is the last close that is
    neither null nor non-finite, and undefined when there is none; the
    closes are those of the quote, or the adjusted closes when the quote
    has none; [lastPrice] is the market price of the meta data unless that
    is null or missing, and then it is [lastClose]. *)
Theorem parseChart_lastClose (r : yresult) :
  let ch := parseChart r in
  (match default [] (r_quote r ≫= q_close), r_adjclose r with
   | [], Some adj => closes ch = adj
   | quoted, _ => closes ch = quoted
   end)
  ∧ ((lastClose ch = JUndef ∧ Forall (λ v, usable v = false) (closes ch))
     ∨ ∃ l1 l2, closes ch = l1 ++ lastClose ch :: l2
                ∧ usable (lastClose ch) = true
                ∧ Forall (λ v, usable v = false) l2)
  ∧ lastPrice ch
    = (if eqNull (from_option regularMarketPrice JUndef (r_meta r))
       then lastClose ch
       else from_option regularMarketPrice JUndef (r_meta r))
  ∧ timestamps ch = (λ s, s * 1000) <$> default [] (r_timestamp r).
Proof.
  intros ch. split_and!.
  - unfold ch, parseChart. simpl.
    by destruct (default [] (r_quote r ≫= q_close)), (r_adjclose r).
  - unfold ch, parseChart. simpl. unfold lastFinite.
    match goal with
    | |- context [List.find usable (reverse ?l)] =>
        pose proof (find_reverse_spec usable l) as Hspec;
        destruct (List.find usable (reverse l)) as [v|]
    end; simpl.
    + right. destruct Hspec as (l1 & l2 & Hl & Hv & Hl2). by exists l1, l2.
    + by left.
  - done.
  - done.
Qed.

Lemma gapFill_origin cur rest :
  gapFill cur rest = cur ∨ gapFill cur rest ∈ rest.
Proof.
  induction rest as [|x rest IH]; simpl; [by left|].
  destruct (usable cur); [by left|].
  destruct (usable x); [right; by left|].
  destruct IH as [->|Hin]; [by left|]. right. by right.
Qed.

Lemma startPrice_origin xs idx :
  startPrice xs idx = JUndef ∨ startPrice xs idx ∈ xs.
Proof.
  unfold startPrice.
  destruct (gapFill_origin (default JUndef (xs !! idx)) (drop idx xs))
    as [->|Hin].
  - destruct (xs !! idx) as [x|] eqn:Hx; [|by left].
    right. by eapply list_elem_of_lookup_2.
  - right. apply list_elem_of_lookup in Hin as [i Hi].
    rewrite lookup_drop in Hi. by eapply list_elem_of_lookup_2.
Qed.

Lemma gt0_not_null v : gt0 v = true → eqNull v = false.
Proof. by destruct v as [| |[]]. Qed.

(** X13: when the resolution does not throw, its basis is a value of the
    series - an element of [opens] or of [closes], never null or
    undefined - and its latest is the series' [lastPrice] or [lastClose];
    and the series holds a price greater than 0.  On a series without any
    such price, an empty one above all, the resolution throws. *)
Theorem resolveOn_from_series (ch : chart) (mentionTs : option Z)
    (opts : options) (month : string) (bl : basisLatest) :
  resolveOn ch mentionTs opts month = Ok bl →
  (basis bl ∈ opens ch ∨ basis bl ∈ closes ch)
  ∧ eqNull (basis bl) = false
  ∧ (latest bl = lastPrice ch ∨ latest bl = lastClose ch)
  ∧ eqNull (latest bl) = false
  ∧ (∃ x, (x ∈ opens ch ∨ x ∈ closes ch) ∧ gt0 x = true)
  ∧ (gt0 (lastPrice ch) = true ∨ gt0 (lastClose ch) = true).
Proof.
  intros Hres.
  destruct (resolveOn_Ok ch mentionTs opts month bl Hres)
    as (idx & _ & Hstart & Hlast & Hbasis & Hlatest).
  set (o := startPrice (opens ch) idx) in *.
  set (c := startPrice (closes ch) idx) in *.
  assert (∀ v, gt0 v = true → v ≠ JUndef) as Hundef by (by intros [| |]).
  assert (gt0 o = true → o ∈ opens ch) as Ho.
  { intros Hg. by destruct (startPrice_origin (opens ch) idx) as [Hu|?];
      [apply Hundef in Hg|]. }
  assert (gt0 c = true → c ∈ closes ch) as Hc.
  { intros Hg. by destruct (startPrice_origin (closes ch) idx) as [Hu|?];
      [apply Hundef in Hg|]. }
  assert (∀ a b, gt0 a = true ∨ gt0 b = true →
                 eqNull (coalesce a b) = false
                 ∧ (coalesce a b = a ∧ eqNull a = false
                    ∨ coalesce a b = b ∧ gt0 b = true)) as Hco.
  { intros a b Hab. unfold coalesce. destruct (eqNull a) eqn:Ha.
    - destruct Hab as [Hga|Hgb].
      + apply gt0_not_null in Hga. congruence.
      + split; [by apply gt0_not_null|]. by right.
    - split; [done|]. by left. }
  assert (∀ xs, eqNull (startPrice xs idx) = false →
                startPrice xs idx ∈ xs) as Hin.
  { intros xs Hn. destruct (startPrice_origin xs idx) as [Hu|?]; [|done].
    by rewrite Hu in Hn. }
  split_and!.
  - rewrite Hbasis. destruct (decide (default "oc" (mode opts) = "cc")).
    + destruct (Hco c o ltac:(by destruct Hstart; [right|left]))
        as [_ [[-> Hn]|[-> Hg]]]; [right; by apply Hin|left; by apply Ho].
    + destruct (Hco o c Hstart)
        as [_ [[-> Hn]|[-> Hg]]]; [left; by apply Hin|right; by apply Hc].
  - rewrite Hbasis. destruct (decide (default "oc" (mode opts) = "cc")).
    + by apply Hco; destruct Hstart; [right|left].
    + by apply Hco.
  - rewrite Hlatest. unfold coalesce.
    destruct (decide (default "oc" (mode opts) = "cc")).
    + destruct (eqNull (lastClose ch)); [by left|by right].
    + destruct (eqNull (lastPrice ch)); [by right|by left].
  - rewrite Hlatest. destruct (decide (default "oc" (mode opts) = "cc")).
    + by apply Hco; destruct Hlast; [right|left].
    + by apply Hco.
  - destruct Hstart as [Hg|Hg].
    + exists o. split; [left; by apply Ho|done].
    + exists c. split; [right; by apply Hc|done].
  - done.
Qed.

End Series.

(** *** Paged replies *)

Section Paged.

Local Open Scope list_scope.

Lemma string_length_append (a b : string) :
  String.length (String.append a b) = (String.length a + String.length b)%nat.
Proof.
  induction a as [|x a IH]; [done|].
  change (S (String.length (String.append a b))
          = S (String.length a + String.length b)). by rewrite IH.
Qed.

Lemma renderLines_snoc g ln :
  renderLines (g ++ [ln])
  = String.append (renderLines g) (String.append ln nl).
Proof.
  induction g as [|x g IH]; simpl.
  - by rewrite string_append_empty.
  - rewrite IH. by rewrite !string_append_assoc.
Qed.

Lemma renderLines_empty g : renderLines g = "" ↔ g = [].
Proof.
  split; [|by intros ->]. destruct g as [|x g]; [done|]. simpl.
  intros H. apply (f_equal String.length) in H.
  rewrite !string_length_append in H. simpl in H. lia.
Qed.

Lemma pageStep_inv seen st gcur gs ln :
  pagedInv seen st gcur gs →
  ∃ gcur' gs', pagedInv (seen ++ [ln]) (pageStep st ln) gcur' gs'.
Proof.
  intros (Hcur & Hchunks & Hseen & Hne & Hgs & Htail & Hlong).
  destruct st as [cur chunks]. simpl in Hcur, Hchunks. unfold pageStep.
  destruct (1800 <? String.length cur + String.length ln + 1)%nat eqn:Hpush.
  - exists [ln], (gs ++ [gcur]). unfold pagedInv.
    cbn [fst snd]. split_and!.
    + simpl. by rewrite string_append_empty.
    + by rewrite fmap_app, Hchunks, Hcur.
    + rewrite concat_app. simpl. rewrite app_nil_r. by rewrite Hseen.
    + done.
    + intros _. by destruct seen.
    + destruct gs as [|g gs]; [done|]. simpl. simpl in Htail.
      apply Forall_app. split; [done|]. constructor; [|done].
      apply Hne, Hgs. done.
    + destruct gs as [|g gs]; simpl.
      * intros [= ->]. simpl in Hseen. subst seen. exists ln.
        split; [done|]. simpl in Hcur. subst cur.
        apply Nat.ltb_lt in Hpush. simpl in Hpush. lia.
      * intros Hg. destruct (Hlong Hg) as (ln' & Hhead & Hlen).
        exists ln'. split; [|done]. by destruct seen.
  - exists (gcur ++ [ln]), gs. unfold pagedInv.
    cbn [fst snd]. split_and!.
    + by rewrite renderLines_snoc, Hcur.
    + done.
    + by rewrite app_assoc, Hseen.
    + intros _. by destruct gcur.
    + intros _. by destruct seen.
    + done.
    + intros Hg. destruct (Hlong Hg) as (ln' & Hhead & Hlen).
      exists ln'. split; [|done]. by destruct seen.
Qed.

Lemma foldl_pageStep_inv lines seen st gcur gs :
  pagedInv seen st gcur gs →
  ∃ gcur' gs', pagedInv (seen ++ lines) (foldl pageStep st lines) gcur' gs'.
Proof.
  revert seen st gcur gs. induction lines as [|ln lines IH];
    intros seen st gcur gs Hinv.
  - rewrite app_nil_r. by exists gcur, gs.
  - simpl. destruct (pageStep_inv seen st gcur gs ln Hinv)
      as (gcur' & gs' & Hinv').
    destruct (IH _ _ _ _ Hinv') as (gcur'' & gs'' & Hinv'').
    exists gcur'', gs''. by rewrite <- app_assoc in Hinv''.
Qed.

(** The chunks are the texts of consecutive groups of whole lines. *)
Lemma pageChunks_groups lines :
  lines ≠ [] →
  ∃ g gs,
    concat (g :: gs) = lines ∧ Forall (λ g, g ≠ []) gs
    ∧ pageChunks lines = renderLines <$> (g :: gs)
    ∧ (g = [] → ∃ ln, head lines = Some ln
                      ∧ (1800 <= String.length ln)%nat).
Proof.
  intros Hlines.
  assert (pagedInv [] ("", []) [] []) as Hinit.
  { unfold pagedInv. simpl. split_and!; try done. }
  destruct (foldl_pageStep_inv lines [] ("", []) [] [] Hinit)
    as (gcur & gs & Hcur & Hchunks & Hseen & Hne & Hgs & Htail & Hlong).
  simpl in Hseen, Hne, Hgs, Hlong. specialize (Hne Hlines).
  assert (∃ g gs', gs ++ [gcur] = g :: gs') as (g & gs' & Hg).
  { destruct gs as [|g gs]; [by exists gcur, []|]. by exists g, (gs ++ [gcur]). }
  exists g, gs'. split_and!.
  - rewrite <- Hg, concat_app. simpl. by rewrite app_nil_r.
  - assert (gs' = drop 1 (gs ++ [gcur])) as -> by (by rewrite Hg).
    destruct gs as [|g0 gs]; simpl; [done|].
    apply Forall_app. split; [done|]. by constructor.
  - rewrite <- Hg. unfold pageChunks.
    destruct (foldl pageStep ("", []) lines) as [cur chunks].
    simpl in Hcur, Hchunks.
    rewrite decide_False.
    + by rewrite fmap_app, Hchunks, Hcur.
    + by rewrite Hcur, renderLines_empty.
  - intros ->. destruct gs as [|g0 gs].
    + simpl in Hg. injection Hg as Hg _. by subst gcur.
    + simpl in Hg. injection Hg as Hg _. subst g0. by apply Hlong.
Qed.

(** X14: for a non-empty list of lines [sendPaged] splits the lines into
    consecutive groups without cutting or dropping a line: the first
    reply is the title followed by the first group, each further group is
    one follow-up, and every message text is the group's lines, each with
    its line feed.  No group after the first is empty, and the first is
    empty only when the first line alone has 1800 characters or more. *)
Theorem sendPaged_groups (acknowledged : bool) (title : string)
    (lines : list string) :
  lines ≠ [] →
  ∃ g gs,
    concat (g :: gs) = lines
    ∧ Forall (λ g, g ≠ []) gs
    ∧ (g = [] → ∃ ln, head lines = Some ln
                      ∧ (1800 <= String.length ln)%nat)
    ∧ sendPaged acknowledged title lines
      = (if acknowledged then [] else [DeferReply])
        ++ EditReply
             (String.append "**"
                (String.append title
                   (String.append "**"
                      (String.append nl (renderLines g)))))
           :: ((λ g, FollowUp (renderLines g)) <$> gs).
Proof.
  intros Hlines.
  destruct (pageChunks_groups lines Hlines)
    as (g & gs & Hconcat & Hgs & Hchunks & Hfirst).
  exists g, gs. split_and!; [done..|].
  unfold sendPaged. destruct lines as [|ln lines]; [done|].
  rewrite Hchunks.
  change (λ g, FollowUp (renderLines g)) with (FollowUp ∘ renderLines).
  by rewrite (list_fmap_compose renderLines FollowUp).
Qed.


End Paged.

(** *** The per-message selection *)

Section Selection.

Local Open Scope list_scope.

Lemma string_append_nonempty a b : b ≠ "" → String.append a b ≠ "".
Proof.
  intros Hb H. apply (f_equal String.length) in H.
  rewrite string_length_append in H. destruct b; [done|]. simpl in H. lia.
Qed.

Lemma orStr_nonempty x d : d ≠ "" → orStr x d ≠ "".
Proof.
  intros Hd. unfold orStr. destruct x as [s|]; [|done].
  by destruct (decide (s = "")).
Qed.

Lemma orStr_Some s d : s ≠ "" → orStr (Some s) d = s.
Proof. intros Hs. unfold orStr. by rewrite decide_False. Qed.

Lemma currentMonthKey_nonempty now1 now2 : currentMonthKey now1 now2 ≠ "".
Proof.
  unfold currentMonthKey. apply string_append_nonempty.
  by change (String.append "-" ?s) with (String "-" s).
Qed.

Lemma stateKey_inj m u m' u' :
  freeOf ":" m = true → freeOf ":" m' = true →
  stateKey m u = stateKey m' u' → m = m' ∧ u = u'.
Proof.
  intros Hm Hm' Hkey. unfold stateKey in Hkey.
  change (String.append ":" ?s) with (String ":" s) in Hkey.
  pose proof (f_equal (split_aux ":" "") Hkey) as Hsplit.
  rewrite !split_aux_app in Hsplit by done.
  injection Hsplit as Hmm _. change (m = m') in Hmm. subst m'.
  split; [done|].
  apply String.app_inj in Hkey. by injection Hkey.
Qed.

(** X16: a selection reads back.  After the metric branch the selected
    metric of that message and user is the chosen value ([month_oc] when
    none was sent) and their month is as before; after the month branch
    their month is the chosen value - when none was sent, the month in
    force at that moment, which is thereby pinned whatever the clock says
    later - and their metric is as before.  The dashboard itself starts
    on [month_oc]. *)
Theorem selection_round_trip (metricState : gmap string selection)
    (messageId userId : string) (values : list string) (now1 now2 : Z) :
  let inMetric := selectMetric metricState messageId userId values in
  let inMonth :=
    selectMonth metricState messageId userId values now1 now2 in
  getSelectedMetricForMessage inMetric messageId userId
    = orStr (head values) "month_oc"
  ∧ (∀ n1 n2,
       getSelectedMonthForMessage inMetric messageId userId n1 n2
       = getSelectedMonthForMessage metricState messageId userId n1 n2)
  ∧ (∀ n1 n2,
       getSelectedMonthForMessage inMonth messageId userId n1 n2
       = orStr (head values)
           (getSelectedMonthForMessage metricState messageId userId
              now1 now2))
  ∧ getSelectedMetricForMessage inMonth messageId userId
    = getSelectedMetricForMessage metricState messageId userId
  ∧ (∀ month,
       getSelectedMetricForMessage
         (recordDashboard metricState messageId userId month)
         messageId userId = "month_oc").
Proof.
  intros inMetric inMonth.
  unfold inMetric, inMonth, selectMetric, selectMonth, recordDashboard,
    getSelectedMetricForMessage.
  split_and!.
  - rewrite lookup_insert_eq. simpl.
    apply orStr_Some, orStr_nonempty. done.
  - intros n1 n2. unfold getSelectedMonthForMessage.
    rewrite lookup_insert_eq. simpl. done.
  - intros n1 n2. unfold getSelectedMonthForMessage at 1.
    rewrite lookup_insert_eq. simpl.
    apply orStr_Some, orStr_nonempty, orStr_nonempty,
      currentMonthKey_nonempty.
  - rewrite lookup_insert_eq. simpl. done.
  - intros month. rewrite lookup_insert_eq. simpl. done.
Qed.

(** X17: selections do not leak.  For message ids without a colon, what
    one user selects on one message - metric or month - or the recording
    of a new dashboard leaves the selected metric and month of every other
    pair of message and user as they were. *)
Theorem selection_isolated (metricState : gmap string selection)
    (messageId userId messageId' userId' : string) (values : list string)
    (now1 now2 : Z) (month : string) (after : gmap string selection) :
  freeOf ":" messageId = true → freeOf ":" messageId' = true →
  (messageId, userId) ≠ (messageId', userId') →
  after = selectMetric metricState messageId userId values
  ∨ after = selectMonth metricState messageId userId values now1 now2
  ∨ after = recordDashboard metricState messageId userId month →
  getSelectedMetricForMessage after messageId' userId'
    = getSelectedMetricForMessage metricState messageId' userId'
  ∧ ∀ n1 n2,
      getSelectedMonthForMessage after messageId' userId' n1 n2
      = getSelectedMonthForMessage metricState messageId' userId' n1 n2.
Proof.
  intros Hm Hm' Hne Hafter.
  assert (stateKey messageId userId ≠ stateKey messageId' userId') as Hkey.
  { intros Heq. apply stateKey_inj in Heq as [-> ->]; done. }
  assert (after !! stateKey messageId' userId'
          = metricState !! stateKey messageId' userId') as Hsame.
  { destruct Hafter as [->|[->| ->]];
      unfold selectMetric, selectMonth, recordDashboard;
      by rewrite lookup_insert_ne. }
  unfold getSelectedMetricForMessage, getSelectedMonthForMessage.
  by rewrite Hsame.
Qed.

(** X18: every metric the menu offers is decoded to the anchor and the
    mode its value names, and any other metric to the month anchor in mode
    [oc]. *)
Theorem metricToComputeOpts_choices (metric : string) :
  (metric ∈ METRIC_CHOICES.*2 →
   ∃ a m,
     metricToComputeOpts metric = {| anchor := Some a; mode := Some m |}
     ∧ metric = String.append a (String.append "_" m)
     ∧ (a = "month" ∨ a = "mention") ∧ (m = "oc" ∨ m = "cc"))
  ∧ (metric ∉ METRIC_CHOICES.*2 →
     metricToComputeOpts metric
     = {| anchor := Some "month"; mode := Some "oc" |}).
Proof.
  split.
  - simpl. rewrite !elem_of_cons, elem_of_nil.
    intros [->|[->|[->|[->|[]]]]].
    + exists "month", "oc". split_and!; [done|done|by left|by left].
    + exists "month", "cc". split_and!; [done|done|by left|by right].
    + exists "mention", "oc". split_and!; [done|done|by right|by left].
    + exists "mention", "cc". split_and!; [done|done|by right|by right].
  - simpl. rewrite !elem_of_cons, elem_of_nil. intros Hnot.
    unfold metricToComputeOpts.
    repeat (destruct (decide _) as [->|_];
            [exfalso; apply Hnot; auto 6|]).
    done.
Qed.

Lemma split_mine uid :
  freeOf ":" uid = true →
  split_on ":" (String.append "dash:mine:" uid) = ["dash"; "mine"; uid].
Proof.
  intros Hfree. unfold split_on.
  change (String.append "dash:mine:" uid)
    with (String.append "dash"
            (String ":" (String.append "mine" (String ":" uid)))).
  rewrite split_aux_app by done. rewrite split_aux_app by done.
  by rewrite split_aux_free.
Qed.

(** X19: the [Mine] button carries the id of the user the dashboard was
    built for, and the handler reads it back: for a user id without a
    colon, a click on [Mine] lists that user's first mentions, whoever
    clicks; only for an empty id it falls back to the clicking user. *)
Theorem mine_button_round_trip (userOptions : list menuOption)
    (currentUserId : string) (currentMetric : option string)
    (availableMonths : list string) (selectedMonth : string)
    (cid clickerId : string) (style : buttonStyle) :
  freeOf ":" currentUserId = true →
  Button cid style "Mine"
    ∈ concat (buildDashboardComponents userOptions currentUserId
                currentMetric availableMonths selectedMonth) →
  cid = String.append "dash:mine:" currentUserId
  ∧ mineTarget cid clickerId = orStr (Some currentUserId) clickerId.
Proof.
  intros Hfree Hin.
  assert (cid = String.append "dash:mine:" currentUserId) as ->.
  { unfold buildDashboardComponents in Hin. cbv zeta in Hin.
    rewrite !concat_app in Hin. simpl in Hin.
    destruct userOptions as [|o os]; simpl in Hin;
      rewrite ?elem_of_app, !elem_of_cons, ?elem_of_nil in Hin;
      repeat (destruct Hin as [Hin|Hin]); try discriminate Hin; try done;
      by injection Hin as -> _. }
  split; [done|]. unfold mineTarget. by rewrite split_mine.
Qed.

End Selection.

(** *** The dashboard's menus and summary *)

Section Summary.

Local Open Scope list_scope.





Lemma entriesOf_spec {V} (m : JsMap.t V) :
  orderOk m →
  (entriesOf m).*1 = JsMap.order m
  ∧ ∀ k v, (k, v) ∈ entriesOf m ↔ JsMap.get k m = Some v.
Proof.
  intros [Hnodup Hkeys]. unfold entriesOf.
  assert (∀ l, (∀ k, k ∈ l → is_Some (JsMap.get k m)) →
               (omap (λ k, (λ v, (k, v)) <$> JsMap.get k m) l).*1 = l) as Hfst.
  { induction l as [|k l IH]; intros Hl; [done|].
    destruct (Hl k ltac:(by left)) as [v Hv].
    assert (omap (λ k, (λ v, (k, v)) <$> JsMap.get k m) (k :: l)
            = (k, v) :: omap (λ k, (λ v, (k, v)) <$> JsMap.get k m) l) as ->.
    { cbn [omap list_omap]. by rewrite Hv. }
    rewrite fmap_cons. simpl. rewrite IH; [done|].
    intros k' Hk'. apply Hl. by right. }
  split.
  - apply Hfst. intros k Hk. by apply Hkeys.
  - intros k v. rewrite list_elem_of_omap. split.
    + intros (k' & _ & Hk'). destruct (JsMap.get k' m) as [v'|] eqn:Hv';
        [|done]. simpl in Hk'. by injection Hk' as -> ->.
    + intros Hv. exists k. split; [|by rewrite Hv].
      apply Hkeys. by rewrite Hv.
Qed.

Lemma insert_by_key_sorted {A} (cmp : A → A → Z) (key : A → Z) x l :
  (∀ a b, cmp a b <= 0 → key b <= key a) →
  (∀ a b, ¬ cmp a b <= 0 → key a <= key b) →
  StronglySorted (λ a b, key b <= key a) l →
  StronglySorted (λ a b, key b <= key a) (insert_by cmp x l).
Proof.
  intros Hle Hgt. induction 1 as [|y l Hl IH Hy]; simpl.
  - repeat constructor.
  - destruct (Z.leb_spec (cmp x y) 0) as [Hxy|Hxy].
    + constructor; [by constructor|]. constructor; [by apply Hle|].
      apply Forall_forall. intros z Hz.
      eapply Forall_forall in Hy; [|done]. specialize (Hle x y Hxy). lia.
    + constructor; [done|]. rewrite insert_by_Permutation.
      constructor; [|done]. apply Hgt. lia.
Qed.

Lemma js_sort_key_sorted {A} (cmp : A → A → Z) (key : A → Z) l :
  (∀ a b, cmp a b <= 0 → key b <= key a) →
  (∀ a b, ¬ cmp a b <= 0 → key a <= key b) →
  StronglySorted (λ a b, key b <= key a) (js_sort cmp l).
Proof.
  intros Hle Hgt. induction l as [|x l IH]; simpl; [constructor|].
  by apply insert_by_key_sorted.
Qed.

Lemma byCountThenSymbol_key :
  (∀ a b, byCountThenSymbol a b <= 0 →
          Z.of_nat (countMTD b.2) <= Z.of_nat (countMTD a.2))
  ∧ (∀ a b, ¬ byCountThenSymbol a b <= 0 →
            Z.of_nat (countMTD a.2) <= Z.of_nat (countMTD b.2)).
Proof.
  split; intros a b; unfold byCountThenSymbol; cbv zeta;
    destruct (Z.eqb_spec (Z.of_nat (countMTD b.2)
                          - Z.of_nat (countMTD a.2)) 0); lia.
Qed.


Lemma byTicker_orderOk entries month :
  orderOk (byTicker (buildMonthAgg entries month)).
Proof. apply foldl_addMention_orderOk, orderOk_empty. Qed.

(** The first [n] of the ranked aggregates: distinct tickers of the month,
    in descending order of their counts, and none of the others was
    mentioned more often than any of them. *)
Lemma mtdItems_take entries month n :
  let r := buildMonthAgg entries month in
  let count s := countOf (byTicker r) s in
  let top := (take n (mtdItems r)).*1 in
  length top = (n `min` mtdUnique r)%nat
  ∧ NoDup top
  ∧ (∀ s, s ∈ top → is_Some (JsMap.get s (byTicker r)))
  ∧ StronglySorted (λ a b, count b <= count a)%nat top
  ∧ (∀ s s', s ∈ top → is_Some (JsMap.get s' (byTicker r)) → s' ∉ top →
             (count s' <= count s)%nat).
Proof.
  intros r count top.
  destruct (entriesOf_spec (byTicker r) (byTicker_orderOk entries month))
    as [Hfst Hget].
  destruct (byTicker_orderOk entries month) as [Hnodup _]. fold r in Hnodup.
  assert (mtdItems r ≡ₚ entriesOf (byTicker r)) as Hperm
    by apply js_sort_Permutation.
  assert (∀ k v, (k, v) ∈ mtdItems r ↔ JsMap.get k (byTicker r) = Some v)
    as Hitems.
  { intros k v. by rewrite Hperm. }
  assert (NoDup (mtdItems r).*1) as Hnd.
  { rewrite Hperm, Hfst. done. }
  assert (StronglySorted
            (λ a b, Z.of_nat (countMTD b.2) <= Z.of_nat (countMTD a.2))
            (mtdItems r)) as Hsorted.
  { apply (js_sort_key_sorted _ (λ a, Z.of_nat (countMTD a.2)));
      apply byCountThenSymbol_key. }
  assert (∀ it, it ∈ mtdItems r → count it.1 = countMTD it.2) as Hcount.
  { intros [k v] Hin. apply Hitems in Hin. unfold count, countOf.
    cbn [fst snd]. by rewrite Hin. }
  rewrite <- (take_drop n (mtdItems r)) in Hsorted, Hnd.
  apply StronglySorted_app in Hsorted as (Hcross & Htake & _).
  rewrite fmap_app in Hnd. apply NoDup_app in Hnd as (Hndt & Hdisj & _).
  assert (∀ it, it ∈ take n (mtdItems r) → it ∈ mtdItems r) as Hsub.
  { intros it Hit. rewrite <- (take_drop n (mtdItems r)).
    apply elem_of_app. by left. }
  split_and!.
  - unfold top, mtdUnique. rewrite length_fmap, length_take.
    by rewrite Hperm.
  - done.
  - intros s [[k v] [-> Hin]]%list_elem_of_fmap. cbn [fst].
    apply Hsub, Hitems in Hin. by rewrite Hin.
  - unfold top.
    assert (∀ l, (∀ it, it ∈ l → it ∈ mtdItems r) →
                 StronglySorted
                   (λ a b, Z.of_nat (countMTD b.2) <= Z.of_nat (countMTD a.2))
                   l →
                 StronglySorted (λ a b, count b <= count a)%nat l.*1) as Hmap.
    { intros l Hl. induction 1 as [|x l' Hs IH Hx]; [constructor|].
      rewrite fmap_cons. constructor.
      - apply IH. intros it Hit. apply Hl. by right.
      - apply Forall_fmap, Forall_forall. intros y Hy. simpl.
        rewrite (Hcount x) by (apply Hl; by left).
        rewrite (Hcount y) by (apply Hl; by right).
        eapply Forall_forall in Hx; [|done]. lia. }
    by apply Hmap.
  - intros s s' [it [-> Hin]]%list_elem_of_fmap [v' Hv'] Hout.
    apply Hitems in Hv'.
    rewrite <- (take_drop n (mtdItems r)) in Hv'.
    apply elem_of_app in Hv' as [Hv'|Hv'].
    + exfalso. apply Hout. apply list_elem_of_fmap. by exists (s', v').
    + specialize (Hcross it (s', v') Hin Hv'). simpl in Hcross.
      rewrite (Hcount it) by (by apply Hsub).
      assert ((s', v') ∈ mtdItems r) as Hin'.
      { rewrite <- (take_drop n (mtdItems r)). apply elem_of_app. by right. }
      specialize (Hcount _ Hin'). simpl in Hcount. rewrite Hcount. lia.
Qed.

(** X21: the top 10 of the dashboard are distinct tickers of the month,
    all of them when there are at most 10, listed in descending order of
    their counts; no ticker left out was mentioned more often than a
    listed one. *)
Theorem top10_most_mentioned (entries : list entry) (month : string) :
  let r := buildMonthAgg entries month in
  let count s := countOf (byTicker r) s in
  length (top10 r) = (10 `min` mtdUnique r)%nat
  ∧ NoDup (top10 r)
  ∧ (∀ s, s ∈ top10 r → is_Some (JsMap.get s (byTicker r)))
  ∧ StronglySorted (λ a b, count b <= count a)%nat (top10 r)
  ∧ (∀ s s', s ∈ top10 r → is_Some (JsMap.get s' (byTicker r)) →
             s' ∉ top10 r → (count s' <= count s)%nat).
Proof. apply (mtdItems_take entries month 10). Qed.

Lemma foldl_Set_add_spec (l acc : list string) :
  NoDup acc →
  NoDup (foldl (λ s x, Set_add x s) acc l)
  ∧ ∀ k, k ∈ foldl (λ s x, Set_add x s) acc l ↔ k ∈ acc ∨ k ∈ l.
Proof.
  revert acc. induction l as [|x l IH]; intros acc Hacc; simpl.
  - split; [done|]. intros k. rewrite elem_of_nil.
    split; [by left|]. by intros [?|?].
  - destruct (IH (Set_add x acc) (Set_add_NoDup x acc Hacc)) as [Hnd Hin].
    split; [done|]. intros k. rewrite Hin, Set_add_elem_of, elem_of_cons.
    split.
    + intros [[?|?]|?]; [right; by left|by left|right; by right].
    + intros [?|[?|?]]; [left; by right|left; by left|by right].
Qed.

(** X22: the tickers of the month are never more than the tickers
    tracked overall: the count on the line [This month] is at most the
    count on the line [Total Tracked]. *)
Theorem mtdUnique_le_allUnique (entries : list entry) (month : string) :
  (mtdUnique (buildMonthAgg entries month) <= allUnique entries)%nat.
Proof.
  set (r := buildMonthAgg entries month).
  destruct (entriesOf_spec (byTicker r) (byTicker_orderOk entries month))
    as [Hfst _].
  destruct (byTicker_orderOk entries month) as [Hnodup Hkeys].
  fold r in Hnodup, Hkeys.
  unfold mtdUnique, allUnique.
  rewrite <- (length_fmap fst), Hfst.
  set (uppers := filter (λ s, s ≠ "")
                   ((λ e, toUpperCase (orEmpty (ticker e))) <$> entries)).
  destruct (foldl_Set_add_spec uppers [] (NoDup_nil_2 (A:=string))) as [_ Hin].
  apply submseteq_length, NoDup_submseteq; [done|].
  intros k Hk. apply Hin. right.
  apply Hkeys, byTicker_is_Some in Hk as (e & He & Hkey).
  apply monthEntries_elem_of in He as [_ He].
  apply keyOf_Some in Hkey as (Hne & t & Ht & ->).
  apply list_elem_of_filter. split; [done|].
  apply list_elem_of_fmap. exists e. by rewrite Ht.
Qed.



End Summary.

(** *** Alpha Vantage: last close *)

Section AlphaVantage.

Local Open Scope list_scope.

Lemma defaultCompare_le a b :
  defaultCompare a b <= 0 ↔ Host.codeunit_compare a b <= 0.
Proof. done. Qed.

Lemma sorted_last_greatest (l : list string) x :
  StronglySorted (λ a b, defaultCompare a b <= 0) l →
  last l = Some x →
  ∀ y, y ∈ l → defaultCompare y x <= 0.
Proof.
  intros Hsorted Hlast y Hy.
  apply last_Some in Hlast as [l' ->].
  apply elem_of_app in Hy as [Hy|Hy].
  - apply (StronglySorted_app_1_elem_of
             (λ a b, defaultCompare a b <= 0) l' [x] y x Hsorted Hy).
    by left.
  - apply list_elem_of_singleton in Hy as ->.
    unfold defaultCompare. by rewrite string_compare_refl.
Qed.

(** X25: when [getLastClose] returns, its timestamp is the greatest key
    of the series of the requested interval, in code-unit order - the
    latest date for dates written alike - and its close is the number read
    from that bar's [4. close], a finite one. *)
Theorem getLastClose_latest (env : option string)
    (net : string → string → string → avFetched) (sym : string)
    (interval : option string) (close : num) (lastTs : string) :
  getLastClose env net sym interval = inr (close, lastTs) →
  let endpoint := endpointOf (default "daily" interval) in
  ∃ data series c,
    net endpoint sym (KEY env) = AvData data
    ∧ d_series data (seriesKeyOf endpoint) = Some series
    ∧ series !! lastTs = Some (Some c)
    ∧ close = Number_price c
    ∧ Number_isFinite close = true
    ∧ ∀ k, is_Some (series !! k) → String.compare k lastTs ≠ Gt.
Proof.
  unfold getLastClose. cbv zeta.
  destruct (decide (KEY env = "")); [done|].
  destruct (net _ sym (KEY env)) as [| | |data] eqn:Hnet; try done.
  destruct (truthy (d_note data)); [done|].
  destruct (truthy (d_error data)); [done|].
  destruct (d_series data _) as [series|] eqn:Hseries; [|done].
  destruct (last _) as [ts|] eqn:Hlast; [|done].
  destruct (Number_isFinite _) eqn:Hfin; [|done].
  intros [= <- <-].
  assert (StronglySorted (λ a b, defaultCompare a b <= 0)
            (js_sort defaultCompare (map_to_list series).*1)) as Hsorted.
  { apply (js_sort_sorted defaultCompare (λ _, True)).
    - intros a b _ _. apply codeunit_compare_total.
    - intros a b c _ _ _. apply codeunit_compare_trans.
    - by apply Forall_true. }
  assert (∀ k, is_Some (series !! k) → defaultCompare k ts <= 0) as Hmax.
  { intros k [v Hk].
    apply (sorted_last_greatest _ ts Hsorted Hlast).
    rewrite js_sort_Permutation. apply list_elem_of_fmap.
    exists (k, v). split; [done|]. by apply elem_of_map_to_list. }
  destruct (series !! ts) as [[c|]|] eqn:Hbar; try done.
  exists data, series, c. split_and!; try done.
  intros k Hk. specialize (Hmax k Hk). unfold defaultCompare in Hmax.
  destruct (String.compare k ts); [done|done|lia].
Qed.

(** X26: the check for a missing key can never fire - an unset or empty
    variable is replaced by the placeholder [YOUR_API_KEY], which is then
    sent - and the outcome is decided by the one response for the
    endpoint of the interval, the daily one for any interval other than
    [weekly] and [monthly]: a note in the body is a rate-limit error and
    an error message an API error even when the series is there. *)
Theorem getLastClose_request (env : option string)
    (net : string → string → string → avFetched) (sym : string)
    (interval : option string) :
  let endpoint := endpointOf (default "daily" interval) in
  getLastClose env net sym interval ≠ inl MissingKey
  ∧ KEY env ≠ ""
  ∧ (truthy env = false → KEY env = "YOUR_API_KEY")
  ∧ (default "daily" interval ≠ "weekly" →
     default "daily" interval ≠ "monthly" → endpoint = "TIME_SERIES_DAILY")
  ∧ (∀ net', net' endpoint sym (KEY env) = net endpoint sym (KEY env) →
             getLastClose env net' sym interval
             = getLastClose env net sym interval)
  ∧ (∀ data, net endpoint sym (KEY env) = AvData data →
       (truthy (d_note data) = true →
        getLastClose env net sym interval = inl RateLimit)
       ∧ (truthy (d_note data) = false → truthy (d_error data) = true →
          getLastClose env net sym interval = inl ApiError)).
Proof.
  intros endpoint.
  assert (KEY env ≠ "") as Hkey by (by apply orStr_nonempty).
  split_and!.
  - unfold getLastClose. cbv zeta. rewrite decide_False by done.
    destruct (net _ sym (KEY env)) as [| | |data]; try done.
    destruct (truthy (d_note data)); [done|].
    destruct (truthy (d_error data)); [done|].
    destruct (d_series data _) as [series|]; [|done].
    destruct (last _) as [ts|]; [|done].
    by destruct (Number_isFinite _).
  - done.
  - unfold KEY, orStr, truthy. destruct env as [s|]; [|done].
    destruct (decide (s = "")); [done|].
    by rewrite bool_decide_eq_true_2.
  - intros Hw Hm. unfold endpoint, endpointOf.
    by rewrite !decide_False.
  - intros net' Hnet. unfold getLastClose. cbv zeta. fold endpoint.
    by rewrite Hnet.
  - intros data Hnet. unfold getLastClose. cbv zeta. fold endpoint.
    rewrite decide_False by done. rewrite Hnet. split.
    + by intros ->.
    + by intros -> ->.
Qed.

(** X27: when [getATR] returns, its [atr] is the finite number read at
    the greatest key of the ATR series, which is its [timestamp]; its
    [close] is the one [getLastClose] returns for the same symbol and
    interval - read at the greatest key of the price series, which need
    not be the same date - and symbol, interval and period are those
    asked for, the period 14 and the interval [daily] when left out.  It
    is not checked that the close is not 0. *)
Theorem getATR_result (env : option string)
    (netATR : string → string → Z → string → atrFetched)
    (net : string → string → string → avFetched) (sym : string)
    (timePeriod : option Z) (interval : option string) (res : atrResult) :
  getATR env netATR net sym timePeriod interval = inr res →
  ∃ data series raw priceTs,
    netATR sym (default "daily" interval) (default 14 timePeriod) (KEY env)
    = AtrData data
    ∧ a_series data = Some series
    ∧ series !! atr_timestamp res = Some (Some raw)
    ∧ (∀ k, is_Some (series !! k) → String.compare k (atr_timestamp res) ≠ Gt)
    ∧ atr_value res = Number_price raw ∧ Number_isFinite (atr_value res) = true
    ∧ getLastClose env net sym (Some (default "daily" interval))
      = inr (atr_close res, priceTs)
    ∧ atr_pct res = atrPctOf (atr_value res) (atr_close res)
    ∧ atr_symbol res = sym ∧ atr_interval res = default "daily" interval
    ∧ atr_timePeriod res = default 14 timePeriod
    ∧ atr_meta res = a_meta data.
Proof.
  unfold getATR. cbv zeta.
  destruct (decide (KEY env = "")); [done|].
  destruct (netATR sym _ _ (KEY env)) as [| | |data] eqn:Hnet; try done.
  destruct (truthy (a_note data)); [done|].
  destruct (truthy (a_error data)); [done|].
  destruct (a_series data) as [series|] eqn:Hseries; [|done].
  destruct (last _) as [ts|] eqn:Hlast; [|done].
  destruct (Number_isFinite _) eqn:Hfin; [|done]. simpl.
  destruct (getLastClose env net sym _) as [e|[close priceTs]] eqn:Hclose;
    [done|].
  intros [= <-]. simpl.
  assert (StronglySorted (λ a b, defaultCompare a b <= 0)
            (js_sort defaultCompare (map_to_list series).*1)) as Hsorted.
  { apply (js_sort_sorted defaultCompare (λ _, True)).
    - intros a b _ _. apply codeunit_compare_total.
    - intros a b c _ _ _. apply codeunit_compare_trans.
    - by apply Forall_true. }
  assert (∀ k, is_Some (series !! k) → defaultCompare k ts <= 0) as Hmax.
  { intros k [v Hk].
    apply (sorted_last_greatest _ ts Hsorted Hlast).
    rewrite js_sort_Permutation. apply list_elem_of_fmap.
    exists (k, v). split; [done|]. by apply elem_of_map_to_list. }
  destruct (series !! ts) as [[raw|]|] eqn:Hbar; try done.
  exists data, series, raw, priceTs. split_and!; try done.
  intros k Hk. specialize (Hmax k Hk). unfold defaultCompare in Hmax.
  destruct (String.compare k ts); [done|done|lia].
Qed.

(** X28: [getATR] asks for the price only after the ATR response passed
    every check: when the ATR part fails the price request plays no role,
    and when it passes, every failure of [getLastClose] is the failure of
    [getATR]. *)
Theorem getATR_errors (env : option string)
    (netATR : string → string → Z → string → atrFetched)
    (net : string → string → string → avFetched) (sym : string)
    (timePeriod : option Z) (interval : option string) (e : avError) :
  getATR env netATR net sym timePeriod interval = inl e →
  (∀ net', getATR env netATR net' sym timePeriod interval = inl e)
  ∨ (getLastClose env net sym (Some (default "daily" interval)) = inl e
     ∧ ∃ data series,
         netATR sym (default "daily" interval) (default 14 timePeriod)
           (KEY env) = AtrData data
         ∧ truthy (a_note data) = false ∧ truthy (a_error data) = false
         ∧ a_series data = Some series ∧ series ≠ ∅).
Proof.
  unfold getATR. cbv zeta.
  destruct (decide (KEY env = "")); [intros [= <-]; by left|].
  destruct (netATR sym _ _ (KEY env)) as [| | |data] eqn:Hnet;
    try (intros [= <-]; by left).
  destruct (truthy (a_note data)) eqn:Hnote; [intros [= <-]; by left|].
  destruct (truthy (a_error data)) eqn:Herr; [intros [= <-]; by left|].
  destruct (a_series data) as [series|] eqn:Hseries;
    [|intros [= <-]; by left].
  destruct (last _) as [ts|] eqn:Hlast; [|intros [= <-]; by left].
  destruct (Number_isFinite _) eqn:Hfin; [|intros [= <-]; by left]. simpl.
  destruct (getLastClose env net sym _) as [e'|[close priceTs]] eqn:Hclose;
    [|done].
  intros [= <-]. right. split; [done|].
  exists data, series. split_and!; try done.
  intros ->. by rewrite map_to_list_empty in Hlast.
Qed.

End AlphaVantage.

(** *** Labels and short dates *)

Section Dates.

Local Open Scope list_scope.

(** X29: the label of a month key is the month before the year, with a
    dot: [03.2024] for [2024-03], and [NaN.NaN] for the key of undated
    entries.  For a year before 0 the minus sign of the key is taken for
    a separator and the label ends in a dot. *)
Theorem monthLabel_keys (y m : Z) :
  0 <= m <= 11 →
  (0 <= y →
   monthLabel (keyYM y m)
   = String.append (twoDigits (m + 1)) (String.append "." (yearPart y)))
  ∧ (y < 0 →
     monthLabel (keyYM y m)
     = String.append (twoDigits (m + 1))
         (String.append "." (String.append (yearPart (- y)) ".")))
  ∧ monthLabel "NaN-NaN" = "NaN.NaN".
Proof.
  intros Hm. split_and!.
  - intros Hy. unfold monthLabel. by rewrite split_dash_keyYM by lia.
  - intros Hy. unfold monthLabel. destruct y as [|p|p]; [lia..|].
    unfold keyYM, yearPart, monthPart.
    change (numToString (Some (Z.neg p)))
      with (String "-" (numToString (Some (Z.pos p)))).
    change (- Z.neg p) with (Z.pos p).
    rewrite split_dash_split. unfold split_on.
    change (String.append (String "-" ?a) ?b)
      with (String "-" (String.append a b)).
    change (split_aux "-" "" (String "-" ?s))
      with ("" :: split_aux "-" "" s).
    change (String.append "-" ?s) with (String "-" s).
    destruct (numToString_digits (Z.pos p) ltac:(lia)) as [Hdig _].
    rewrite split_aux_app by (by apply allDigits_freeOf).
    rewrite split_aux_free.
    + done.
    + apply allDigits_freeOf, padStart2_digits.
      apply (numToString_digits (m + 1)). lia.
  - done.
Qed.

Lemma twoDigits_length_all :
  all_from 100 0 (λ z, bool_decide (String.length (twoDigits z) = 2%nat))
  = true.
Proof. vm_compute. reflexivity. Qed.

Lemma twoDigits_length z :
  0 <= z <= 99 → String.length (twoDigits z) = 2%nat.
Proof.
  intros Hz. eapply bool_decide_eq_true_1.
  apply (all_from_spec _ _ _ z twoDigits_length_all). lia.
Qed.

Lemma slice_last2_year_all :
  all_from (Z.to_nat 9000) 1000
    (λ y, bool_decide (slice_last2 (yearPart y) = twoDigits (y mod 100)))
  = true.
Proof. vm_compute. reflexivity. Qed.

Lemma slice_last2_year y :
  1000 <= y <= 9999 → slice_last2 (yearPart y) = twoDigits (y mod 100).
Proof.
  intros Hy. eapply bool_decide_eq_true_1.
  apply (all_from_spec _ _ _ y slice_last2_year_all). lia.
Qed.

(** X30: for a valid time value of a year from 1000 to 9999 [shortDate]
    is the UTC day, month and last two digits of the year, two digits
    each, with slashes: eight characters.  An invalid time value gives
    [NaN/NaN/aN], and the initial [lastTs] of -1 the last day of 1969. *)
Theorem shortDate_format (t : Z) :
  Z.abs t <= maxTime → 1000 <= YearFromTime t <= 9999 →
  shortDate (Some t)
  = String.append (twoDigits (civil_from_days (Day t)).2)
      (String.append "/"
         (String.append (twoDigits (MonthFromTime t + 1))
            (String.append "/" (twoDigits (YearFromTime t mod 100)))))
  ∧ String.length (shortDate (Some t)) = 8%nat
  ∧ shortDate None = "NaN/NaN/aN"
  ∧ shortDate (Some (-1)) = "31/12/69".
Proof.
  intros Ht Hy.
  assert (shortDate (Some t)
          = String.append (twoDigits (civil_from_days (Day t)).2)
              (String.append "/"
                 (String.append (twoDigits (MonthFromTime t + 1))
                    (String.append "/"
                       (twoDigits (YearFromTime t mod 100)))))) as Heq.
  { assert (newDate (Some t) = Some t) as Hvalid by (by apply newDate_Some).
    unfold shortDate. rewrite Hvalid.
    unfold getUTCDate, getUTCMonth, getUTCFullYear.
    cbn [fmap option_fmap option_map].
    change (numToString (Some (YearFromTime t)))
      with (yearPart (YearFromTime t)).
    by rewrite slice_last2_year. }
  split_and!.
  - done.
  - rewrite Heq. rewrite !string_length_append.
    destruct (civil_month_start (Day t)) as (_ & Hdd & _).
    pose proof (MonthFromTime_range t) as Hm.
    rewrite !twoDigits_length; [done|..].
    + pose proof (Z.mod_pos_bound (YearFromTime t) 100 ltac:(lia)). lia.
    + lia.
    + lia.
  - done.
  - vm_compute. reflexivity.
Qed.

End Dates.

End Dashboard.

(** ** The properties on the sample data *)

Import Host Samples.

(** The aggregate of [XYZ] for March 2024: both spellings counted, the
    first mention is Ann's. *)
Example buildMonthAgg_XYZ :
  JsMap.get "XYZ"
    (byTicker (buildMonthAgg iso_parse decimal_Number ascii_toUpperCase
                 mentions "2024-03"))
  = Some {| countMTD := 2; firstTs := Finite 1709632800000; firstLink := "";
            firstUserId := "u1"; firstUserName := "Ann";
            lastTs := 1710925200000; lastLink := "" |}.
Proof. vm_compute. reflexivity. Qed.

(** Gap filling skips the missing open at index 1. *)
Example startPrice_skips_null :
  startPrice (opens series) 1 = JNum (Fin 12)
  ∧ startPrice (closes series) 1 = JNum (Fin 13).
Proof. vm_compute. done. Qed.

(** With a zero open the gain of the returned item is infinite. *)
Example computeGainers_zero_basis :
  let fetch sym ts o m :=
    (fetchBasisAndLatest decimal_Number utc_localYMD utc_ym_parts
       zeroOpenProvider clock clock ∅ sym ts o m).1 in
  (λ g, (g_basis string g, pct string g))
    <$> default [] (computeGainers pct_exact string id (λ _, Some mentionTime)
                      fetch [0]%nat ["ZERO"] (batchOptions None))
  = [(JNum (Fin 0), PInf)].
Proof. vm_compute. reflexivity. Qed.


(** An undated mention puts [NaN-NaN] among the months. *)
Lemma getAvailableMonths_keeps_unparsable_witness :
  parseTimestamp iso_parse undated = None
  ∧ "NaN-NaN" ∈ getAvailableMonths iso_parse codeunit_compare (undated :: mentions)
  ∧ undated ∉ monthEntries iso_parse decimal_Number (undated :: mentions) "2024-03".
Proof.
  split; [vm_compute; reflexivity|].
  destruct (getAvailableMonths_keeps_unparsable iso_parse decimal_Number
              codeunit_compare (undated :: mentions) undated) as [Hin Hout].
  - apply list_elem_of_here.
  - vm_compute. reflexivity.
  - exact (conj Hin (Hout "2024-03")).
Defined.


(** C3: tickers are not trimmed.  Of three March mentions with tickers
    [ abc] (leading blank), [ABC] and two blanks, the first two do not
    collapse under [ABC] - each has its own aggregate with [countMTD] 1 -
    and the blank ticker is not discarded: it has an aggregate of its own. *)
Lemma buildMonthAgg_untrimmed_counterexample :
  let bt := byTicker (buildMonthAgg iso_parse decimal_Number ascii_toUpperCase
                        padded "2024-03") in
  JsMap.order bt = [" ABC"; "ABC"; "  "]
  ∧ countMTD <$> JsMap.get "ABC" bt = Some 1%nat
  ∧ countMTD <$> JsMap.get " ABC" bt = Some 1%nat
  ∧ countMTD <$> JsMap.get "  " bt = Some 1%nat.
Proof. vm_compute. done. Qed.

(** [XYZ] and [xyz] share the aggregate under [XYZ]. *)
Lemma buildMonthAgg_keys_uppercased_witness :
  ∃ a,
    JsMap.get (ascii_toUpperCase "XYZ")
      (byTicker (buildMonthAgg iso_parse decimal_Number ascii_toUpperCase
                   mentions "2024-03")) = Some a
    ∧ JsMap.get (ascii_toUpperCase "xyz")
        (byTicker (buildMonthAgg iso_parse decimal_Number ascii_toUpperCase
                     mentions "2024-03")) = Some a
    ∧ countMTD a = 2%nat.
Proof.
  destruct (buildMonthAgg_keys_uppercased iso_parse decimal_Number
              ascii_toUpperCase mentions "2024-03") as [_ Hshare].
  destruct (Hshare xyz1 xyz2 "XYZ" "xyz") as (a & H1 & H2 & Hcount).
  - vm_compute. apply list_elem_of_here.
  - vm_compute. apply list_elem_of_further, list_elem_of_here.
  - reflexivity.
  - reflexivity.
  - vm_compute. discriminate.
  - vm_compute. reflexivity.
  - vm_compute in Hcount. exists a. exact (conj H1 (conj H2 Hcount)).
Defined.

(** The aggregate of [XYZ] has its first mention before its last. *)
Lemma buildMonthAgg_invariant_witness :
  ∃ a f,
    JsMap.get "XYZ"
      (byTicker (buildMonthAgg iso_parse decimal_Number ascii_toUpperCase
                   mentions "2024-03")) = Some a
    ∧ firstTs a = Finite f ∧ f <= lastTs a.
Proof.
  destruct (buildMonthAgg_invariant iso_parse decimal_Number ascii_toUpperCase
              mentions "2024-03") as (Hfl & _).
  assert (∃ a, JsMap.get "XYZ"
                 (byTicker (buildMonthAgg iso_parse decimal_Number
                              ascii_toUpperCase mentions "2024-03")) = Some a)
    as [a Ha].
  { vm_compute. eexists. reflexivity. }
  destruct (Hfl "XYZ" a Ha) as (f & Hf & Hle).
  exists a, f. exact (conj Ha (conj Hf Hle)).
Defined.

(** C2: on a series whose first open is 0 and first close is 10 the
    resolver does not fail in mode [oc] and returns the basis 0, which is
    not positive. *)
Theorem fetchBasisAndLatest_zero_basis :
  (fetchBasisAndLatest decimal_Number utc_localYMD utc_ym_parts
     zeroOpenProvider clock clock ∅ "ZERO" (Some mentionTime)
     (sinceMention "oc") "2024-03").1
  = Ok {| basis := JNum (Fin 0); latest := JNum (Fin 12) |}
  ∧ gt0 (JNum (Fin 0)) = false.
Proof. vm_compute. done. Qed.


(** C6: a [fromTsMs] of 0 (the epoch itself) is falsy and is replaced by
    the clock: on 2024-03-10 the code computes 1 elapsed day and asks for
    [1mo], where [max(1, floor((now - 0) / 1 day))] is 19792 days and its
    bucket [5y]. *)
Lemma elapsedDays_epoch_counterexample :
  elapsedDays clock clock (Some 0) = 1
  ∧ Z.max 1 ((clock - 0) / 86400000) = 19792
  ∧ rangeOf (elapsedDays clock clock (Some 0)) = "1mo"
  ∧ rangeOf (Z.max 1 ((clock - 0) / 86400000)) = "5y".
Proof. vm_compute. done. Qed.

(** Five full days after the mention the range is [1mo]. *)
Lemma elapsedDays_range_witness :
  elapsedDays clock clock (Some mentionTime)
  = Z.max 1 ((clock - mentionTime) / 86400000)
  ∧ rangeOf (elapsedDays clock clock (Some mentionTime)) = "1mo".
Proof.
  destruct (elapsedDays_range clock clock (Some mentionTime))
    as (Hdays & _ & Hmonth & _).
  split.
  - apply (Hdays mentionTime eq_refl). vm_compute. discriminate.
  - apply Hmonth. vm_compute. discriminate.
Defined.

(** A first call fetches and caches the series; a second call a second
    later, with the provider unreachable, returns the same. *)
Lemma fetchBasisAndLatest_idempotent_witness :
  let first :=
    fetchBasisAndLatest decimal_Number utc_localYMD utc_ym_parts provider
      clock clock ∅ "AAA" (Some mentionTime) (sinceMention "oc") "2024-03" in
  first.1 = Ok {| basis := JNum (Fin 12); latest := JNum (Fin 15) |}
  ∧ fetchBasisAndLatest decimal_Number utc_localYMD utc_ym_parts offline
      (clock + 1000) (clock + 1000) first.2 "AAA" (Some mentionTime)
      (sinceMention "oc") "2024-03"
    = (first.1, first.2).
Proof.
  intros first. split; [vm_compute; reflexivity|].
  apply (fetchBasisAndLatest_idempotent decimal_Number utc_localYMD
           utc_ym_parts provider offline clock clock (clock + 1000)
           (clock + 1000) ∅).
  - apply surjective_pairing.
  - vm_compute. eexists. reflexivity.
  - vm_compute. reflexivity.
Defined.

(** C4: only the first [limitTickers] items are worked on.  With
    [limitTickers] 2, a batch of four items of which exactly one ([BAD])
    fails returns one result, not three. *)
Lemma computeGainers_truncation_counterexample :
  let fetch sym ts o m :=
    (fetchBasisAndLatest decimal_Number utc_localYMD utc_ym_parts provider
       clock clock ∅ sym ts o m).1 in
  let items := ["AAA"; "BAD"; "CCC"; "DDD"] in
  length <$> computeGainers pct_exact string id (λ _, Some mentionTime) fetch
               [0; 0; 0; 0]%nat items (batchOptions (Some 2))
  = Some 1%nat
  ∧ (length items - 1)%nat = 3%nat.
Proof. vm_compute. done. Qed.

(** Of three items one fails: two results, sorted. *)
Lemma computeGainers_one_failure_witness :
  let fetch sym ts o m :=
    (fetchBasisAndLatest decimal_Number utc_localYMD utc_ym_parts provider
       clock clock ∅ sym ts o m).1 in
  let items := ["AAA"; "BAD"; "CCC"] in
  ∃ out,
    computeGainers pct_exact string id (λ _, Some mentionTime) fetch
      [0; 1; 0]%nat items (batchOptions None) = Some out
    ∧ length out = 2%nat
    ∧ pctDescending string out.
Proof.
  intros fetch items.
  destruct (computeGainers_one_failure pct_exact string id
              (λ _, Some mentionTime) fetch [0; 1; 0]%nat items
              (batchOptions None) 1%nat "BAD")
    as [(out & Hout & Hlen & _ & Hsorted) _].
  - vm_compute. lia.
  - vm_compute. reflexivity.
  - vm_compute. eexists. reflexivity.
  - intros j x Hj Hne.
    destruct j as [|[|[|j]]]; vm_compute in Hj; try done;
      injection Hj as <-; vm_compute; eexists; reflexivity.
  - intros x bl Hx Hfetch. vm_compute in Hx.
    apply elem_of_cons in Hx as [->|Hx];
      [|apply elem_of_cons in Hx as [->|Hx];
        [|apply elem_of_cons in Hx as [->|Hx];
          [|by apply elem_of_nil in Hx]]];
      vm_compute in Hfetch; try discriminate;
      injection Hfetch as <-; vm_compute; discriminate.
  - vm_compute in Hlen. exists out. exact (conj Hout (conj Hlen Hsorted)).
Defined.
(** ** The preview of top gainers

    [showTickersDashboard] hands the ranked aggregates of the month to
    [computeGainers] with a limit of 25 tickers. *)

(** X24: the preview resolves, and every gainer it shows is one of the 25
    most mentioned tickers of the month: at most 25 gainers, each a
    ticker of the month, and no ticker that was left out of the
    computation was mentioned more often than one that went in. *)
Theorem preview_gainers_most_mentioned
    (Date_parse Number : string → option Z) (toUpperCase : string → string)
    (localeCompare : string → string → Z) (pctOf : jsval → jsval → num)
    (fetch : string → option Z → options → string → outcome basisLatest)
    (picks : list nat) (entries : list entry) (currentMonth : string) :
  let r := buildMonthAgg Date_parse Number toUpperCase entries currentMonth in
  let count s := countOf (byTicker r) s in
  let considered := (take 25 (mtdItems localeCompare r)).*1 in
  (25 `min` mtdUnique r <= length picks)%nat →
  ∃ gainers,
    computeGainers pctOf quickInfo qi_symbol (λ i, timeOf (qi_firstTs i))
      fetch picks (quickInfos localeCompare r) (previewOptions currentMonth)
    = Some gainers
    ∧ (length gainers <= 25)%nat
    ∧ ∀ g, g ∈ gainers →
        qi_symbol (g_info quickInfo g) ∈ considered
        ∧ is_Some (JsMap.get (qi_symbol (g_info quickInfo g)) (byTicker r))
        ∧ ∀ s', is_Some (JsMap.get s' (byTicker r)) → s' ∉ considered →
                (count s' <= count (qi_symbol (g_info quickInfo g)))%nat.
Proof.
  intros r count considered Hpicks.
  destruct (mtdItems_take Date_parse Number toUpperCase localeCompare
              entries currentMonth 25) as (Hlen & _ & Hkeys & _ & Hrank).
  fold r in Hlen, Hkeys, Hrank. fold considered in Hlen, Hkeys, Hrank.
  set (toInfo := λ it : string * agg,
         {| qi_symbol := it.1; qi_firstTs := firstTs it.2;
            qi_firstUserName := firstUserName it.2;
            qi_firstLink := firstLink it.2 |}).
  assert (subsetOf quickInfo (quickInfos localeCompare r)
            (previewOptions currentMonth)
          = toInfo <$> take 25 (mtdItems localeCompare r)) as Hsubset.
  { unfold subsetOf, quickInfos. simpl. by rewrite fmap_take. }
  assert (length (subsetOf quickInfo (quickInfos localeCompare r)
                    (previewOptions currentMonth))
          = (25 `min` mtdUnique r)%nat) as Hsublen.
  { rewrite Hsubset, length_fmap. unfold considered in Hlen.
    by rewrite length_fmap in Hlen. }
  eexists. split.
  { apply computeGainers_resolves. by rewrite Hsublen. }
  split.
  - rewrite js_sort_length.
    etransitivity; [apply omap_length_le|]. rewrite Hsublen. lia.
  - intros g Hg. rewrite js_sort_Permutation in Hg.
    apply list_elem_of_omap in Hg as (info & Hinfo & Hg).
    apply gainWorker_Some in Hg as (bl & _ & ->). simpl.
    rewrite Hsubset in Hinfo.
    apply list_elem_of_fmap in Hinfo as (it & -> & Hit). simpl.
    assert (it.1 ∈ considered) as Hin.
    { apply list_elem_of_fmap. by exists it. }
    split_and!; [done|by apply Hkeys|].
    intros s' Hs' Hout. by apply Hrank.
Qed.

(** ** Further properties on the sample data *)

(** Three tasks under a limit of 2: after one settles, at most 2 are in
    flight. *)
Lemma mapLimit_inflight_ceiling_witness :
  let worker (x : Z) (_ : nat) := Ok (Some x) : outcome (option Z) in
  Z.of_nat (length (inflight Z (run [10; 20; 30] 2 worker [1%nat]
                                  (initSched [10; 20; 30] 2)))) <= 2.
Proof.
  intros worker.
  apply (proj1 (mapLimit_inflight_ceiling [10; 20; 30] worker [1%nat]) 2).
  lia.
Defined.

(** The second task rejects and settles first: its slot, and only its
    slot, holds [null]. *)
Lemma mapLimit_positional_witness :
  let worker (x : Z) (idx : nat) :=
    if x =? 20 then Throw HttpError else Ok (Some (x + Z.of_nat idx)) in
  ∃ out,
    mapLimit [10; 20; 30] 2 worker [1; 0; 0]%nat = Some out
    ∧ out !! 1%nat = Some (Some None)
    ∧ out !! 2%nat = Some (Some (Some 32)).
Proof.
  intros worker.
  destruct (mapLimit_positional [10; 20; 30] 2 worker [1; 0; 0]%nat)
    as (out & Hout & _ & Hpos).
  - lia.
  - discriminate.
  - simpl. lia.
  - exists out.
    exact (conj Hout (conj (Hpos 1%nat 20 eq_refl) (Hpos 2%nat 30 eq_refl))).
Defined.

(** With no items, or with a limit of 0, the promise stays pending. *)
Lemma mapLimit_never_resolves_witness :
  let worker (x : Z) (_ : nat) := Ok (Some x) : outcome (option Z) in
  mapLimit [] 2 worker [0; 0]%nat = None
  ∧ mapLimit [10; 20] 0 worker [0; 0]%nat = None.
Proof.
  intros worker. split.
  - apply mapLimit_never_resolves. by left.
  - apply mapLimit_never_resolves. right. lia.
Defined.

(** Of three symbols one fails: the output is the two gains of the
    others. *)
Lemma computeGainers_output_witness :
  let fetch sym ts o m :=
    (fetchBasisAndLatest decimal_Number utc_localYMD utc_ym_parts provider
       clock clock ∅ sym ts o m).1 in
  let items := ["AAA"; "BAD"; "CCC"] in
  ∃ out,
    computeGainers pct_exact string id (λ _, Some mentionTime) fetch
      [0; 1; 0]%nat items (batchOptions None) = Some out
    ∧ out ≡ₚ omap (gainWorker pct_exact string id (λ _, Some mentionTime)
                     fetch (batchOptions None))
               (subsetOf string items (batchOptions None))
    ∧ (length out <= length items)%nat.
Proof.
  intros fetch items.
  destruct (computeGainers_output pct_exact string id
              (λ _, Some mentionTime) fetch [0; 1; 0]%nat items
              (batchOptions None))
    as (out & Hout & Hperm & _ & Hlen & _).
  - vm_compute. lia.
  - exists out. exact (conj Hout (conj Hperm Hlen)).
Defined.

(** The first mention of [XYZ] in March 2024. *)
Lemma buildMonthAgg_first_mention_witness :
  ∃ a,
    JsMap.get "XYZ"
      (byTicker (buildMonthAgg iso_parse decimal_Number ascii_toUpperCase
                   mentions "2024-03")) = Some a
    ∧ firstMentionOf iso_parse ascii_toUpperCase "XYZ"
        (monthEntries iso_parse decimal_Number mentions "2024-03") a.
Proof.
  assert (∃ a, JsMap.get "XYZ"
                 (byTicker (buildMonthAgg iso_parse decimal_Number
                              ascii_toUpperCase mentions "2024-03")) = Some a)
    as [a Ha].
  { vm_compute. eexists. reflexivity. }
  exists a. split; [exact Ha|].
  exact (buildMonthAgg_first_mention iso_parse decimal_Number
           ascii_toUpperCase mentions "2024-03" "XYZ" a Ha).
Defined.

(** The last mention of [XYZ] in March 2024. *)
Lemma buildMonthAgg_last_mention_witness :
  ∃ a,
    JsMap.get "XYZ"
      (byTicker (buildMonthAgg iso_parse decimal_Number ascii_toUpperCase
                   mentions "2024-03")) = Some a
    ∧ lastMentionOf iso_parse ascii_toUpperCase "XYZ"
        (monthEntries iso_parse decimal_Number mentions "2024-03") a.
Proof.
  assert (∃ a, JsMap.get "XYZ"
                 (byTicker (buildMonthAgg iso_parse decimal_Number
                              ascii_toUpperCase mentions "2024-03")) = Some a)
    as [a Ha].
  { vm_compute. eexists. reflexivity. }
  exists a. split; [exact Ha|].
  exact (buildMonthAgg_last_mention iso_parse decimal_Number
           ascii_toUpperCase mentions "2024-03" "XYZ" a Ha).
Defined.

(** In March 2024 [u1] has one first mention, under the name [Ann]. *)
Lemma buildMonthAgg_user_counts_witness :
  let r := buildMonthAgg iso_parse decimal_Number ascii_toUpperCase
             mentions "2024-03" in
  userCountOf (firstByUserCounts r) "u1" = 1%nat
  ∧ userNameOf (firstByUserCounts r) "u1" = "Ann".
Proof.
  intros r.
  destruct (buildMonthAgg_user_counts iso_parse decimal_Number
              ascii_toUpperCase mentions "2024-03" "u1") as [_ H].
  destruct (H ltac:(discriminate)) as (_ & Hc & Hn). split.
  - etransitivity; [exact Hc|]. vm_compute. reflexivity.
  - etransitivity; [exact Hn|]. vm_compute. reflexivity.
Defined.

(** The key [NaN-NaN] of an undated mention, and a year alone, select
    nothing. *)
Lemma buildMonthAgg_malformed_month_witness :
  buildMonthAgg iso_parse decimal_Number ascii_toUpperCase
    (undated :: mentions) "NaN-NaN"
  = {| byTicker := JsMap.empty; firstByUserCounts := JsMap.empty |}
  ∧ buildMonthAgg iso_parse decimal_Number ascii_toUpperCase mentions "2024"
    = {| byTicker := JsMap.empty; firstByUserCounts := JsMap.empty |}.
Proof.
  split; apply buildMonthAgg_malformed_month.
  - right. left. vm_compute. reflexivity.
  - left. vm_compute. reflexivity.
Defined.

(** The key of the first sample mention selects it. *)
Lemma monthKey_round_trip_witness :
  monthKey iso_parse xyz1
    ∈ getAvailableMonths iso_parse codeunit_compare mentions
  ∧ xyz1 ∈ monthEntries iso_parse decimal_Number mentions
             (monthKey iso_parse xyz1).
Proof.
  destruct (monthKey_round_trip iso_parse decimal_Number codeunit_compare
              mentions xyz1 1709632800000) as [_ H].
  - vm_compute. reflexivity.
  - vm_compute. discriminate.
  - vm_compute. discriminate.
  - vm_compute. reflexivity.
  - vm_compute. reflexivity.
  - apply H, list_elem_of_here.
Defined.

(** A mention of March of the year 50 has the key [50-03], which selects
    March 1950. *)
Lemma monthKey_two_digit_year_witness :
  let old := mention "OLD" "0050-03-05T10:00:00Z" "u1" "Ann" in
  monthKey iso_parse old = "50-03"
  ∧ old ∉ monthEntries iso_parse decimal_Number [old]
            (monthKey iso_parse old).
Proof.
  intros old. split; [vm_compute; reflexivity|].
  destruct (monthKey_two_digit_year iso_parse decimal_Number [old] old
              (default 0 (iso_parse "0050-03-05T10:00:00Z"))) as [_ H].
  - vm_compute. reflexivity.
  - vm_compute. discriminate.
  - vm_compute. split; discriminate.
  - vm_compute. reflexivity.
  - vm_compute. reflexivity.
  - exact H.
Defined.

(** The first call for [AAA] leaves its series in the cache. *)
Lemma fetchBasisAndLatest_cache_witness :
  let range :=
    rangeOf (elapsedDays clock clock
               (fetchFrom decimal_Number (Some mentionTime)
                  (sinceMention "oc") "2024-03")) in
  is_Some
    ((fetchBasisAndLatest decimal_Number utc_localYMD utc_ym_parts provider
        clock clock ∅ "AAA" (Some mentionTime) (sinceMention "oc")
        "2024-03").2 !! cacheKeyOf "AAA" range).
Proof.
  intros range.
  destruct (fetchBasisAndLatest_cache decimal_Number utc_localYMD
              utc_ym_parts provider clock clock ∅ "AAA" (Some mentionTime)
              (sinceMention "oc") "2024-03") as (_ & _ & H & _).
  apply H. right. vm_compute. eexists. reflexivity.
Defined.

(** The basis resolved on the sample series is one of its opens. *)
Lemma resolveOn_from_series_witness :
  JNum (Fin 12) ∈ opens series ∨ JNum (Fin 12) ∈ closes series.
Proof.
  destruct (resolveOn_from_series decimal_Number utc_localYMD utc_ym_parts
              series (Some mentionTime) (sinceMention "oc") "2024-03"
              {| basis := JNum (Fin 12); latest := JNum (Fin 15) |})
    as (H & _).
  - vm_compute. reflexivity.
  - exact H.
Defined.

(** Two short lines go out in one reply. *)
Lemma sendPaged_groups_witness :
  ∃ g gs,
    concat (g :: gs) = ["alpha"; "beta"]
    ∧ sendPaged false "Hot 5" ["alpha"; "beta"]
      = ([DeferReply]
         ++ EditReply
              (String.append "**"
                 (String.append "Hot 5"
                    (String.append "**" (String.append nl (renderLines g)))))
            :: ((λ g, FollowUp (renderLines g)) <$> gs))%list.
Proof.
  destruct (sendPaged_groups false "Hot 5" ["alpha"; "beta"])
    as (g & gs & Hconcat & _ & _ & Hsent); [done|].
  exists g, gs. exact (conj Hconcat Hsent).
Defined.


(** What [u1] selects on message 100 does not change what the same user
    has on message 200. *)
Lemma selection_isolated_witness :
  getSelectedMetricForMessage (selectMetric ∅ "100" "u1" ["month_cc"])
    "200" "u1"
  = getSelectedMetricForMessage ∅ "200" "u1".
Proof.
  refine (proj1 (selection_isolated ∅ "100" "u1" "200" "u1" ["month_cc"] 0 0
                   "2024-03" (selectMetric ∅ "100" "u1" ["month_cc"])
                   _ _ _ _)).
  - vm_compute. reflexivity.
  - vm_compute. reflexivity.
  - discriminate.
  - left. reflexivity.
Defined.

Lemma metricToComputeOpts_choices_witness :
  ∃ a m,
    metricToComputeOpts "mention_cc"
    = {| anchor := Some a; mode := Some m |}
    ∧ "mention_cc" = String.append a (String.append "_" m).
Proof.
  destruct (proj1 (metricToComputeOpts_choices "mention_cc"))
    as (a & m & Hopts & Hname & _).
  - simpl. do 3 apply list_elem_of_further. apply list_elem_of_here.
  - exists a, m. exact (conj Hopts Hname).
Defined.

(** The button built for user 42, clicked by user 77, lists the mentions
    of 42. *)
Lemma mine_button_round_trip_witness :
  mineTarget "dash:mine:42" "77" = orStr (Some "42") "77".
Proof.
  refine (proj2 (mine_button_round_trip [] "42" None [] "2024-03"
                   "dash:mine:42" "77" Secondary _ _)).
  - vm_compute. reflexivity.
  - simpl. do 3 apply list_elem_of_further. apply list_elem_of_here.
Defined.

Lemma top10_most_mentioned_witness :
  NoDup (top10 codeunit_compare
           (buildMonthAgg iso_parse decimal_Number ascii_toUpperCase
              mentions "2024-03")).
Proof.
  exact (proj1 (proj2 (top10_most_mentioned iso_parse decimal_Number
                         ascii_toUpperCase codeunit_compare mentions
                         "2024-03"))).
Defined.


(** The preview for March 2024: one ticker, one gainer at most. *)
Lemma preview_gainers_most_mentioned_witness :
  let fetch sym ts o m :=
    (fetchBasisAndLatest decimal_Number utc_localYMD utc_ym_parts provider
       clock clock ∅ sym ts o m).1 in
  let r := buildMonthAgg iso_parse decimal_Number ascii_toUpperCase
             mentions "2024-03" in
  ∃ gainers,
    computeGainers pct_exact quickInfo qi_symbol (λ i, timeOf (qi_firstTs i))
      fetch [0%nat] (quickInfos codeunit_compare r) (previewOptions "2024-03")
    = Some gainers
    ∧ (length gainers <= 25)%nat.
Proof.
  intros fetch r.
  destruct (preview_gainers_most_mentioned iso_parse decimal_Number
              ascii_toUpperCase codeunit_compare pct_exact fetch [0%nat]
              mentions "2024-03") as (gainers & Hres & Hlen & _).
  - vm_compute. lia.
  - exists gainers. exact (conj Hres Hlen).
Defined.

(** The last close of the sample daily series is that of 2024-03-05. *)
Lemma getLastClose_latest_witness :
  ∃ series c,
    d_series dailyData "Time Series (Daily)" = Some series
    ∧ series !! "2024-03-05" = Some (Some c)
    ∧ Fin (inject_Z 14) = integer_price c.
Proof.
  destruct (getLastClose_latest integer_price None priceProvider "AAA" None
              (Fin (inject_Z 14)) "2024-03-05")
    as (data & series & c & Hnet & Hseries & Hbar & Hclose & _).
  - vm_compute. reflexivity.
  - injection Hnet as <-. exists series, c.
    exact (conj Hseries (conj Hbar Hclose)).
Defined.

(** A note in the body is a rate-limit error although the series is
    there. *)
Lemma getLastClose_request_witness :
  getLastClose integer_price None limitedProvider "AAA" None = inl RateLimit.
Proof.
  destruct (getLastClose_request integer_price None limitedProvider "AAA"
              None) as (_ & _ & _ & _ & _ & H).
  destruct (H _ eq_refl) as [Hnote _]. apply Hnote. reflexivity.
Defined.

Lemma getATR_result_witness :
  let res :=
    {| atr_symbol := "AAA"; atr_interval := "daily"; atr_timePeriod := 14;
       atr_timestamp := "2024-03-05"; atr_value := Fin (inject_Z 2);
       atr_close := Fin (inject_Z 14); atr_pct := NaN; atr_meta := None |} in
  ∃ priceTs,
    getLastClose integer_price None priceProvider "AAA" (Some "daily")
    = inr (atr_close res, priceTs).
Proof.
  intros res.
  destruct (getATR_result integer_price (λ _ _, NaN) None atrProvider
              priceProvider "AAA" None None res)
    as (_ & _ & _ & priceTs & _ & _ & _ & _ & _ & _ & Hclose & _).
  - vm_compute. reflexivity.
  - exists priceTs. exact Hclose.
Defined.

(** Over the rate limit on the price request, [getATR] fails with that
    error. *)
Lemma getATR_errors_witness :
  (∀ net', getATR integer_price (λ _ _, NaN) None atrProvider net' "AAA"
             None None = inl RateLimit)
  ∨ getLastClose integer_price None limitedProvider "AAA" (Some "daily")
    = inl RateLimit.
Proof.
  destruct (getATR_errors integer_price (λ _ _, NaN) None atrProvider
              limitedProvider "AAA" None None RateLimit) as [H|[H _]].
  - vm_compute. reflexivity.
  - left. exact H.
  - right. exact H.
Defined.

(** The label of March 2024. *)
Lemma monthLabel_keys_witness : monthLabel "2024-03" = "03.2024".
Proof.
  refine (proj1 (monthLabel_keys 2024 2 _) _); lia.
Defined.

(** The short date of the sample mention time. *)
Lemma shortDate_format_witness :
  String.length (shortDate (Some mentionTime)) = 8%nat.
Proof.
  refine (proj1 (proj2 (shortDate_format mentionTime _ _))).
  - vm_compute. discriminate.
  - vm_compute. split; discriminate.
Defined.

